(** * torch::deploy: load balancing, sessions and replicated objects

    A shallow embedding of [torch/csrc/deploy/deploy.cpp]: the lock-free
    [LoadBalancer], the registration entry points of the embedded
    interpreter image, and the session / replicated-object protocol of
    [InterpreterManager], [InterpreterSession] and [ReplicatedObjImpl]. *)

From Stdlib Require Import ZArith Lia.
From stdpp Require Import base option list sorting gmap gmultiset strings.

Local Open Scope Z_scope.

(** ** Machine integers

    [uint64_t] and [size_t] are 64-bit unsigned; arithmetic on them wraps. *)

Definition SIZE_MAX : Z := 2 ^ 64 - 1.

Definition INT_MAX : Z := 2 ^ 31 - 1.

Definition wrap64 (z : Z) : Z := z mod 2 ^ 64.

(** Conversion of an [int] to [size_t], as the comparison [last >= n_]
    performs it. *)
Definition to_size_t (z : Z) : Z := z mod 2 ^ 64.

(** ** LoadBalancer *)

Module LoadBalancer.

(** [uses_] is the array of usage counters, which [acquire] and [free]
    address as [uses_[8 * slot]]: one counter every eight cells.  [n_] is
    the number of slots. *)
Record t : Type := Build { uses_ : list Z; n_ : Z }.

(** Index of [uses_[8 * idx]]. *)
Definition cell (idx : Z) : nat := Z.to_nat (8 * idx).

(** The counter of slot [idx].  A read outside the array is undefined in
    C++; it reads as 0 here, and every theorem is about arrays that hold
    the [8 * n_] cells. *)
Definition load (mem : list Z) (idx : Z) : Z := default 0 (mem !! cell idx).

(** [__atomic_compare_exchange_n(ptr, &expected, desired, ...)]: the
    result is the success flag, the value left in [expected], and the
    memory. *)
Definition atomic_compare_exchange_n
    (mem : list Z) (ptr : nat) (expected desired : Z) : bool * Z * list Z :=
  let cur := default 0 (mem !! ptr) in
  if cur =? expected then (true, expected, <[ptr := desired]> mem)
  else (false, cur, mem).

(** [__atomic_fetch_add(ptr, v, ...)] and [__atomic_fetch_sub]: the old
    value and the memory. *)
Definition atomic_fetch_add (mem : list Z) (ptr : nat) (v : Z) : Z * list Z :=
  let cur := default 0 (mem !! ptr) in
  (cur, <[ptr := wrap64 (cur + v)]> mem).

Definition atomic_fetch_sub (mem : list Z) (ptr : nat) (v : Z) : Z * list Z :=
  let cur := default 0 (mem !! ptr) in
  (cur, <[ptr := wrap64 (cur - v)]> mem).

(** What the other threads do to the array between two atomic operations
    of one call: [env t] is applied just before the [t]-th atomic
    operation of the call. *)
Definition interference : Type := nat -> list Z -> list Z.

Definition quiet : interference := fun _ mem => mem.

(** The body of [acquire].  [fuel] is the number of iterations that remain
    ([n_ - i]), [t] counts the atomic operations done so far; [last] is the
    thread-local variable, returned with the result. *)
Fixpoint acquire_loop (env : interference) (t : nat) (fuel : nat) (n : Z)
    (mem : list Z) (last minusers min_idx : Z) : Z * list Z * Z :=
  match fuel with
  | O =>
      let '(_, mem') := atomic_fetch_add (env t mem) (cell min_idx) 1 in
      (min_idx, mem', last)
  | S fuel' =>
      let last := if to_size_t last >=? n then 0 else last in
      let '(acquired, prev, mem') :=
        atomic_compare_exchange_n (env t mem) (cell last) 0 1 in
      if acquired then (last, mem', last)
      else
        let '(minusers, min_idx) :=
          if prev <? minusers then (prev, last) else (minusers, min_idx) in
        acquire_loop env (S t) fuel' n mem' (last + 1) minusers min_idx
  end.

(** [acquire] among other threads: the slot, the balancer and the
    thread-local [last] after the call. *)
Definition acquire_under (env : interference) (lb : t) (last : Z) : Z * t * Z :=
  let '(r, mem', last') :=
    acquire_loop env 0 (Z.to_nat (n_ lb)) (n_ lb) (uses_ lb) last SIZE_MAX 0 in
  (r, Build mem' (n_ lb), last').

(** [acquire] with no other thread at work. *)
Definition acquire (lb : t) (last : Z) : Z * t * Z := acquire_under quiet lb last.

Definition free (lb : t) (where_ : Z) : t :=
  let '(_, mem') := atomic_fetch_sub (uses_ lb) (cell where_) 1 in
  Build mem' (n_ lb).

(** The array holds [8 * n] cells, each a [uint64_t]. *)
Definition wf_mem (n : Z) (mem : list Z) : Prop :=
  length mem = Z.to_nat (8 * n) /\ Forall (fun c => 0 <= c <= SIZE_MAX) mem.

(** The pool is not empty and a slot index fits the [int] that [acquire]
    returns. *)
Definition wf (lb : t) : Prop :=
  0 < n_ lb <= INT_MAX /\ wf_mem (n_ lb) (uses_ lb).

(** The thread-local [last] is an [int] that starts at 0 and is only
    incremented or reset to 0. *)
Definition tl_ok (last : Z) : Prop := 0 <= last <= INT_MAX.

(** Modelled from the spec: the constructor is defined in deploy.h, which
    is not among the sources verified here; the balancer is sized to the
    pool and no slot is in use. *)
Definition fresh (n : Z) : t := Build (replicate (Z.to_nat (8 * n)) 0) n.

(** *** The scan, as the loop walks it *)

(** The slot the loop looks at when it enters an iteration with [last]. *)
Definition norm (n last : Z) : Z := if to_size_t last >=? n then 0 else last.

(** The slot of the [j]-th iteration of a scan entered with [last]. *)
Fixpoint slot_at (n last : Z) (j : nat) : Z :=
  match j with
  | O => norm n last
  | S j' => slot_at n (norm n last + 1) j'
  end.

(** The array as the [j]-th atomic operation of a call finds it, when the
    call has done [t] operations before and none of them wrote. *)
Fixpoint seen (env : interference) (t : nat) (mem : list Z) (j : nat) : list Z :=
  match j with
  | O => env t mem
  | S j' => seen env (S t) (env t mem) j'
  end.

(** The value the [j]-th compare-and-swap observes, for a scan that has
    already done [t] operations. *)
Definition obs_from (env : interference) (n : Z) (t : nat) (mem : list Z)
    (last : Z) (j : nat) : Z :=
  load (seen env t mem j) (slot_at n last j).

(** The thread-local [last] after [fuel] iterations without success. *)
Fixpoint last_after (n last : Z) (fuel : nat) : Z :=
  match fuel with
  | O => last
  | S fuel' => last_after n (norm n last + 1) fuel'
  end.

(** The value the [j]-th compare-and-swap of a call observes. *)
Definition observed (env : interference) (n : Z) (mem : list Z) (last : Z)
    (j : nat) : Z :=
  obs_from env n 0 mem last j.

(** [k] is the first position of the scan that holds the least of the [n]
    values [obs 0 .. obs (n-1)]. *)
Definition first_seen_minimum (obs : nat -> Z) (n k : nat) : Prop :=
  (k < n)%nat /\
  (forall j, (j < n)%nat -> obs k <= obs j) /\
  (forall j, (j < k)%nat -> obs k < obs j).

(** [k] successive calls of [acquire] by one thread. *)
Fixpoint acquire_many (k : nat) (lb : t) (last : Z) : list Z * t * Z :=
  match k with
  | O => ([], lb, last)
  | S k' =>
      let '(r, lb1, last1) := acquire lb last in
      let '(rs, lb2, last2) := acquire_many k' lb1 last1 in
      (r :: rs, lb2, last2)
  end.

(** A call of the public interface. *)
Inductive call : Type :=
| Acquire
| Free (where_ : Z).

(** The state of one thread's run: the balancer, the thread-local [last],
    and the multiset of slots acquired and not yet freed. *)
Definition run_state : Type := t * Z * gmultiset Z.

Definition step (c : call) (st : run_state) : run_state :=
  let '(lb, last, held) := st in
  match c with
  | Acquire =>
      let '(r, lb', last') := acquire lb last in
      (lb', last', {[+ r +]} ⊎ held)
  | Free i => (free lb i, last, held ∖ {[+ i +]})
  end.

Definition run (calls : list call) (st : run_state) : run_state :=
  foldl (fun st c => step c st) st calls.

(** Every [free] names a slot of the pool. *)
Definition in_pool (n : Z) (c : call) : Prop :=
  match c with
  | Acquire => True
  | Free i => 0 <= i < n
  end.

(** Every [free] releases a slot that an earlier [acquire] returned and
    that has not been freed since. *)
Fixpoint matched (calls : list call) (st : run_state) : Prop :=
  match calls with
  | [] => True
  | c :: calls' =>
      match c with
      | Acquire => True
      | Free i => i ∈ st.2
      end /\ matched calls' (step c st)
  end.

(** Every counter of the pool is at zero. *)
Definition all_idle (lb : t) : Prop :=
  forall s, 0 <= s < n_ lb -> load (uses_ lb) s = 0.

(** The counters once the [j] slots [start], [start + 1], ... (modulo the
    pool size) are held once each and the others are idle. *)
Definition taken (start j : Z) (lb : t) : Prop :=
  forall s, 0 <= s < n_ lb ->
    load (uses_ lb) s = if (s - start) mod n_ lb <? j then 1 else 0.

(** The slow path as the specification words it: with no counter at zero,
    the slot returned is the first-seen minimum of the scan. *)
Definition slow_path_as_specified (lb : t) (last : Z) : Prop :=
  let n := Z.to_nat (n_ lb) in
  let obs := observed quiet (n_ lb) (uses_ lb) last in
  (forall j, (j < n)%nat -> obs j <> 0) ->
  exists k, first_seen_minimum obs n k /\
            (acquire lb last).1.1 = slot_at (n_ lb) last k.

(** The indices [0 .. k-1] all occur in [rs]. *)
Definition covers_prefix (k : Z) (rs : list Z) : Prop :=
  forall i, 0 <= i < k -> i ∈ rs.

(** Each counter is the number of times its slot is held, as a
    [uint64_t], and only slots of the pool are held. *)
Definition tracks (lb : t) (held : gmultiset Z) : Prop :=
  (forall i, i ∈ held -> 0 <= i < n_ lb) /\
  (forall i, 0 <= i < n_ lb ->
     load (uses_ lb) i = wrap64 (Z.of_nat (multiplicity i held))).

(** The balancer whose counters are [cs], every other cell at zero. *)
Definition of_counters (cs : list Z) : t :=
  Build (cs ≫= fun c => c :: replicate 7 0) (Z.of_nat (length cs)).

End LoadBalancer.


(** ** Registration of the embedded interpreter image *)

Module Embedded.

(** A [char*] is an address of 64 bits; [nullptr] is address 0. *)
Definition nullptr : Z := 0.

Definition pointer (p : Z) : Prop := 0 <= p < 2 ^ 64.

(** The difference of two [char*] is a [ptrdiff_t]: the difference of the
    two addresses as a signed integer of 64 bits. *)
Definition ptrdiff_t (z : Z) : Z := (z + 2 ^ 63) mod 2 ^ 64 - 2 ^ 63.

(** The two pointers are less than [2 ^ 63] bytes apart, as two pointers
    into one image are: their difference fits a [ptrdiff_t]. *)
Definition one_image (lib_start lib_end : Z) : Prop :=
  - 2 ^ 63 <= lib_end - lib_start < 2 ^ 63.

(** The file-scope pointers. *)
Record globals : Type := Globals {
  embedded_interpreter_so_start : Z;
  embedded_interpreter_so_end : Z;
  embedded_interpreter_cuda_so_start : Z;
  embedded_interpreter_cuda_so_end : Z
}.

(** All four pointers start as [nullptr]. *)
Definition initial : globals := Globals nullptr nullptr nullptr nullptr.

(** Modelled from the spec: [TORCH_CHECK] comes from c10/util/Exception.h,
    which is not among the sources verified here; a failed check raises a
    structured error that carries the message, and nothing after it
    runs. *)
Definition TORCH_CHECK {A : Type} (cond : bool) (msg : string)
    (rest : string + A) : string + A :=
  if cond then rest else inl msg.

Definition register_embedded_interpreter (lib_start lib_end : Z)
    (g : globals) : string + globals :=
  TORCH_CHECK (negb (lib_start =? nullptr)) "expected non-null lib_start"
  (TORCH_CHECK (negb (lib_end =? nullptr)) "expected non-null lib_end"
  (TORCH_CHECK (ptrdiff_t (lib_end - lib_start) >? 0)
     "expected embedded_interpreter_libsize > 0"
  (inr (Globals lib_start lib_end
          (embedded_interpreter_cuda_so_start g)
          (embedded_interpreter_cuda_so_end g))))).

(** The variant of the [FBCODE_CAFFE2] build. *)
Definition register_embedded_interpreter_cuda (lib_start lib_end : Z)
    (g : globals) : string + globals :=
  TORCH_CHECK (negb (lib_start =? nullptr)) "expected non-null lib_start"
  (TORCH_CHECK (negb (lib_end =? nullptr)) "expected non-null lib_end"
  (TORCH_CHECK (ptrdiff_t (lib_end - lib_start) >? 0)
     "expected embedded_interpreter_cuda_libsize > 0"
  (inr (Globals (embedded_interpreter_so_start g)
          (embedded_interpreter_so_end g)
          lib_start lib_end)))).

(** The byte range is empty or inverted: the end is not strictly after
    the start. *)
Definition empty_or_inverted (lib_start lib_end : Z) : Prop :=
  lib_end <= lib_start.

End Embedded.

(** ** The embedded runtime

    The interpreter implementation lives in the dynamically loaded library;
    this file only calls it through [InterpreterSessionImpl].

    Modelled from the spec: the interface is declared in
    interpreter_impl.h, which is not among the sources verified here.
    [pickle] serializes a value into an opaque payload and
    [unpickle_or_get] looks a materialized object up by id or deserializes
    the payload and records it under the id; both can fail.  [unload] drops
    the materialization of an id. *)

Class InterpreterSessionImpl (Obj PickledObject ImplState : Type) : Type := {
  pickle : ImplState -> option Obj -> Obj -> string + PickledObject;
  unpickle_or_get :
    ImplState -> Z -> PickledObject -> string + (Obj * ImplState);
  unload : ImplState -> Z -> ImplState
}.

(** ** The objects of deploy.h

    Pointers to managers, interpreters and replicated objects are addresses
    into the stores of [World] below. *)

Abbreviation mptr := positive (only parsing).
Abbreviation iptr := positive (only parsing).
Abbreviation optr := positive (only parsing).

Module Interpreter.
(** [pImpl_] is the state of the interpreter's copy of the runtime;
    [manager_] is null for an interpreter that no manager owns. *)
Record t {ImplState : Type} : Type := Build {
  pImpl_ : ImplState;
  manager_ : option mptr
}.
Arguments t : clear implicits.
End Interpreter.

Module InterpreterSession.
(** [impl_] is the session on the runtime of one interpreter, named by
    that interpreter; [self] is empty until [acquire_session] of a
    replicated object fills it. *)
Record t {Obj : Type} : Type := Build {
  impl_ : iptr;
  manager_ : option mptr;
  notify_idx_ : Z;
  self : option Obj
}.
Arguments t : clear implicits.
End InterpreterSession.

Module ReplicatedObjImpl.
Record t {PickledObject : Type} : Type := Build {
  object_id_ : Z;
  data_ : PickledObject;
  manager_ : option mptr
}.
Arguments t : clear implicits.
End ReplicatedObjImpl.

Module ReplicatedObj.
(** A handle: the [shared_ptr] to the [ReplicatedObjImpl]. *)
Record t : Type := Build { pImpl_ : optr }.
End ReplicatedObj.

Module InterpreterManager.
(** Modelled from the spec: the members are declared in deploy.h, which is
    not among the sources verified here.  [next_object_id_] is the
    manager's monotonically increasing counter of object ids, an integer;
    the spec requires [next_object_id_++] to be atomic, and the thread model
    below has both cases.  [instances_] is the fixed pool and [resources_]
    the balancer sized to it. *)
Record t : Type := Build {
  next_object_id_ : Z;
  instances_ : list iptr;
  resources_ : LoadBalancer.t
}.
End InterpreterManager.

(** What a run does that the stores do not record. *)
Inductive Event : Type :=
| SessionAcquired (i : iptr)
| Unloaded (i : iptr) (id : Z)
| SlotAcquired (p : mptr) (where_ : Z)
| SlotFreed (p : mptr) (where_ : Z)
| IdAllocated (p : mptr) (id : Z).

(** The result of a call: it returns, it throws the structured error with
    its message, or it dereferences a pointer that points nowhere.

    Modelled from the spec: the macros [TORCH_DEPLOY_TRY] and
    [TORCH_DEPLOY_SAFE_CATCH_RETHROW] that wrap each body are defined in
    deploy.h; what the body throws leaves the function as the structured
    error with the same message, which is [Throws] here. *)
Inductive outcome (W A : Type) : Type :=
| Returns (a : A) (w : W)
| Throws (msg : string) (w : W)
| Undefined.
Arguments Returns {W A} a w.
Arguments Throws {W A} msg w.
Arguments Undefined {W A}.

Section Deploy.
Context {Obj PickledObject ImplState : Type}.
Context {RT : InterpreterSessionImpl Obj PickledObject ImplState}.

(** The process: the managers, the interpreters, the replicated objects
    with their use counts, the thread-local [last] of
    [LoadBalancer::acquire], and the events so far, oldest first. *)
Record World : Type := MkWorld {
  managers : gmap positive InterpreterManager.t;
  interpreters : gmap positive (Interpreter.t ImplState);
  objects : gmap positive (ReplicatedObjImpl.t PickledObject * nat);
  last : Z;
  events : list Event
}.

Definition M (A : Type) : Type := World -> outcome World A.

Definition ret {A} (a : A) : M A := fun w => Returns a w.

Definition bind {A B} (c : M A) (k : A -> M B) : M B :=
  fun w =>
    match c w with
    | Returns a w' => k a w'
    | Throws msg w' => Throws msg w'
    | Undefined => Undefined
    end.

Definition throw {A} (msg : string) : M A := fun w => Throws msg w.

Definition undefined {A} : M A := fun _ => Undefined.

Local Notation "x <- c ;; k" := (bind c (fun x => k))
  (at level 100, c at next level, right associativity).
Local Notation "c ;;; k" := (bind c (fun _ => k))
  (at level 100, right associativity).

(** Runs [handler] when [c] throws, then throws again: the unwinding of a
    scope that holds an object with a destructor. *)
Definition on_throw {A} (c : M A) (handler : M unit) : M A :=
  fun w =>
    match c w with
    | Returns a w' => Returns a w'
    | Throws msg w' =>
        match handler w' with
        | Returns _ w'' => Throws msg w''
        | Throws msg' w'' => Throws msg' w''
        | Undefined => Undefined
        end
    | Undefined => Undefined
    end.

Definition log (e : Event) : M unit :=
  fun w => Returns tt (MkWorld (managers w) (interpreters w) (objects w)
                         (last w) (events w ++ [e])).

(** Dereferencing. *)
Definition manager_at (p : mptr) : M InterpreterManager.t :=
  fun w => match managers w !! p with
           | Some m => Returns m w
           | None => Undefined
           end.

Definition interpreter_at (i : iptr) : M (Interpreter.t ImplState) :=
  fun w => match interpreters w !! i with
           | Some it => Returns it w
           | None => Undefined
           end.

Definition object_at (o : optr) : M (ReplicatedObjImpl.t PickledObject) :=
  fun w => match objects w !! o with
           | Some (impl, _) => Returns impl w
           | None => Undefined
           end.

Definition store_manager (p : mptr) (m : InterpreterManager.t) : M unit :=
  fun w => Returns tt (MkWorld (<[p := m]> (managers w)) (interpreters w)
                         (objects w) (last w) (events w)).

Definition store_interpreter (i : iptr) (it : Interpreter.t ImplState) : M unit :=
  fun w => Returns tt (MkWorld (managers w) (<[i := it]> (interpreters w))
                         (objects w) (last w) (events w)).

Definition store_last (l : Z) : M unit :=
  fun w => Returns tt (MkWorld (managers w) (interpreters w) (objects w)
                         l (events w)).

Definition get_last : M Z := fun w => Returns (last w) w.

(** *** Members defined in deploy.h *)

(** Modelled from the spec: [Interpreter::acquire_session] is defined in
    deploy.h.  The session is bound to this interpreter, carries the
    interpreter's back-reference to its manager, and has no slot to
    release: [notify_idx_] is negative. *)
Definition Interpreter_acquire_session (i : iptr) : M (InterpreterSession.t Obj) :=
  it <- interpreter_at i ;;
  log (SessionAcquired i) ;;;
  ret (InterpreterSession.Build Obj i (Interpreter.manager_ it) (-1) None).

(** Modelled from the spec: [InterpreterManager::acquire_one] is defined
    in deploy.h.  It asks the balancer for a slot and returns a session
    bound to the interpreter of that slot, tagged with the slot. *)
Definition InterpreterManager_acquire_one (p : mptr) : M (InterpreterSession.t Obj) :=
  m <- manager_at p ;;
  l <- get_last ;;
  let '(where_, lb, l') := LoadBalancer.acquire (InterpreterManager.resources_ m) l in
  store_manager p (InterpreterManager.Build (InterpreterManager.next_object_id_ m)
                     (InterpreterManager.instances_ m) lb) ;;;
  store_last l' ;;;
  log (SlotAcquired p where_) ;;;
  match InterpreterManager.instances_ m !! Z.to_nat where_ with
  | None => undefined
  | Some i =>
      sess <- Interpreter_acquire_session i ;;
      ret (InterpreterSession.Build Obj (InterpreterSession.impl_ sess)
             (InterpreterSession.manager_ sess) where_ (InterpreterSession.self sess))
  end.

(** Modelled from the spec: [InterpreterManager::all_instances] is defined
    in deploy.h; it is the pool. *)
Definition InterpreterManager_all_instances (p : mptr) : M (list iptr) :=
  m <- manager_at p ;;
  ret (InterpreterManager.instances_ m).

(** [manager_->resources_.free(where)]. *)
Definition resources_free (p : mptr) (where_ : Z) : M unit :=
  m <- manager_at p ;;
  store_manager p (InterpreterManager.Build (InterpreterManager.next_object_id_ m)
                     (InterpreterManager.instances_ m)
                     (LoadBalancer.free (InterpreterManager.resources_ m) where_)) ;;;
  log (SlotFreed p where_).

(** [manager_->next_object_id_++]. *)
Definition next_object_id_incr (p : mptr) : M Z :=
  m <- manager_at p ;;
  store_manager p (InterpreterManager.Build (InterpreterManager.next_object_id_ m + 1)
                     (InterpreterManager.instances_ m)
                     (InterpreterManager.resources_ m)) ;;;
  log (IdAllocated p (InterpreterManager.next_object_id_ m)) ;;;
  ret (InterpreterManager.next_object_id_ m).

(** [std::make_shared<ReplicatedObjImpl>(...)]: a new object with one
    owner. *)
Definition make_shared (impl : ReplicatedObjImpl.t PickledObject) : M ReplicatedObj.t :=
  fun w =>
    let o := fresh (dom (objects w)) in
    Returns (ReplicatedObj.Build o)
      (MkWorld (managers w) (interpreters w) (<[o := (impl, 1%nat)]> (objects w))
         (last w) (events w)).

(** The calls on the runtime of interpreter [i]. *)
Definition impl_pickle (i : iptr) (self : option Obj) (obj : Obj) : M PickledObject :=
  it <- interpreter_at i ;;
  match pickle (Interpreter.pImpl_ it) self obj with
  | inl msg => throw msg
  | inr pickled => ret pickled
  end.

Definition impl_unpickle_or_get (i : iptr) (id : Z) (data : PickledObject) : M Obj :=
  it <- interpreter_at i ;;
  match unpickle_or_get (Interpreter.pImpl_ it) id data with
  | inl msg => throw msg
  | inr (v, st) =>
      store_interpreter i (Interpreter.Build ImplState st (Interpreter.manager_ it)) ;;;
      ret v
  end.

Definition impl_unload (i : iptr) (id : Z) : M unit :=
  it <- interpreter_at i ;;
  store_interpreter i (Interpreter.Build ImplState (unload (Interpreter.pImpl_ it) id)
                         (Interpreter.manager_ it)) ;;;
  log (Unloaded i id).

(** *** deploy.cpp *)

Definition InterpreterSession_from_movable (sess : InterpreterSession.t Obj)
    (obj : ReplicatedObj.t) : M Obj :=
  impl <- object_at (ReplicatedObj.pImpl_ obj) ;;
  impl_unpickle_or_get (InterpreterSession.impl_ sess)
    (ReplicatedObjImpl.object_id_ impl) (ReplicatedObjImpl.data_ impl).

Definition InterpreterSession_dtor (sess : InterpreterSession.t Obj) : M unit :=
  match InterpreterSession.manager_ sess with
  | Some p =>
      if InterpreterSession.notify_idx_ sess >=? 0
      then resources_free p (InterpreterSession.notify_idx_ sess)
      else ret tt
  | None => ret tt
  end.

Definition ReplicatedObj_acquire_session (this : ReplicatedObj.t)
    (on_this_interpreter : option iptr) : M (InterpreterSession.t Obj) :=
  sess <- match on_this_interpreter with
          | Some i => Interpreter_acquire_session i
          | None =>
              impl <- object_at (ReplicatedObj.pImpl_ this) ;;
              match ReplicatedObjImpl.manager_ impl with
              | Some p => InterpreterManager_acquire_one p
              | None => undefined
              end
          end ;;
  on_throw
    (v <- InterpreterSession_from_movable sess this ;;
     ret (InterpreterSession.Build Obj (InterpreterSession.impl_ sess)
            (InterpreterSession.manager_ sess) (InterpreterSession.notify_idx_ sess)
            (Some v)))
    (InterpreterSession_dtor sess).

(** The body of [unload] for a given interpreter: the session lives
    for the duration of the call on the runtime. *)
Definition ReplicatedObjImpl_unload_on (this : ReplicatedObjImpl.t PickledObject)
    (i : iptr) : M unit :=
  sess <- Interpreter_acquire_session i ;;
  on_throw (impl_unload (InterpreterSession.impl_ sess) (ReplicatedObjImpl.object_id_ this))
    (InterpreterSession_dtor sess) ;;;
  InterpreterSession_dtor sess.

Fixpoint for_each {A} (f : A -> M unit) (l : list A) : M unit :=
  match l with
  | [] => ret tt
  | x :: l' => f x ;;; for_each f l'
  end.

Definition ReplicatedObjImpl_unload (this : ReplicatedObjImpl.t PickledObject)
    (on_this_interpreter : option iptr) : M unit :=
  match on_this_interpreter with
  | None =>
      match ReplicatedObjImpl.manager_ this with
      | Some p =>
          all <- InterpreterManager_all_instances p ;;
          for_each (ReplicatedObjImpl_unload_on this) all
      | None => undefined
      end
  | Some i => ReplicatedObjImpl_unload_on this i
  end.

Definition ReplicatedObjImpl_dtor (this : ReplicatedObjImpl.t PickledObject) : M unit :=
  ReplicatedObjImpl_unload this None.

Definition ReplicatedObj_unload (this : ReplicatedObj.t)
    (on_this_interpreter : option iptr) : M unit :=
  impl <- object_at (ReplicatedObj.pImpl_ this) ;;
  ReplicatedObjImpl_unload impl on_this_interpreter.

Definition create_movable_error : string :=
  "Can only create a movable object when the session was created from an interpreter that is part of a InterpreterManager".

Definition InterpreterSession_create_movable (sess : InterpreterSession.t Obj)
    (obj : Obj) : M ReplicatedObj.t :=
  match InterpreterSession.manager_ sess with
  | None => throw create_movable_error
  | Some p =>
      pickled <- impl_pickle (InterpreterSession.impl_ sess) (InterpreterSession.self sess) obj ;;
      id <- next_object_id_incr p ;;
      make_shared (ReplicatedObjImpl.Build PickledObject id pickled (Some p))
  end.

(** Modelled from the spec: [ReplicatedObj] is declared in deploy.h; it is
    a reference-counted handle to one [ReplicatedObjImpl].  Copying a
    handle adds an owner; destroying one removes an owner, and the last
    owner destroys the [ReplicatedObjImpl]. *)
Definition ReplicatedObj_copy (this : ReplicatedObj.t) : M ReplicatedObj.t :=
  fun w =>
    match objects w !! ReplicatedObj.pImpl_ this with
    | Some (impl, owners) =>
        Returns this
          (MkWorld (managers w) (interpreters w)
             (<[ReplicatedObj.pImpl_ this := (impl, S owners)]> (objects w))
             (last w) (events w))
    | None => Undefined
    end.

Definition release (o : optr) : M unit :=
  fun w => Returns tt (MkWorld (managers w) (interpreters w)
                         (delete o (objects w)) (last w) (events w)).

Definition ReplicatedObj_dtor (this : ReplicatedObj.t) : M unit :=
  fun w =>
    match objects w !! ReplicatedObj.pImpl_ this with
    | Some (impl, S (S owners)) =>
        Returns tt
          (MkWorld (managers w) (interpreters w)
             (<[ReplicatedObj.pImpl_ this := (impl, S owners)]> (objects w))
             (last w) (events w))
    | Some (impl, _) =>
        (ReplicatedObjImpl_dtor impl ;;; release (ReplicatedObj.pImpl_ this)) w
    | None => Undefined
    end.

(** *** Threads inside [create_movable]

    A thread in [create_movable] is before the check and the call of
    [pickle], before [next_object_id_++], before [make_shared], or out of
    the function.  Whether [next_object_id_++] is one atomic step depends
    on the declaration of the counter in deploy.h: the parameter [atomic]
    of a run says so.  When it is not, the thread reads the counter in one
    step and writes it back, one higher, in the next, and is
    [AtNextIdWrite] in between. *)
Inductive creation : Type :=
| AtPickle (sess : InterpreterSession.t Obj) (obj : Obj)
| AtNextId (p : mptr) (pickled : PickledObject)
| AtNextIdWrite (p : mptr) (pickled : PickledObject) (id : Z)
| AtMakeShared (p : mptr) (pickled : PickledObject) (id : Z)
| Done (r : ReplicatedObj.t)
| Raised (msg : string)
| Stuck.

Definition advance {A} (c : M A) (k : A -> creation) (w : World) : creation * World :=
  match c w with
  | Returns a w' => (k a, w')
  | Throws msg w' => (Raised msg, w')
  | Undefined => (Stuck, w)
  end.

(** The two halves of a [next_object_id_++] that is not atomic. *)
Definition next_object_id_read (p : mptr) : M Z :=
  m <- manager_at p ;;
  ret (InterpreterManager.next_object_id_ m).

Definition next_object_id_write (p : mptr) (id : Z) : M unit :=
  m <- manager_at p ;;
  store_manager p (InterpreterManager.Build (id + 1)
                     (InterpreterManager.instances_ m)
                     (InterpreterManager.resources_ m)) ;;;
  log (IdAllocated p id).

(** One step of one thread. *)
Definition creation_step (atomic : bool) (c : creation) (w : World)
    : creation * World :=
  match c with
  | AtPickle sess obj =>
      match InterpreterSession.manager_ sess with
      | None => (Raised create_movable_error, w)
      | Some p =>
          advance (impl_pickle (InterpreterSession.impl_ sess)
                     (InterpreterSession.self sess) obj)
                  (AtNextId p) w
      end
  | AtNextId p pickled =>
      if atomic
      then advance (next_object_id_incr p) (AtMakeShared p pickled) w
      else advance (next_object_id_read p) (AtNextIdWrite p pickled) w
  | AtNextIdWrite p pickled id =>
      advance (next_object_id_write p id) (fun _ => AtMakeShared p pickled id) w
  | AtMakeShared p pickled id =>
      advance (make_shared (ReplicatedObjImpl.Build PickledObject id pickled (Some p)))
              Done w
  | Done _ | Raised _ | Stuck => (c, w)
  end.

(** The threads run one step at a time in the order [sched] names them. *)
Fixpoint interleave (atomic : bool) (sched : list nat) (ts : list creation)
    (w : World) : list creation * World :=
  match sched with
  | [] => (ts, w)
  | t :: sched' =>
      match ts !! t with
      | Some c =>
          let '(c', w') := creation_step atomic c w in
          interleave atomic sched' (<[t := c']> ts) w'
      | None => interleave atomic sched' ts w
      end
  end.

Definition calling (c : creation) : Prop :=
  match c with
  | AtPickle _ _ => True
  | _ => False
  end.

(** What a thread that has left [create_movable] hands to its caller. *)
Definition handed (c : creation) (w : World) : option (outcome World ReplicatedObj.t) :=
  match c with
  | Done r => Some (Returns r w)
  | Raised msg => Some (Throws msg w)
  | Stuck => Some Undefined
  | _ => None
  end.

(** The ids that [next_object_id_++] handed out on manager [p], oldest
    first. *)
Definition ids_allocated (p : mptr) (evs : list Event) : list Z :=
  omap (fun e => match e with
                 | IdAllocated q id => if decide (q = p) then Some id else None
                 | _ => None
                 end) evs.

(** The id a thread holds between [next_object_id_++] and
    [make_shared]. *)
Definition pending_id (c : creation) : option (mptr * Z) :=
  match c with
  | AtMakeShared p _ id => Some (p, id)
  | _ => None
  end.

(** No two replicated objects of one manager share an id. *)
Definition ids_unique (w : World) : Prop :=
  forall o1 o2 impl1 owners1 impl2 owners2 p,
    objects w !! o1 = Some (impl1, owners1) ->
    objects w !! o2 = Some (impl2, owners2) ->
    ReplicatedObjImpl.manager_ impl1 = Some p ->
    ReplicatedObjImpl.manager_ impl2 = Some p ->
    ReplicatedObjImpl.object_id_ impl1 = ReplicatedObjImpl.object_id_ impl2 ->
    o1 = o2.

(** Every replicated object of the store carries an id that its manager
    has already handed out. *)
Definition ids_below (w : World) : Prop :=
  forall o impl owners p m,
    objects w !! o = Some (impl, owners) ->
    ReplicatedObjImpl.manager_ impl = Some p ->
    managers w !! p = Some m ->
    ReplicatedObjImpl.object_id_ impl < InterpreterManager.next_object_id_ m.

(** The threads between [next_object_id_++] and [make_shared] hold ids
    that their manager has handed out, that differ from one thread to
    the other, and that no replicated object of the store carries; the
    object a thread has returned is in the store; and no thread is half way
    through [next_object_id_++]. *)
Definition threads_ok (ts : list creation) (w : World) : Prop :=
  (forall t c p id m,
     ts !! t = Some c -> pending_id c = Some (p, id) ->
     managers w !! p = Some m ->
     id < InterpreterManager.next_object_id_ m) /\
  (forall t1 t2 c1 c2 x,
     ts !! t1 = Some c1 -> ts !! t2 = Some c2 ->
     pending_id c1 = Some x -> pending_id c2 = Some x -> t1 = t2) /\
  (forall t c p id o impl owners,
     ts !! t = Some c -> pending_id c = Some (p, id) ->
     objects w !! o = Some (impl, owners) ->
     ReplicatedObjImpl.manager_ impl = Some p ->
     ReplicatedObjImpl.object_id_ impl <> id) /\
  (forall t r,
     ts !! t = Some (Done r) -> is_Some (objects w !! ReplicatedObj.pImpl_ r)) /\
  (forall t p pickled id, ts !! t <> Some (AtNextIdWrite p pickled id)).

(** The invariant of a run of threads. *)
Definition run_ok (ts : list creation) (w : World) : Prop :=
  ids_unique w /\ ids_below w /\ threads_ok ts w.

(** Manager [p] had handed out the ids [evs0] when its counter was at
    [n0]; since then it has handed out the ids from [n0] up to its
    counter, in this order. *)
Definition allocated_since (p : mptr) (n0 : Z) (evs0 : list Z) (w : World) : Prop :=
  exists m,
    managers w !! p = Some m /\
    n0 <= InterpreterManager.next_object_id_ m /\
    ids_allocated p (events w) =
      evs0 ++ seqZ n0 (InterpreterManager.next_object_id_ m - n0).

(** *** Well-formed pools *)

(** Manager [m] at [p] owns a non-empty pool: the balancer has one slot
    per interpreter, and every interpreter of the pool exists and refers
    back to [p]. *)
Definition pool_ok (w : World) (p : mptr) (m : InterpreterManager.t) : Prop :=
  managers w !! p = Some m /\
  LoadBalancer.wf (InterpreterManager.resources_ m) /\
  LoadBalancer.n_ (InterpreterManager.resources_ m) =
    Z.of_nat (length (InterpreterManager.instances_ m)) /\
  forall i, i ∈ InterpreterManager.instances_ m ->
    exists it, interpreters w !! i = Some it /\ Interpreter.manager_ it = Some p.

(** The world after [unload] of object [id] on interpreter [i], whose
    state was [it]. *)
Definition unloaded (id : Z) (i : iptr) (it : Interpreter.t ImplState)
    (w : World) : World :=
  MkWorld (managers w)
    (<[i := Interpreter.Build ImplState (unload (Interpreter.pImpl_ it) id)
              (Interpreter.manager_ it)]> (interpreters w))
    (objects w) (last w)
    (events w ++ [SessionAcquired i; Unloaded i id]).

(** The events of a sweep over the interpreters [l]. *)
Definition sweep_events (id : Z) (l : list iptr) : list Event :=
  l ≫= (fun i => [SessionAcquired i; Unloaded i id]).

(** The runtimes after a sweep over the interpreters [l]. *)
Definition sweep_interpreters (id : Z) (l : list iptr)
    (its : gmap positive (Interpreter.t ImplState))
    : gmap positive (Interpreter.t ImplState) :=
  foldl (fun its i =>
           alter (fun it => Interpreter.Build ImplState
                              (unload (Interpreter.pImpl_ it) id)
                              (Interpreter.manager_ it)) i its)
        its l.

(** A balancer slot is acquired or freed. *)
Definition touches_balancer (e : Event) : Prop :=
  match e with
  | SlotAcquired _ _ | SlotFreed _ _ => True
  | _ => False
  end.

End Deploy.

Arguments World : clear implicits.
Arguments creation : clear implicits.

(** ** A runtime for examples

    Modelled from the spec: each interpreter keeps its materialized objects
    in an arena keyed by object id; the payload of a value is the value, and
    a negative value does not serialize. *)

Module Arena.

Definition runtime : InterpreterSessionImpl Z Z (gmap Z Z) := {|
  pickle := fun _ _ v => if v <? 0 then inl "cannot pickle" else inr v;
  unpickle_or_get := fun st id data =>
    match st !! id with
    | Some v => inr (v, st)
    | None => inr (data, <[id := data]> st)
    end;
  unload := fun st id => delete id st
|}.

(** A manager at address 1 with a pool of two interpreters, at addresses
    1 and 2, and nothing else. *)
Definition manager : InterpreterManager.t :=
  InterpreterManager.Build 0 [1%positive; 2%positive] (LoadBalancer.fresh 2).

Definition world : World Z (gmap Z Z) :=
  MkWorld {[ 1%positive := manager ]}
    {[ 1%positive := Interpreter.Build (gmap Z Z) ∅ (Some 1%positive);
       2%positive := Interpreter.Build (gmap Z Z) ∅ (Some 1%positive) ]}
    ∅ 0 [].

(** A replicated object of that manager, with id 0 and payload 42. *)
Definition object : ReplicatedObjImpl.t Z :=
  ReplicatedObjImpl.Build Z 0 42 (Some 1%positive).

(** The same world once the object exists, at address 1, with one
    handle. *)
Definition world_with_object : World Z (gmap Z Z) :=
  MkWorld {[ 1%positive :=
               InterpreterManager.Build 1 [1%positive; 2%positive]
                 (LoadBalancer.fresh 2) ]}
    (interpreters world) {[ 1%positive := (object, 1%nat) ]} 0 [].

(** A session on interpreter 1, taken from the interpreter. *)
Definition session : InterpreterSession.t Z :=
  InterpreterSession.Build Z 1%positive (Some 1%positive) (-1) None.

(** A session on an interpreter that no manager owns. *)
Definition lone_session : InterpreterSession.t Z :=
  InterpreterSession.Build Z 3%positive None (-1) None.

End Arena.


(** ** The load of a pool *)

Module Balance.
Import LoadBalancer.

(** The sum of the usage counters of the pool. *)
Definition users (lb : t) : Z :=
  foldr Z.add 0 (load (uses_ lb) <$> seqZ 0 (n_ lb)).

(** No slot has two users more than another. *)
Definition balanced (lb : t) : Prop :=
  forall s s', 0 <= s < n_ lb -> 0 <= s' < n_ lb ->
    load (uses_ lb) s <= load (uses_ lb) s' + 1.

End Balance.

(** ** Threads that race for slots

    [acquire] one atomic operation at a time, so that the calls of several
    threads can be interleaved.  Each thread has its own [last]. *)

Module Racing.
Import LoadBalancer.

(** A thread in [acquire] is before the compare-and-swap of an iteration,
    with [fuel] iterations to go; before the [__atomic_fetch_add], when no
    iteration is left; or back from the call with a slot, from the fast or
    from the slow path. *)
Inductive thread : Type :=
| Scanning (fuel : nat) (last minusers min_idx : Z)
| Returned (slot last : Z) (fast : bool).

(** The thread as it enters [acquire] on a balancer of [n] slots. *)
Definition enter (n last : Z) : thread := Scanning (Z.to_nat n) last SIZE_MAX 0.

(** One atomic operation of a thread, and what comes with it up to the
    next. *)
Definition thread_step (n : Z) (th : thread) (mem : list Z) : thread * list Z :=
  match th with
  | Scanning O last minusers min_idx =>
      let '(_, mem') := atomic_fetch_add mem (cell min_idx) 1 in
      (Returned min_idx last false, mem')
  | Scanning (S fuel') last minusers min_idx =>
      let last := if to_size_t last >=? n then 0 else last in
      let '(acquired, prev, mem') :=
        atomic_compare_exchange_n mem (cell last) 0 1 in
      if acquired then (Returned last last true, mem')
      else
        let '(minusers, min_idx) :=
          if prev <? minusers then (prev, last) else (minusers, min_idx) in
        (Scanning fuel' (last + 1) minusers min_idx, mem')
  | Returned _ _ _ => (th, mem)
  end.

(** [k] operations of one thread, with no other thread between them. *)
Fixpoint alone (n : Z) (k : nat) (th : thread) (mem : list Z) : thread * list Z :=
  match k with
  | O => (th, mem)
  | S k' => let '(th', mem') := thread_step n th mem in alone n k' th' mem'
  end.

(** The threads do one operation at a time, in the order [sched] names
    them. *)
Fixpoint race (n : Z) (sched : list nat) (ths : list thread) (mem : list Z)
    : list thread * list Z :=
  match sched with
  | [] => (ths, mem)
  | t :: sched' =>
      match ths !! t with
      | Some th =>
          let '(th', mem') := thread_step n th mem in
          race n sched' (<[t := th']> ths) mem'
      | None => race n sched' ths mem
      end
  end.

(** Whether a thread holds slot [s], and whether it got it on the fast
    path. *)
Definition holds (s : Z) (th : thread) : Z :=
  match th with
  | Returned slot _ _ => if decide (slot = s) then 1 else 0
  | Scanning _ _ _ _ => 0
  end.

Definition wins (s : Z) (th : thread) : Z :=
  match th with
  | Returned slot _ true => if decide (slot = s) then 1 else 0
  | _ => 0
  end.

(** The number of threads that hold slot [s], and of those that got it on
    the fast path. *)
Definition holders (s : Z) (ths : list thread) : Z :=
  foldr Z.add 0 (holds s <$> ths).

Definition winners (s : Z) (ths : list thread) : Z :=
  foldr Z.add 0 (wins s <$> ths).

(** A thread that has not started its scan yet. *)
Definition entering (n : Z) (th : thread) : Prop :=
  exists last, tl_ok last /\ th = enter n last.

(** The variables of a thread are in their ranges. *)
Definition thread_ok (n : Z) (th : thread) : Prop :=
  match th with
  | Scanning _ last _ min_idx => tl_ok last /\ 0 <= min_idx < n
  | Returned slot _ _ => 0 <= slot < n
  end.

End Racing.

(** ** Which image an interpreter is built from *)

Module Registry.
Import Embedded.

(** A call of one of the two registration entry points. *)
Inductive registration : Type :=
| Plain (lib_start lib_end : Z)
| Cuda (lib_start lib_end : Z).

Definition register (r : registration) (g : globals) : string + globals :=
  match r with
  | Plain lib_start lib_end => register_embedded_interpreter lib_start lib_end g
  | Cuda lib_start lib_end => register_embedded_interpreter_cuda lib_start lib_end g
  end.

(** The file-scope pointers after the calls [rs], oldest first, made by a
    caller that goes on after an error: the checks of a call come before
    its two assignments, so a call that throws leaves the pointers as they
    were. *)
Definition registered (rs : list registration) (g : globals) : globals :=
  foldl (fun g r => match register r g with
                    | inr g' => g'
                    | inl _ => g
                    end) g rs.

(** The three checks of a registration call, on its arguments. *)
Definition accepted (lib_start lib_end : Z) : bool :=
  negb (lib_start =? nullptr) && negb (lib_end =? nullptr) &&
  (ptrdiff_t (lib_end - lib_start) >? 0).

(** The ranges of the calls of each entry point that passed the checks,
    oldest first. *)
Definition accepted_plain (rs : list registration) : list (Z * Z) :=
  omap (fun r => match r with
                 | Plain s e => if accepted s e then Some (s, e) else None
                 | Cuda _ _ => None
                 end) rs.

Definition accepted_cuda (rs : list registration) : list (Z * Z) :=
  omap (fun r => match r with
                 | Cuda s e => if accepted s e then Some (s, e) else None
                 | Plain _ _ => None
                 end) rs.

(** Each pair of pointers is null, or the two ends of a range that is not
    empty. *)
Definition range_or_null (lib_start lib_end : Z) : Prop :=
  (lib_start = nullptr /\ lib_end = nullptr) \/
  (lib_start <> nullptr /\ lib_end <> nullptr /\ lib_start < lib_end).

(** Each pair of pointers is null, or a pair that the checks of a
    registration call let through. *)
Definition checked_or_null (lib_start lib_end : Z) : Prop :=
  (lib_start = nullptr /\ lib_end = nullptr) \/
  (lib_start <> nullptr /\ lib_end <> nullptr /\
   0 < ptrdiff_t (lib_end - lib_start)).

(** The two pointers of a call are addresses less than [2 ^ 63] bytes
    apart. *)
Definition within_image (r : registration) : Prop :=
  match r with
  | Plain s e | Cuda s e => pointer s /\ pointer e /\ one_image s e
  end.

End Registry.

(** ** Loading and unloading the library of an interpreter

    The constructor and the destructor of [Interpreter] talk to the C
    library and to the dynamic loader.  What these answer is a parameter of
    the model; what the two functions ask of them is recorded, in order. *)

Module Loader.
Import Embedded.

(** The build configuration: [FBCODE_CAFFE2] is defined, or it is not. *)
Inductive build : Type := FBCODE_CAFFE2 | OSS.

Inductive rtld_flag : Type := RTLD_LOCAL | RTLD_LAZY | RTLD_DEEPBIND.

(** The environment of a constructor or destructor call: the symbol pair
    that the linker generates in the [OSS] build, and the answers of
    [mkstemp], [fdopen], [fwrite] (to a request for [count] items of size
    1), [dlopen], [dlerror], [dlsym] and [torch::cuda::is_available]. *)
Record system : Type := System {
  _binary_libtorch_deployinterpreter_so_start : Z;
  _binary_libtorch_deployinterpreter_so_end : Z;
  mkstemp : Z;
  fdopen : Z;
  fwrite : Z -> Z;
  dlopen : Z;
  dlerror : string;
  dlsym : string -> Z;
  is_available : bool
}.

(** The calls that leave the process, and the calls through the pointers
    that [dlsym] returned. *)
Inductive effect : Type :=
| Mkstemp
| Fdopen (fd : Z)
| Fwrite (dst lib_start size : Z)
| Fclose (dst : Z)
| Dlopen (flags : list rtld_flag)
| Dlerror
| Unlink
| Dlsym (handle : Z) (symbol : string)
| Call (symbol : string)
| Reset_pImpl
| Dlclose (handle : Z).

(** What a call throws.

    Modelled from the spec: [TORCH_CHECK], [TORCH_INTERNAL_ASSERT] and
    [AT_ASSERT] come from c10/util/Exception.h, which is not among the
    sources verified here; a failed check or assertion throws, and nothing
    after it runs.  [AT_ASSERT] is [TORCH_INTERNAL_ASSERT]. *)
Inductive exception : Type :=
| CheckFailed (msg : string)
| InternalAssertFailed (cond : string)
| runtime_error (what : string).

(** A computation: the effects so far, and an exception or a result. *)
Definition Sys (A : Type) : Type := list effect * (exception + A).

Definition ret {A} (a : A) : Sys A := ([], inr a).

Definition bind {A B} (c : Sys A) (k : A -> Sys B) : Sys B :=
  match c with
  | (tr, inl e) => (tr, inl e)
  | (tr, inr a) => let '(tr', r) := k a in (tr ++ tr', r)
  end.

Definition emit (e : effect) : Sys unit := ([e], inr tt).

Definition raise {A} (e : exception) : Sys A := ([], inl e).

Local Notation "x <- c ;; k" := (bind c (fun x => k))
  (at level 100, c at next level, right associativity).
Local Notation "c ;;; k" := (bind c (fun _ => k))
  (at level 100, right associativity).

Definition TORCH_CHECK (cond : bool) (msg : string) : Sys unit :=
  if cond then ret tt else raise (CheckFailed msg).

Definition TORCH_INTERNAL_ASSERT (cond : bool) (text : string) : Sys unit :=
  if cond then ret tt else raise (InternalAssertFailed text).

Definition AT_ASSERT (cond : bool) (text : string) : Sys unit :=
  TORCH_INTERNAL_ASSERT cond text.

(** [size] is a [size_t]: the difference of the two pointers, converted. *)
Definition write_tmp_lib (sys : system) (dst lib_start lib_end : Z) : Sys unit :=
  TORCH_INTERNAL_ASSERT (negb (dst =? nullptr)) "dst" ;;;
  let size := wrap64 (lib_end - lib_start) in
  emit (Fwrite dst lib_start size) ;;;
  let written := fwrite sys size in
  TORCH_INTERNAL_ASSERT (size =? written) "size == written".

(** The image the constructor settles on: [lib_start] and [lib_end] before
    the check. *)
Definition embedded_image (b : build) (g : globals) (sys : system) : Z * Z :=
  match b with
  | FBCODE_CAFFE2 =>
      if negb (embedded_interpreter_cuda_so_start g =? nullptr) &&
         negb (embedded_interpreter_cuda_so_end g =? nullptr)
      then (embedded_interpreter_cuda_so_start g, embedded_interpreter_cuda_so_end g)
      else if negb (embedded_interpreter_so_start g =? nullptr) &&
              negb (embedded_interpreter_so_end g =? nullptr)
      then (embedded_interpreter_so_start g, embedded_interpreter_so_end g)
      else (nullptr, nullptr)
  | OSS =>
      (_binary_libtorch_deployinterpreter_so_start sys,
       _binary_libtorch_deployinterpreter_so_end sys)
  end.

Definition no_image_error (cuda_available : bool) : string :=
  "torch::deploy requires a build-time dependency on embedded_interpreter or embedded_interpreter_cuda, neither of which were found.  torch::cuda::is_available()=" ++
  (if cuda_available then "true" else "false").

Definition dlopen_flags (b : build) : list rtld_flag :=
  match b with
  | FBCODE_CAFFE2 => [RTLD_LOCAL; RTLD_LAZY]
  | OSS => [RTLD_LOCAL; RTLD_LAZY; RTLD_DEEPBIND]
  end.

(** [Interpreter::Interpreter]: the result is [handle_]. *)
Definition Interpreter_ctor (b : build) (g : globals) (sys : system) : Sys Z :=
  emit Mkstemp ;;;
  let fd := mkstemp sys in
  TORCH_INTERNAL_ASSERT (negb (fd =? -1)) "fd != -1" ;;;
  emit (Fdopen fd) ;;;
  let dst := fdopen sys in
  let cuda_available := is_available sys in
  let '(lib_start, lib_end) := embedded_image b g sys in
  TORCH_CHECK (negb (lib_start =? nullptr) && negb (lib_end =? nullptr))
    (no_image_error cuda_available) ;;;
  write_tmp_lib sys dst lib_start lib_end ;;;
  emit (Fclose dst) ;;;
  emit (Dlopen (dlopen_flags b)) ;;;
  let handle_ := dlopen sys in
  (if handle_ =? nullptr
   then emit Dlerror ;;; raise (runtime_error (dlerror sys))
   else ret tt) ;;;
  emit Unlink ;;;
  match b with
  | FBCODE_CAFFE2 => ret tt
  | OSS =>
      emit (Dlsym handle_ "deploy_set_self") ;;;
      AT_ASSERT (negb (dlsym sys "deploy_set_self" =? nullptr))
        "deploy_set_self_ptr" ;;;
      emit (Call "deploy_set_self")
  end ;;;
  emit (Dlsym handle_ "new_interpreter_impl") ;;;
  AT_ASSERT (negb (dlsym sys "new_interpreter_impl" =? nullptr))
    "new_interpreter_impl" ;;;
  emit (Call "new_interpreter_impl") ;;;
  ret handle_.

(** [Interpreter::~Interpreter], on an object whose [handle_] is given.
    The pointer that [dlsym] returns for [deploy_flush_python_libs] is
    called as it is; a call through a null pointer is undefined, which is
    [None] here. *)
Definition Interpreter_dtor (b : build) (sys : system) (handle_ : Z)
    : option (list effect) :=
  if handle_ =? nullptr then Some []
  else
    match b with
    | FBCODE_CAFFE2 => Some [Reset_pImpl; Dlclose handle_]
    | OSS =>
        if dlsym sys "deploy_flush_python_libs" =? nullptr then None
        else Some [Reset_pImpl; Dlsym handle_ "deploy_flush_python_libs";
                   Call "deploy_flush_python_libs"; Dlclose handle_]
    end.

(** The steps of the constructor up to the end of [write_tmp_lib], and up
    to a [dlopen] that returns a handle. *)
Definition written (b : build) (g : globals) (sys : system) : Prop :=
  let '(lib_start, lib_end) := embedded_image b g sys in
  mkstemp sys <> -1 /\
  lib_start <> nullptr /\ lib_end <> nullptr /\
  fdopen sys <> nullptr /\
  fwrite sys (wrap64 (lib_end - lib_start)) = wrap64 (lib_end - lib_start).

Definition loaded (b : build) (g : globals) (sys : system) : Prop :=
  written b g sys /\ dlopen sys <> nullptr.

(** Every entry point the constructor needs is in the library. *)
Definition resolved (b : build) (sys : system) : Prop :=
  (b = OSS -> dlsym sys "deploy_set_self" <> nullptr) /\
  dlsym sys "new_interpreter_impl" <> nullptr.

(** The effects on the library itself: loading it, calling into it, and
    unloading it. *)
Definition on_library (e : effect) : bool :=
  match e with
  | Dlopen _ | Call _ | Reset_pImpl | Dlclose _ => true
  | _ => false
  end.

End Loader.

(** ** Calls into Python

    Modelled from the spec: the session of deploy.h looks a value up by
    module and name with [global], calls a value on arguments, and
    converts a value with [toIValue]; the three go to the embedded runtime
    through interpreter_impl.h, which is not among the sources verified
    here.  Each can fail, and the first two can change the state of the
    runtime. *)

(** The values that [toIValue] produces, as far as [setArgumentNames]
    tells them apart. *)
#[warnings="-register-all"] Inductive IValue : Type :=
| IList (elems : list IValue)
| IString (s : string)
| IOther.

Class PythonCalls (Obj ImplState : Type) : Type := {
  global : ImplState -> string -> string -> string + (Obj * ImplState);
  call : ImplState -> Obj -> list Obj -> string + (Obj * ImplState);
  toIValue : ImplState -> Obj -> string + IValue
}.

Section PythonMethodWrapper.
Context {Obj PickledObject ImplState : Type}.
Context {RT : InterpreterSessionImpl Obj PickledObject ImplState}.
Context {PY : PythonCalls Obj ImplState}.

Local Abbreviation World := (World PickledObject ImplState).
Local Abbreviation M := (@M PickledObject ImplState).

Local Notation "x <- c ;; k" := (bind c (fun x => k))
  (at level 100, c at next level, right associativity).
Local Notation "c ;;; k" := (bind c (fun _ => k))
  (at level 100, right associativity).

(** A call on the runtime of interpreter [i] that leaves it in a new
    state. *)
Definition on_runtime {A} (i : iptr)
    (f : ImplState -> string + (A * ImplState)) : M A :=
  it <- interpreter_at i ;;
  match f (Interpreter.pImpl_ it) with
  | inl msg => throw msg
  | inr (a, st) =>
      store_interpreter i (Interpreter.Build ImplState st (Interpreter.manager_ it)) ;;;
      ret a
  end.

Definition InterpreterSession_global (sess : InterpreterSession.t Obj)
    (module name : string) : M Obj :=
  on_runtime (InterpreterSession.impl_ sess) (fun st => global st module name).

Definition Obj_call (sess : InterpreterSession.t Obj) (f : Obj)
    (args : list Obj) : M Obj :=
  on_runtime (InterpreterSession.impl_ sess) (fun st => call st f args).

Definition Obj_toIValue (sess : InterpreterSession.t Obj) (o : Obj) : M IValue :=
  it <- interpreter_at (InterpreterSession.impl_ sess) ;;
  match toIValue (Interpreter.pImpl_ it) o with
  | inl msg => throw msg
  | inr v => ret v
  end.

(** The loop of [setArgumentNames] over the list: the vector as the loop
    leaves it, and whether every element passed the assertion. *)
Fixpoint push_argument_names (argumentNames : list IValue)
    (argumentNamesOut : list string) : list string * bool :=
  match argumentNames with
  | [] => (argumentNamesOut, true)
  | IString s :: rest => push_argument_names rest (argumentNamesOut ++ [s])
  | _ :: _ => (argumentNamesOut, false)
  end.

(** The initializer of [iArgumentNames].  The function to call and its
    argument are evaluated in the order the compiler picks:
    [global_first] says which. *)
Definition getArgumentNames (global_first : bool)
    (session : InterpreterSession.t Obj) (model_ : ReplicatedObj.t) : M IValue :=
  fa <- (if global_first
         then f <- InterpreterSession_global session
                     "GetArgumentNamesModule" "getArgumentNames" ;;
              a <- InterpreterSession_from_movable session model_ ;;
              ret (f, a)
         else a <- InterpreterSession_from_movable session model_ ;;
              f <- InterpreterSession_global session
                     "GetArgumentNamesModule" "getArgumentNames" ;;
              ret (f, a)) ;;
  r <- Obj_call session fa.1 [fa.2] ;;
  Obj_toIValue session r.

(** [PythonMethodWrapper::setArgumentNames] on the wrapper of [model_]: what
    the call does to the process, and the vector [argumentNamesOut] when the
    call is over, which the caller still has when the call throws.  The
    session is a local variable: its destructor runs when the function
    returns and when it throws. *)
Definition PythonMethodWrapper_setArgumentNames (global_first : bool)
    (model_ : ReplicatedObj.t) (argumentNamesOut : list string)
    : World -> outcome World unit * list string :=
  fun w =>
    match ReplicatedObj_acquire_session model_ None w with
    | Returns session w1 =>
        match on_throw
                (iArgumentNames <- getArgumentNames global_first session model_ ;;
                 match iArgumentNames with
                 | IList argumentNames => ret argumentNames
                 | _ => throw "iArgumentNames.isList()"
                 end)
                (InterpreterSession_dtor session) w1 with
        | Returns argumentNames w2 =>
            let '(out, ok) := push_argument_names argumentNames argumentNamesOut in
            (if ok then InterpreterSession_dtor session w2
             else on_throw (throw "argumentName.isString()")
                    (InterpreterSession_dtor session) w2,
             out)
        | Throws msg w2 => (Throws msg w2, argumentNamesOut)
        | Undefined => (Undefined, argumentNamesOut)
        end
    | Throws msg w1 => (Throws msg w1, argumentNamesOut)
    | Undefined => (Undefined, argumentNamesOut)
    end.

(** The strings at the head of a list of values, up to the first value
    that is not a string. *)
Fixpoint leading_strings (l : list IValue) : list string :=
  match l with
  | IString s :: rest => s :: leading_strings rest
  | _ => []
  end.

Definition is_string (v : IValue) : bool :=
  match v with
  | IString _ => true
  | _ => false
  end.

(** Only the runtime of interpreter [i] differs between [w] and [w'], and
    the interpreter is there in both. *)
Definition runtime_only (i : iptr) (w w' : World) : Prop :=
  managers w' = managers w /\ objects w' = objects w /\
  last w' = last w /\ events w' = events w /\
  (forall j, j <> i -> interpreters w' !! j = interpreters w !! j) /\
  exists it it', interpreters w !! i = Some it /\ interpreters w' !! i = Some it' /\
                 Interpreter.manager_ it' = Interpreter.manager_ it.

(** A computation that, on a world where interpreter [i] and the
    replicated object [h] exist, returns or throws and changes the runtime
    of interpreter [i] only. *)
Definition keeps {A} (i : iptr) (h : optr) (c : M A) : Prop :=
  forall w : World,
    is_Some (interpreters w !! i) -> is_Some (objects w !! h) ->
    match c w with
    | Returns _ w' | Throws _ w' => runtime_only i w w'
    | Undefined => False
    end.

(** From [w] to [w'], slot [where_] of manager [p] was acquired for a
    session on interpreter [i] and freed again: the managers and the
    replicated objects are as they were, and only the runtime of [i] may
    differ. *)
Definition session_over (p : mptr) (where_ : Z) (i : iptr) (w w' : World) : Prop :=
  managers w' = managers w /\ objects w' = objects w /\
  events w' =
    events w ++ [SlotAcquired p where_; SessionAcquired i; SlotFreed p where_] /\
  forall j, j <> i -> interpreters w' !! j = interpreters w !! j.

End PythonMethodWrapper.

(** ** Python calls for examples

    Modelled from the spec: the reflection helper that the manager
    registers returns the names of the parameters of a callable.  Here a
    value below 100 is a callable of the parameters [input] and [weight],
    and any other value makes the helper return a list whose second
    element is not a string. *)

Module ArenaPython.

Definition calls : PythonCalls Z (gmap Z Z) := {|
  global := fun st module name =>
    if String.eqb module "GetArgumentNamesModule" then inr (0, st)
    else inl "no such module";
  call := fun st f args =>
    match args with
    | [a] => inr (a, st)
    | _ => inl "wrong number of arguments"
    end;
  toIValue := fun st r =>
    if r <? 100 then inr (IList [IString "input"; IString "weight"])
    else inr (IList [IString "input"; IOther; IString "weight"])
|}.

(** The world of [Arena] with a second replicated object, of id 1 and
    payload 142, at address 2. *)
Definition world_with_objects : World Z (gmap Z Z) :=
  MkWorld {[ 1%positive :=
               InterpreterManager.Build 2 [1%positive; 2%positive]
                 (LoadBalancer.fresh 2) ]}
    (interpreters Arena.world)
    {[ 1%positive := (Arena.object, 1%nat);
       2%positive := (ReplicatedObjImpl.Build Z 1 142 (Some 1%positive), 1%nat) ]}
    0 [].

End ArenaPython.

(** ** The construction of a manager

    Modelled from the spec: of the runtime that [new_interpreter_impl]
    builds, the constructor of a manager needs the state it starts in, the
    call that sets [torch.version.interp], which goes through [global],
    [attr] and a call of deploy.h and can fail, and [set_find_module] of
    interpreter_impl.h, given here the manager that the callback looks
    module sources up in. *)

Class InterpreterSetup (ImplState : Type) : Type := {
  new_interpreter_impl : ImplState;
  set_interp : ImplState -> Z -> string + ImplState;
  set_find_module : ImplState -> mptr -> ImplState
}.

(** The conversion [int(i)] of a [size_t]. *)
Definition to_int (z : Z) : Z := (z + 2 ^ 31) mod 2 ^ 32 - 2 ^ 31.

Definition what (e : Loader.exception) : string :=
  match e with
  | Loader.CheckFailed msg => msg
  | Loader.InternalAssertFailed text => text
  | Loader.runtime_error msg => msg
  end.

Definition newline : string := String (Ascii.ascii_of_nat 10) EmptyString.

(** The source of the module that the constructor registers. *)
Definition GetArgumentNamesModule : string :=
  "from inspect import signature" ++ newline ++
  "def getArgumentNames(function): return list(signature(function).parameters.keys())" ++
  newline.

Section ManagerConstruction.
Context {Obj PickledObject ImplState : Type}.
Context {SU : InterpreterSetup ImplState}.

Local Abbreviation World := (World PickledObject ImplState).
Local Abbreviation M := (@M PickledObject ImplState).

Local Notation "x <- c ;; k" := (bind c (fun x => k))
  (at level 100, c at next level, right associativity).
Local Notation "c ;;; k" := (bind c (fun _ => k))
  (at level 100, right associativity).

(** [instances_.emplace_back(this)]: the constructor of [Interpreter] runs
    with the answers [sys] of the system; the interpreter it builds gets an
    address of its own, and what it throws leaves the pool as it was. *)
Definition emplace_back (b : Loader.build) (g : Embedded.globals)
    (sys : Loader.system) (p : mptr) : M iptr :=
  fun w =>
    match (Loader.Interpreter_ctor b g sys).2 with
    | inl e => Throws (what e) w
    | inr _ =>
        match managers w !! p with
        | None => Undefined
        | Some m =>
            let i := fresh (dom (interpreters w)) in
            Returns i
              (MkWorld
                 (<[p := InterpreterManager.Build
                           (InterpreterManager.next_object_id_ m)
                           (InterpreterManager.instances_ m ++ [i])
                           (InterpreterManager.resources_ m)]> (managers w))
                 (<[i := Interpreter.Build ImplState new_interpreter_impl (Some p)]>
                    (interpreters w))
                 (objects w) (last w) (events w))
        end
    end.

(** One iteration of the loop of the constructor.  The session [I] is a
    local variable of the iteration. *)
Definition setup_instance (b : Loader.build) (g : Embedded.globals)
    (sys : Loader.system) (p : mptr) (i : Z) : M unit :=
  inst <- emplace_back b g sys p ;;
  sess <- Interpreter_acquire_session (Obj:=Obj) inst ;;
  on_throw
    (on_runtime (InterpreterSession.impl_ sess)
       (fun st => match set_interp st (to_int i) with
                  | inl msg => inl msg
                  | inr st' => inr (tt, st')
                  end) ;;;
     on_runtime inst (fun st => inr (tt, set_find_module st p)))
    (InterpreterSession_dtor sess) ;;;
  InterpreterSession_dtor sess.

(** The iterations from [i] on; [fuel] is the number that remain. *)
Fixpoint setup_instances (b : Loader.build) (g : Embedded.globals)
    (sys : Z -> Loader.system) (p : mptr) (i : Z) (fuel : nat) : M unit :=
  match fuel with
  | O => ret tt
  | S fuel' =>
      setup_instance b g (sys i) p i ;;;
      setup_instances b g sys p (i + 1) fuel'
  end.

(** [Interpreter::~Interpreter] on the interpreter at index [j] of the
    pool, which iteration [j] of the loop has built with the answers
    [sys j] of the system: its [handle_] is what [dlopen] returned then. *)
Definition destroy_instance (b : Loader.build) (sys : Z -> Loader.system) (j : Z)
    : option (list Loader.effect) :=
  Loader.Interpreter_dtor b (sys j) (Loader.dlopen (sys j)).

(** What the unwinding of a constructor that throws destroys: the
    interpreters of the pool, each by its destructor, and the manager.
    Where the destructor of an interpreter is undefined, so is the
    unwinding. *)
Definition destroy_members (b : Loader.build) (sys : Z -> Loader.system)
    (p : mptr) : M unit :=
  fun w =>
    match managers w !! p with
    | None => Undefined
    | Some m =>
        match mapM (destroy_instance b sys)
                (seqZ 0 (Z.of_nat (length (InterpreterManager.instances_ m)))) with
        | None => Undefined
        | Some _ =>
            Returns tt
              (MkWorld (delete p (managers w))
                 (foldr delete (interpreters w) (InterpreterManager.instances_ m))
                 (objects w) (last w) (events w))
        end
    end.

(** [InterpreterManager::InterpreterManager] for the manager at address [p];
    [sys i] is what the system answers while interpreter [i] is built.

    Modelled from the spec: the members are declared in deploy.h; the
    counter of object ids starts at 0; [register_module_source] records
    the source under the name in [registered_module_sources_], a member that
    the record of this model does not have and that the constructor returns
    here. *)
Definition InterpreterManager_ctor (b : Loader.build) (g : Embedded.globals)
    (sys : Z -> Loader.system) (p : mptr) (n_interp : Z)
    : M (gmap string string) :=
  store_manager p (InterpreterManager.Build 0 [] (LoadBalancer.fresh n_interp)) ;;;
  on_throw
    (setup_instances b g sys p 0 (Z.to_nat n_interp) ;;;
     ret {[ "GetArgumentNamesModule" := GetArgumentNamesModule ]})
    (destroy_members b sys p).

(** Interpreter [i] of the pool can be built and set up. *)
Definition instance_ok (b : Loader.build) (g : Embedded.globals)
    (sys : Z -> Loader.system) (i : Z) : Prop :=
  (exists handle_, (Loader.Interpreter_ctor b g (sys i)).2 = inr handle_) /\
  exists st, set_interp new_interpreter_impl (to_int i) = inr st.

(** The number of interpreters in the pool when an exception leaves
    iteration [k] of the loop: the interpreters of the iterations before,
    and that of iteration [k] when its constructor has returned. *)
Definition built (b : Loader.build) (g : Embedded.globals)
    (sys : Z -> Loader.system) (k : Z) : Z :=
  match (Loader.Interpreter_ctor b g (sys k)).2 with
  | inr _ => k + 1
  | inl _ => k
  end.

(** From [w] to [w'] the pool of manager [p], which was [m] in [w], has
    grown by the interpreters [news], all of them new, and a session was
    acquired on each; nothing else has changed. *)
Definition pool_grown (p : mptr) (m : InterpreterManager.t) (news : list iptr)
    (w w' : World) : Prop :=
  managers w' =
    <[p := InterpreterManager.Build (InterpreterManager.next_object_id_ m)
             (InterpreterManager.instances_ m ++ news)
             (InterpreterManager.resources_ m)]> (managers w) /\
  objects w' = objects w /\ last w' = last w /\
  events w' = events w ++ (SessionAcquired <$> news) /\
  NoDup news /\
  (forall x, x ∈ news -> interpreters w !! x = None) /\
  (forall j, j ∉ news -> interpreters w' !! j = interpreters w !! j).

End ManagerConstruction.

Module ArenaSetup.

(** Modelled from the spec: the runtime of [Arena] starts with no object,
    keeps [torch.version.interp] under the key -1, and refuses a negative
    index. *)
Definition setup : InterpreterSetup (gmap Z Z) := {|
  new_interpreter_impl := ∅;
  set_interp := fun st i =>
    if i <? 0 then inl "negative index" else inr (<[-1 := i]> st);
  set_find_module := fun st _ => st
|}.

(** A system where every call succeeds, with an image of 4096 bytes. *)
Definition system : Loader.system :=
  Loader.System 4096 8192 3 1 (fun n => n) 7 "" (fun _ => 9) false.

(** A system whose [dlopen] fails. *)
Definition broken : Loader.system :=
  Loader.System 4096 8192 3 1 (fun n => n) 0 "cannot open shared object file"
    (fun _ => 9) false.

(** A system whose library has every entry point but
    [deploy_flush_python_libs]. *)
Definition unflushed : Loader.system :=
  Loader.System 4096 8192 3 1 (fun n => n) 7 ""
    (fun name => if String.eqb name "deploy_flush_python_libs" then 0 else 9)
    false.

(** A process with no manager, no interpreter and no object. *)
Definition empty : World Z (gmap Z Z) := MkWorld ∅ ∅ ∅ 0 [].

End ArenaSetup.

(** ** The operators that convert to and from MKLDNN tensors

    A shallow embedding of the two operators that
    [torch/csrc/jit/passes/frozen_ops_to_mkldnn.cpp] registers, and of
    [nonConstantParameters].  A tensor is a parameter of the model, with
    the three operations of [at::Tensor] that the operators use. *)

Module FrozenOpsToMKLDNN.

Class TensorOps (Tensor : Type) : Type := {
  is_mkldnn : Tensor -> bool;
  to_mkldnn : Tensor -> Tensor;
  to_dense : Tensor -> Tensor
}.

Section Operators.
Context {Tensor : Type} {TO : TensorOps Tensor}.

(** The values on the stack, as far as the two operators tell them
    apart. *)
Inductive IValue : Type :=
| TensorValue (t : Tensor)
| BoolValue (b : bool)
| OtherValue.

(** The stack is a vector; its top is its last element. *)
Definition Stack : Type := list IValue.

(** What an operator does: it leaves a stack, a conversion of a value
    throws, or it pops from a stack that is empty, which is undefined. *)
Inductive run : Type :=
| Leaves (stack : Stack)
| Throws (what : string)
| Undefined.

Definition push (stack : Stack) (v : IValue) : Stack := stack ++ [v].

Definition pop (stack : Stack) : option (IValue * Stack) :=
  match reverse stack with
  | [] => None
  | v :: rest => Some (v, reverse rest)
  end.

Definition ConvertToMKLDNN (stack : Stack) : run :=
  match pop stack with
  | None => Undefined
  | Some (TensorValue input, stack) =>
      let stack := push stack (BoolValue (is_mkldnn input)) in
      if is_mkldnn input
      then Leaves (push stack (TensorValue input))
      else Leaves (push stack (TensorValue (to_mkldnn input)))
  | Some (_, _) => Throws "toTensor"
  end.

Definition ConvertFromMKLDNN (stack : Stack) : run :=
  match pop stack with
  | None => Undefined
  | Some (TensorValue input, stack) =>
      match pop stack with
      | None => Undefined
      | Some (BoolValue to_mkldnn_, stack) =>
          if to_mkldnn_
          then if is_mkldnn input
               then Leaves (push stack (TensorValue input))
               else Leaves (push stack (TensorValue (to_mkldnn input)))
          else if is_mkldnn input
               then Leaves (push stack (TensorValue (to_dense input)))
               else Leaves (push stack (TensorValue input))
      | Some (_, _) => Throws "toBool"
      end
  | Some (_, _) => Throws "toTensor"
  end.

(** An operator of one tensor input and one tensor output, run on the top
    of the stack: the node that [computeOpInMKLDNN] puts between the two
    conversions. *)
Definition on_top (f : Tensor -> Tensor) (stack : Stack) : run :=
  match pop stack with
  | None => Undefined
  | Some (TensorValue input, stack) => Leaves (push stack (TensorValue (f input)))
  | Some (_, _) => Throws "toTensor"
  end.

Definition and_then (r : run) (op : Stack -> run) : run :=
  match r with
  | Leaves stack => op stack
  | Throws what => Throws what
  | Undefined => Undefined
  end.

End Operators.

Arguments IValue : clear implicits.
Arguments Stack : clear implicits.
Arguments run : clear implicits.

(** The kinds of node that the pass tells apart. *)
Inductive Symbol : Type :=
| prim_Constant
| prim_ConstantMKLDNNTensor
| aten_linear
| aten_conv2d
| aten_conv3d
| other_kind (name : string).

(** The loop of [nonConstantParameters] from index [i] on, over the kinds
    of the nodes that produce the inputs of the node; [fuel] is the number
    of indices that remain. *)
Fixpoint nonConstantParameters_from (producers : list Symbol) (i fuel : nat) : bool :=
  match fuel with
  | O => false
  | S fuel' =>
      match producers !! i with
      | None => false
      | Some prim_Constant => nonConstantParameters_from producers (S i) fuel'
      | Some _ => true
      end
  end.

Definition nonConstantParameters (producers : list Symbol) : bool :=
  nonConstantParameters_from producers 1 (length producers - 1).

(** Tensors for examples: a layout flag and the data. *)
Definition flagged : TensorOps (bool * Z) := {|
  is_mkldnn := fun t => t.1;
  to_mkldnn := fun t => (true, t.2);
  to_dense := fun t => (false, t.2)
|}.

End FrozenOpsToMKLDNN.
(** * Facts about the load balancer *)

Module LoadBalancerFacts.
Import LoadBalancer.

(** *** The functions on small pools *)

Example acquire_idle_slot :
  acquire (of_counters [1; 2; 0]) 2 = (2, of_counters [1; 2; 1], 2).
Proof. by vm_compute. Qed.

Example acquire_wraps_around :
  acquire (of_counters [0; 2; 1]) 1 = (0, of_counters [1; 2; 1], 0).
Proof. by vm_compute. Qed.

Example acquire_least_used :
  acquire (of_counters [3; 1; 2]) 1 = (1, of_counters [3; 2; 2], 1).
Proof. by vm_compute. Qed.

Example acquire_first_of_ties :
  acquire (of_counters [2; 1; 1]) 0 = (1, of_counters [2; 2; 1], 3).
Proof. by vm_compute. Qed.

Example acquire_resets_last :
  acquire (of_counters [0; 0]) 7 = (0, of_counters [1; 0], 0).
Proof. by vm_compute. Qed.

Example free_held_slot :
  free (of_counters [2; 1]) 1 = of_counters [2; 0].
Proof. by vm_compute. Qed.

Example free_idle_slot :
  free (of_counters [0; 1]) 0 = of_counters [SIZE_MAX; 1].
Proof. by vm_compute. Qed.

Lemma wrap64_small z : 0 <= z <= SIZE_MAX -> wrap64 z = z.
Proof. unfold wrap64, SIZE_MAX. intros. apply Z.mod_small. lia. Qed.

Lemma wrap64_range z : 0 <= wrap64 z <= SIZE_MAX.
Proof.
  unfold wrap64, SIZE_MAX.
  pose proof (Z.mod_pos_bound z (2 ^ 64) ltac:(lia)). lia.
Qed.

Lemma wrap64_succ_pred z : 0 <= z <= SIZE_MAX -> wrap64 (wrap64 (z + 1) - 1) = z.
Proof.
  intros Hz. unfold wrap64.
  rewrite Zminus_mod_idemp_l. replace (z + 1 - 1) with z by lia.
  apply Z.mod_small. unfold SIZE_MAX in Hz. lia.
Qed.

Lemma norm_range n last : 0 < n -> tl_ok last -> 0 <= norm n last < n.
Proof.
  unfold norm, to_size_t, tl_ok, INT_MAX. intros Hn Hl.
  rewrite Z.mod_small by lia.
  destruct (Z.geb_spec last n); lia.
Qed.

Lemma norm_small n last : 0 <= last < n -> norm n last = last.
Proof.
  unfold norm, to_size_t. intros Hl.
  destruct (Z.geb_spec (last mod 2 ^ 64) n) as [Hge|]; [|done].
  pose proof (Z.mod_le last (2 ^ 64) ltac:(lia) ltac:(lia)). lia.
Qed.

Lemma norm_succ n c : 0 <= c < n -> n <= INT_MAX -> norm n (c + 1) = (c + 1) mod n.
Proof.
  unfold norm, to_size_t, INT_MAX. intros Hc Hn.
  rewrite (Z.mod_small (c + 1) (2 ^ 64)) by lia.
  destruct (Z.geb_spec (c + 1) n).
  - replace (c + 1) with n by lia. by rewrite Z.mod_same by lia.
  - by rewrite Z.mod_small by lia.
Qed.

(** The scan order in closed form: from the entry slot, one slot at a
    time, modulo the pool size. *)
Lemma slot_at_closed n last j :
  0 < n <= INT_MAX -> tl_ok last ->
  slot_at n last j = (norm n last + Z.of_nat j) mod n.
Proof.
  intros Hn. revert last. induction j as [|j IH]; intros last Hl.
  - simpl. rewrite Z.add_0_r, Z.mod_small; [done|]. apply norm_range; [lia | done].
  - pose proof (norm_range n last ltac:(lia) Hl) as Hc.
    cbn [slot_at]. rewrite IH by (unfold tl_ok; lia).
    rewrite norm_succ by lia.
    rewrite Zplus_mod_idemp_l. f_equal. lia.
Qed.

Lemma slot_at_range n last j :
  0 < n <= INT_MAX -> tl_ok last -> 0 <= slot_at n last j < n.
Proof.
  intros Hn Hl. rewrite slot_at_closed by done. apply Z.mod_pos_bound. lia.
Qed.

Lemma last_after_S n last fuel :
  last_after n last (S fuel) = slot_at n last fuel + 1.
Proof.
  revert last. induction fuel as [|fuel IH]; intros last; [done|].
  change (last_after n last (S (S fuel)))
    with (last_after n (norm n last + 1) (S fuel)).
  by rewrite IH.
Qed.

Lemma cas_fail mem p :
  default 0 (mem !! p) <> 0 ->
  atomic_compare_exchange_n mem p 0 1 = (false, default 0 (mem !! p), mem).
Proof.
  intros H. unfold atomic_compare_exchange_n.
  destruct (Z.eqb_spec (default 0 (mem !! p)) 0); [done|done].
Qed.

Lemma cas_success mem p :
  default 0 (mem !! p) = 0 ->
  atomic_compare_exchange_n mem p 0 1 = (true, 0, <[p := 1]> mem).
Proof. intros H. unfold atomic_compare_exchange_n. by rewrite H. Qed.

(** Fast path: the scan stops at the first position whose counter it
    observes at zero. *)
Lemma acquire_loop_fast env n k :
  forall fuel t mem last mu mi,
    (k < fuel)%nat ->
    obs_from env n t mem last k = 0 ->
    (forall j, (j < k)%nat -> obs_from env n t mem last j <> 0) ->
    acquire_loop env t fuel n mem last mu mi =
      (slot_at n last k, <[cell (slot_at n last k) := 1]> (seen env t mem k),
       slot_at n last k).
Proof.
  induction k as [|k IH]; intros fuel t mem last mu mi Hk H0 Hbefore;
    (destruct fuel as [|fuel]; [lia|]).
  - cbn [acquire_loop]. fold (norm n last).
    unfold obs_from, load in H0. cbn [seen slot_at] in H0.
    by rewrite cas_success.
  - cbn [acquire_loop]. fold (norm n last).
    pose proof (Hbefore O ltac:(lia)) as Hne.
    unfold obs_from, load in Hne. cbn [seen slot_at] in Hne.
    rewrite cas_fail by done.
    destruct (_ <? mu);
      (rewrite IH; [done | lia | exact H0 |
        intros j Hj; apply (Hbefore (S j)); lia]).
Qed.

(** Slow path: no counter is observed at zero, the scan ends and adds one
    to the counter of [min_idx]. *)
Lemma acquire_loop_slow env n fuel :
  forall t mem last mu mi,
    (forall j, (j < fuel)%nat -> obs_from env n t mem last j <> 0) ->
    exists r,
      acquire_loop env t fuel n mem last mu mi =
        (r, <[cell r := wrap64 (load (seen env t mem fuel) r + 1)]>
              (seen env t mem fuel),
         last_after n last fuel) /\
      ((exists k, first_seen_minimum (obs_from env n t mem last) fuel k /\
                  obs_from env n t mem last k < mu /\
                  r = slot_at n last k) \/
       ((forall j, (j < fuel)%nat -> mu <= obs_from env n t mem last j) /\
        r = mi)).
Proof.
  induction fuel as [|fuel IH]; intros t mem last mu mi Hnz.
  - exists mi. split; [done|]. right. split; [intros; lia | done].
  - cbn [acquire_loop]. fold (norm n last).
    pose proof (Hnz O ltac:(lia)) as Hne.
    unfold obs_from, load in Hne. cbn [seen slot_at] in Hne.
    rewrite cas_fail by done.
    set (o := obs_from env n t mem last).
    assert (Ho0 : o O = default 0 (env t mem !! cell (norm n last))) by done.
    rewrite <- Ho0.
    assert (Hshift : forall j,
      obs_from env n (S t) (env t mem) (norm n last + 1) j = o (S j)) by done.
    destruct (Z.ltb_spec (o O) mu) as [Hlt|Hge].
    + destruct (IH (S t) (env t mem) (norm n last + 1) (o O) (norm n last))
        as (r & Heq & Hr).
      { intros j Hj. rewrite Hshift. apply Hnz. lia. }
      exists r. split; [exact Heq|]. left.
      destruct Hr as [(k & (Hk & Hmin & Hfirst) & Hlt' & ->) | (Hall & ->)].
      * exists (S k). rewrite Hshift in Hlt'.
        split; [|split; [lia | done]].
        split; [lia|]. split.
        -- intros [|j] Hj; [lia|]. specialize (Hmin j ltac:(lia)).
           by rewrite !Hshift in Hmin.
        -- intros [|j] Hj; [lia|]. specialize (Hfirst j ltac:(lia)).
           by rewrite !Hshift in Hfirst.
      * exists O. split; [|split; [lia | done]].
        split; [lia|]. split; [|intros; lia].
        intros [|j] Hj; [lia|]. specialize (Hall j ltac:(lia)).
        by rewrite Hshift in Hall.
    + destruct (IH (S t) (env t mem) (norm n last + 1) mu mi)
        as (r & Heq & Hr).
      { intros j Hj. rewrite Hshift. apply Hnz. lia. }
      exists r. split; [exact Heq|].
      destruct Hr as [(k & (Hk & Hmin & Hfirst) & Hlt' & ->) | (Hall & ->)].
      * left. exists (S k). rewrite Hshift in Hlt'.
        split; [|split; [lia | done]].
        split; [lia|]. split.
        -- intros [|j] Hj; [lia|]. specialize (Hmin j ltac:(lia)).
           by rewrite !Hshift in Hmin.
        -- intros [|j] Hj; [lia|]. specialize (Hfirst j ltac:(lia)).
           by rewrite !Hshift in Hfirst.
      * right. split; [|done].
        intros [|j] Hj; [lia|]. specialize (Hall j ltac:(lia)).
        by rewrite Hshift in Hall.
Qed.

(** *** The array: reading a counter after a write *)

Lemma cell_lt n r : 0 <= r < n -> (cell r < Z.to_nat (8 * n))%nat.
Proof. unfold cell. lia. Qed.

Lemma cell_inj r s : 0 <= r -> 0 <= s -> cell r = cell s -> r = s.
Proof. unfold cell. lia. Qed.

Lemma load_store_eq mem n r v :
  length mem = Z.to_nat (8 * n) -> 0 <= r < n ->
  load (<[cell r := v]> mem) r = v.
Proof.
  intros Hlen Hr. unfold load.
  rewrite list_lookup_insert_eq; [done|]. rewrite Hlen. by apply cell_lt.
Qed.

Lemma load_store_ne mem r s v :
  0 <= r -> 0 <= s -> r <> s ->
  load (<[cell r := v]> mem) s = load mem s.
Proof.
  intros Hr Hs Hne. unfold load.
  rewrite list_lookup_insert_ne; [done|].
  intros Heq. by apply Hne, cell_inj.
Qed.

Lemma load_lookup mem n r :
  length mem = Z.to_nat (8 * n) -> 0 <= r < n ->
  mem !! cell r = Some (load mem r).
Proof.
  intros Hlen Hr. unfold load.
  destruct (mem !! cell r) eqn:E; [done|].
  apply lookup_ge_None in E. pose proof (cell_lt n r Hr). lia.
Qed.

Lemma load_range mem n r :
  wf_mem n mem -> 0 <= load mem r <= SIZE_MAX.
Proof.
  intros [_ Hall]. unfold load.
  destruct (mem !! cell r) eqn:E; simpl.
  - rewrite Forall_lookup in Hall. exact (Hall _ _ E).
  - unfold SIZE_MAX. lia.
Qed.

Lemma wf_mem_store mem n p v :
  wf_mem n mem -> 0 <= v <= SIZE_MAX -> wf_mem n (<[p := v]> mem).
Proof.
  intros [Hlen Hall] Hv. split.
  - by rewrite length_insert.
  - by apply Forall_insert.
Qed.

(** *** One thread alone *)

Lemma seen_quiet t mem j : seen quiet t mem j = mem.
Proof. revert t. induction j as [|j IH]; intros t; [done|]. simpl. apply IH. Qed.

Lemma obs_from_quiet n t mem last j :
  obs_from quiet n t mem last j = load mem (slot_at n last j).
Proof. unfold obs_from. by rewrite seen_quiet. Qed.

(** A bounded search either finds a first hit or finds none. *)
Lemma first_hit (P : nat -> Prop) (Hdec : forall j, Decision (P j)) (n : nat) :
  (exists k, (k < n)%nat /\ P k /\ forall j, (j < k)%nat -> ~ P j) \/
  (forall j, (j < n)%nat -> ~ P j).
Proof.
  induction n as [|n [(k & Hk & HP & Hfirst) | Hnone]].
  - right. intros; lia.
  - left. exists k. split; [lia | done].
  - destruct (Hdec n) as [HP|HnP].
    + left. exists n. split; [lia | done].
    + right. intros j Hj. destruct (decide (j = n)) as [->|]; [done|].
      apply Hnone. lia.
Qed.

Lemma acquire_unfold env lb last :
  acquire_under env lb last =
    let '(r, mem', last') :=
      acquire_loop env 0 (Z.to_nat (n_ lb)) (n_ lb) (uses_ lb) last SIZE_MAX 0 in
    (r, Build mem' (n_ lb), last').
Proof. done. Qed.

(** Whichever path it takes, a call by a thread alone adds one to the
    counter of the slot it returns and leaves the rest of the array as it
    was. *)
Lemma acquire_effect lb last :
  wf lb -> tl_ok last ->
  exists r last',
    acquire lb last =
      (r, Build (<[cell r := wrap64 (load (uses_ lb) r + 1)]> (uses_ lb)) (n_ lb),
       last') /\
    0 <= r < n_ lb /\ tl_ok last'.
Proof.
  intros [Hn Hmem] Hl. unfold acquire. rewrite acquire_unfold.
  destruct (first_hit (fun j => obs_from quiet (n_ lb) 0 (uses_ lb) last j = 0)
              (fun j => decide _) (Z.to_nat (n_ lb)))
    as [(k & Hk & H0 & Hfirst) | Hnone].
  - rewrite (acquire_loop_fast quiet (n_ lb) k) by done.
    pose proof (slot_at_range (n_ lb) last k Hn Hl) as Hr.
    rewrite obs_from_quiet in H0. rewrite seen_quiet.
    exists (slot_at (n_ lb) last k), (slot_at (n_ lb) last k).
    rewrite H0. split; [done|]. split; [done|]. unfold tl_ok. lia.
  - destruct (acquire_loop_slow quiet (n_ lb) (Z.to_nat (n_ lb)) 0 (uses_ lb)
                last SIZE_MAX 0 Hnone) as (r & -> & Hr).
    rewrite seen_quiet. exists r, (last_after (n_ lb) last (Z.to_nat (n_ lb))).
    split; [done|]. split.
    + destruct Hr as [(k & _ & _ & ->) | (_ & ->)]; [|lia].
      by apply slot_at_range.
    + destruct (Z.to_nat (n_ lb)) as [|m] eqn:E; [lia|].
      rewrite last_after_S.
      pose proof (slot_at_range (n_ lb) last m Hn Hl). unfold tl_ok. lia.
Qed.

Lemma acquire_wf lb last r lb' last' :
  wf lb -> tl_ok last -> acquire lb last = (r, lb', last') ->
  wf lb' /\ n_ lb' = n_ lb /\ 0 <= r < n_ lb /\ tl_ok last'.
Proof.
  intros Hwf Hl Heq.
  destruct (acquire_effect lb last Hwf Hl) as (r0 & l0 & Heq0 & Hr & Hl').
  rewrite Heq in Heq0. injection Heq0 as -> -> ->.
  destruct Hwf as [Hn Hmem]. split; [|done].
  split; [done|]. simpl. apply wf_mem_store; [done | apply wrap64_range].
Qed.

Lemma free_wf lb i : wf lb -> wf (free lb i) /\ n_ (free lb i) = n_ lb.
Proof.
  intros [Hn Hmem]. unfold free, atomic_fetch_sub. simpl.
  split; [|done]. split; [done|]. simpl.
  apply wf_mem_store; [done | apply wrap64_range].
Qed.

(** [free] undoes what the matching [acquire] did to the array. *)
Lemma acquire_free lb last r lb' last' :
  wf lb -> tl_ok last -> acquire lb last = (r, lb', last') -> free lb' r = lb.
Proof.
  intros Hwf Hl Heq.
  destruct (acquire_effect lb last Hwf Hl) as (r0 & l0 & Heq0 & Hr & Hl').
  rewrite Heq in Heq0. injection Heq0 as -> -> ->.
  destruct Hwf as [Hn [Hlen Hall]]. destruct lb as [mem n]. simpl in *.
  unfold free, atomic_fetch_sub. simpl. f_equal.
  rewrite list_lookup_insert_eq by (rewrite Hlen; by apply cell_lt).
  simpl. rewrite list_insert_insert_eq.
  rewrite wrap64_succ_pred by (by apply (load_range mem n)).
  apply list_insert_id. by apply (load_lookup mem n).
Qed.

(** *** Successive calls on an idle pool *)

Lemma rel_slot n start j :
  0 < n -> 0 <= j < n -> ((start + j) mod n - start) mod n = j.
Proof.
  intros Hn Hj. rewrite Zminus_mod_idemp_l.
  replace (start + j - start) with j by lia. by apply Z.mod_small.
Qed.

Lemma rel_inv n start s :
  0 < n -> 0 <= s < n -> (start + (s - start) mod n) mod n = s.
Proof.
  intros Hn Hs. rewrite Zplus_mod_idemp_r.
  replace (start + (s - start)) with s by lia. by apply Z.mod_small.
Qed.

Lemma acquire_next lb last start j :
  wf lb -> tl_ok last -> 0 <= j < n_ lb ->
  taken start j lb ->
  (j = 0 -> norm (n_ lb) last = (start + 0) mod n_ lb) ->
  (0 < j -> last = (start + (j - 1)) mod n_ lb) ->
  exists lb',
    acquire lb last = ((start + j) mod n_ lb, lb', (start + j) mod n_ lb) /\
    wf lb' /\ n_ lb' = n_ lb /\ taken start (j + 1) lb'.
Proof.
  intros Hwf Hl Hj Htaken Hfirst Hlater.
  destruct Hwf as [Hn Hmem]. destruct lb as [mem n].
  unfold taken in *. simpl in *.
  set (r := (start + j) mod n).
  assert (Hr : 0 <= r < n) by (apply Z.mod_pos_bound; lia).
  assert (Hidle : load mem r = 0).
  { rewrite (Htaken r Hr). unfold r. rewrite rel_slot by lia.
    by rewrite Z.ltb_irrefl. }
  assert (Hrun : acquire (Build mem n) last = (r, Build (<[cell r := 1]> mem) n, r)).
  { unfold acquire. rewrite acquire_unfold. simpl.
    destruct (decide (j = 0)) as [->|Hj0].
    - rewrite (acquire_loop_fast quiet n 0); [| lia | |intros; lia].
      + rewrite seen_quiet. simpl. by rewrite (Hfirst eq_refl).
      + rewrite obs_from_quiet. simpl. rewrite (Hfirst eq_refl).
        exact Hidle.
    - assert (Hlast : 0 <= last < n).
      { rewrite (Hlater ltac:(lia)). apply Z.mod_pos_bound. lia. }
      assert (Hslot1 : slot_at n last 1 = r).
      { rewrite slot_at_closed by done. rewrite norm_small by done.
        rewrite (Hlater ltac:(lia)). rewrite Zplus_mod_idemp_l.
        unfold r. f_equal. lia. }
      rewrite (acquire_loop_fast quiet n 1); [| lia | |].
      + by rewrite seen_quiet, Hslot1.
      + by rewrite obs_from_quiet, Hslot1.
      + intros i Hi. assert (i = O) as -> by lia.
        rewrite obs_from_quiet. simpl. rewrite norm_small by done.
        rewrite (Htaken last Hlast). rewrite (Hlater ltac:(lia)) at 1.
        rewrite rel_slot by lia.
        destruct (Z.ltb_spec (j - 1) j); [done | lia]. }
  exists (Build (<[cell r := 1]> mem) n). split; [exact Hrun|].
  split; [|split; [done|]].
  - split; [done|]. simpl. apply wf_mem_store; [done|]. unfold SIZE_MAX. lia.
  - intros s Hs. simpl in *. destruct Hmem as [Hlen _].
    destruct (decide (s = r)) as [->|Hne].
    + rewrite (load_store_eq mem n) by done. unfold r.
      rewrite rel_slot by lia. destruct (Z.ltb_spec j (j + 1)); [done | lia].
    + rewrite load_store_ne by lia. rewrite (Htaken s Hs).
      assert ((s - start) mod n <> j).
      { intros Heq. apply Hne. unfold r. rewrite <- Heq.
        rewrite rel_inv by lia. done. }
      destruct (Z.ltb_spec ((s - start) mod n) j),
               (Z.ltb_spec ((s - start) mod n) (j + 1)); (done || lia).
Qed.

Lemma acquire_many_from k :
  forall lb last start j,
    wf lb -> tl_ok last -> 0 <= j -> j + Z.of_nat k <= n_ lb ->
    taken start j lb ->
    (j = 0 -> norm (n_ lb) last = (start + 0) mod n_ lb) ->
    (0 < j -> last = (start + (j - 1)) mod n_ lb) ->
    (acquire_many k lb last).1.1 =
      (fun i => (start + i) mod n_ lb) <$> seqZ j (Z.of_nat k).
Proof.
  induction k as [|k IH]; intros lb last start j Hwf Hl Hj Hk Htaken H0 H1;
    [done|].
  destruct (acquire_next lb last start j) as (lb' & Heq & Hwf' & Hn' & Htaken');
    try done; [lia|].
  cbn [acquire_many]. rewrite Heq.
  specialize (IH lb' ((start + j) mod n_ lb) start (j + 1)).
  destruct (acquire_many k lb' _) as [[rs lb2] last2] eqn:E. simpl in *.
  rewrite seqZ_cons by lia. simpl. f_equal.
  rewrite Hn' in IH. replace (Z.succ j) with (j + 1) by lia.
  replace (Z.pred (Z.of_nat (S k))) with (Z.of_nat k) by lia.
  apply IH; try done; try lia.
  - unfold tl_ok. destruct Hwf as [Hn _].
    pose proof (Z.mod_pos_bound (start + j) (n_ lb) ltac:(lia)). lia.
  - intros _. f_equal. lia.
Qed.

Lemma all_idle_taken lb start : all_idle lb -> taken start 0 lb.
Proof.
  intros Hidle s Hs. rewrite (Hidle s Hs).
  destruct (Z.ltb_spec ((s - start) mod n_ lb) 0) as [Hlt|]; [|done].
  pose proof (Z.mod_pos_bound (s - start) (n_ lb) ltac:(lia)). lia.
Qed.

(** From an idle pool, [k] calls take the [k] slots that follow the entry
    slot of the first call. *)
Lemma acquire_many_idle k lb last :
  wf lb -> tl_ok last -> all_idle lb -> Z.of_nat k <= n_ lb ->
  (acquire_many k lb last).1.1 =
    (fun i => (norm (n_ lb) last + i) mod n_ lb) <$> seqZ 0 (Z.of_nat k).
Proof.
  intros Hwf Hl Hidle Hk.
  apply acquire_many_from; try done; try lia.
  - by apply all_idle_taken.
  - intros _. rewrite Z.add_0_r. symmetry. apply Z.mod_small.
    apply norm_range; [destruct Hwf; lia | done].
Qed.

Lemma rotation_NoDup n start k :
  0 < n -> 0 <= k <= n ->
  NoDup ((fun i => (start + i) mod n) <$> seqZ 0 k).
Proof.
  intros Hn Hk. apply NoDup_fmap_2_strong; [|apply NoDup_seqZ].
  intros x y Hx Hy Heq. apply elem_of_seqZ in Hx, Hy.
  rewrite <- (rel_slot n start x), <- (rel_slot n start y) by lia.
  by rewrite Heq.
Qed.

Lemma rotation_covers n start :
  0 < n -> forall i, 0 <= i < n ->
  i ∈ (fun i => (start + i) mod n) <$> seqZ 0 n.
Proof.
  intros Hn i Hi. apply list_elem_of_fmap.
  exists ((i - start) mod n). split; [by rewrite rel_inv|].
  apply elem_of_seqZ. pose proof (Z.mod_pos_bound (i - start) n Hn). lia.
Qed.

Lemma rotation_from_zero n k :
  0 <= k <= n -> (fun i => (0 + i) mod n) <$> seqZ 0 k = seqZ 0 k.
Proof.
  intros Hk. rewrite <- (list_fmap_id (seqZ 0 k)) at 2.
  apply list_fmap_ext. intros i x Hx.
  apply list_elem_of_lookup_2, elem_of_seqZ in Hx.
  simpl. apply Z.mod_small. lia.
Qed.

(** *** Runs of [acquire] and [free] *)

Lemma run_cons c calls st : run (c :: calls) st = run calls (step c st).
Proof. done. Qed.

Lemma run_wf calls :
  forall lb last held,
    wf lb -> tl_ok last -> Forall (in_pool (n_ lb)) calls ->
    wf (run calls (lb, last, held)).1.1 /\
    n_ (run calls (lb, last, held)).1.1 = n_ lb /\
    tl_ok (run calls (lb, last, held)).1.2.
Proof.
  induction calls as [|c calls IH]; intros lb last held Hwf Hl Hpool; [done|].
  apply Forall_cons in Hpool as [Hc Hpool]. rewrite run_cons.
  destruct c as [|i]; simpl.
  - destruct (acquire lb last) as [[r lb'] last'] eqn:E.
    destruct (acquire_wf _ _ _ _ _ Hwf Hl E) as (Hwf' & Hn' & _ & Hl').
    rewrite <- Hn'. apply IH; [done | done | by rewrite Hn'].
  - destruct (free_wf lb i Hwf) as [Hwf' Hn'].
    rewrite <- Hn'. apply IH; [done | done | by rewrite Hn'].
Qed.

Lemma wrap64_add_l a b : wrap64 (wrap64 a + b) = wrap64 (a + b).
Proof. unfold wrap64. by rewrite Zplus_mod_idemp_l. Qed.

Lemma wrap64_sub_l a b : wrap64 (wrap64 a - b) = wrap64 (a - b).
Proof. unfold wrap64. by rewrite Zminus_mod_idemp_l. Qed.

Lemma tracks_acquire lb last held r lb' last' :
  wf lb -> tl_ok last -> tracks lb held ->
  acquire lb last = (r, lb', last') ->
  tracks lb' ({[+ r +]} ⊎ held).
Proof.
  intros Hwf Hl [Hin Hcount] Heq.
  destruct (acquire_effect lb last Hwf Hl) as (r0 & l0 & Heq0 & Hr & Hl').
  rewrite Heq in Heq0. injection Heq0 as -> -> ->.
  destruct Hwf as [Hn [Hlen _]]. split; simpl.
  - intros i Hi. apply gmultiset_elem_of_disj_union in Hi as [Hi|Hi].
    + apply gmultiset_elem_of_singleton in Hi. by subst.
    + by apply Hin.
  - intros i Hi. rewrite multiplicity_disj_union.
    destruct (decide (i = r0)) as [->|Hne].
    + rewrite (load_store_eq _ (n_ lb)) by done.
      rewrite multiplicity_singleton_eq, (Hcount r0 Hr), wrap64_add_l.
      f_equal. lia.
    + rewrite load_store_ne by lia.
      rewrite multiplicity_singleton_ne by done. by apply Hcount.
Qed.

Lemma tracks_free lb held i :
  wf lb -> tracks lb held -> i ∈ held ->
  tracks (free lb i) (held ∖ {[+ i +]}).
Proof.
  intros [Hn [Hlen _]] [Hin Hcount] Hi.
  pose proof (Hin i Hi) as Hr.
  rewrite elem_of_multiplicity in Hi.
  unfold free, atomic_fetch_sub. split; simpl.
  - intros j Hj. apply Hin.
    rewrite elem_of_multiplicity in Hj. apply elem_of_multiplicity.
    rewrite multiplicity_difference in Hj. lia.
  - intros j Hj. rewrite multiplicity_difference.
    destruct (decide (j = i)) as [->|Hne].
    + rewrite (load_store_eq _ (n_ lb)) by done.
      rewrite multiplicity_singleton_eq.
      change (default 0 (uses_ lb !! cell i)) with (load (uses_ lb) i).
      rewrite (Hcount i Hr), wrap64_sub_l. f_equal. lia.
    + rewrite load_store_ne by lia.
      rewrite multiplicity_singleton_ne by done.
      rewrite Nat.sub_0_r. by apply Hcount.
Qed.

Lemma run_tracks calls :
  forall lb last held,
    wf lb -> tl_ok last -> tracks lb held -> matched calls (lb, last, held) ->
    tracks (run calls (lb, last, held)).1.1 (run calls (lb, last, held)).2.
Proof.
  induction calls as [|c calls IH]; intros lb last held Hwf Hl Htr Hm; [done|].
  rewrite run_cons. destruct Hm as [Hc Hm]. destruct c as [|i]; simpl in *.
  - destruct (acquire lb last) as [[r lb'] last'] eqn:E.
    destruct (acquire_wf _ _ _ _ _ Hwf Hl E) as (Hwf' & _ & _ & Hl').
    apply IH; [done | done | | done].
    by apply (tracks_acquire lb last held r lb' last').
  - destruct (free_wf lb i Hwf) as [Hwf' _].
    apply IH; [done | done | by apply tracks_free | done].
Qed.

Lemma fresh_wf n : 0 < n <= INT_MAX -> wf (fresh n).
Proof.
  intros Hn. split; [done|]. split; simpl.
  - by rewrite length_replicate.
  - apply Forall_replicate. unfold SIZE_MAX. lia.
Qed.

Lemma fresh_idle n : all_idle (fresh n).
Proof.
  intros s Hs. unfold load. simpl.
  destruct (replicate _ _ !! _) eqn:E; [|done].
  by apply lookup_replicate in E as [-> _].
Qed.

Lemma fresh_tracks n : tracks (fresh n) ∅.
Proof.
  split.
  - intros i Hi. by apply gmultiset_not_elem_of_empty in Hi.
  - intros i Hi. rewrite multiplicity_empty. by apply fresh_idle.
Qed.

Lemma seen_wf env n :
  (forall t mem, wf_mem n mem -> wf_mem n (env t mem)) ->
  forall j t mem, wf_mem n mem -> wf_mem n (seen env t mem j).
Proof.
  intros Henv. induction j as [|j IH]; intros t mem Hmem; simpl.
  - by apply Henv.
  - apply IH. by apply Henv.
Qed.

Lemma quiet_wf n t mem : wf_mem n mem -> wf_mem n (quiet t mem).
Proof. done. Qed.

End LoadBalancerFacts.

(** * Facts about the registration of an image *)

Module EmbeddedFacts.
Import Embedded.

(** The difference of two pointers into one image is the difference of
    their addresses. *)
Lemma ptrdiff_t_small z : - 2 ^ 63 <= z < 2 ^ 63 -> ptrdiff_t z = z.
Proof. intros Hz. unfold ptrdiff_t. rewrite Z.mod_small by lia. lia. Qed.

Lemma ptrdiff_t_range z : - 2 ^ 63 <= ptrdiff_t z < 2 ^ 63.
Proof.
  unfold ptrdiff_t. pose proof (Z.mod_pos_bound (z + 2 ^ 63) (2 ^ 64) ltac:(lia)).
  lia.
Qed.

(** A difference that is positive as a [ptrdiff_t] is the same number as
    a [size_t]. *)
Lemma ptrdiff_t_positive z : 0 < ptrdiff_t z -> wrap64 z = ptrdiff_t z.
Proof.
  unfold ptrdiff_t, wrap64. intros Hpos.
  pose proof (Z.mod_pos_bound (z + 2 ^ 63) (2 ^ 64) ltac:(lia)) as Hb.
  symmetry. apply Z.mod_unique_pos with (q := (z + 2 ^ 63) / 2 ^ 64); [lia|].
  pose proof (Z.div_mod (z + 2 ^ 63) (2 ^ 64) ltac:(lia)). lia.
Qed.

End EmbeddedFacts.

(** * Facts about sessions and replicated objects *)

Section DeployFacts.
Context {Obj PickledObject ImplState : Type}.
Context {RT : InterpreterSessionImpl Obj PickledObject ImplState}.

Local Abbreviation World := (World PickledObject ImplState).
Local Abbreviation creation := (creation Obj PickledObject).

Lemma bind_Returns {A B} (c : M A) (k : A -> M B) (w w' : World) a :
  c w = Returns a w' -> bind c k w = k a w'.
Proof. intros E. unfold bind. by rewrite E. Qed.

Lemma bind_Throws {A B} (c : M A) (k : A -> M B) (w w' : World) msg :
  c w = Throws msg w' -> bind c k w = Throws msg w'.
Proof. intros E. unfold bind. by rewrite E. Qed.

Lemma bind_Undefined {A B} (c : M A) (k : A -> M B) (w : World) :
  c w = Undefined -> bind c k w = Undefined.
Proof. intros E. unfold bind. by rewrite E. Qed.

Lemma interpreter_at_Some i it (w : World) :
  interpreters w !! i = Some it -> interpreter_at i w = Returns it w.
Proof. intros E. unfold interpreter_at. by rewrite E. Qed.

Lemma manager_at_Some p m (w : World) :
  managers w !! p = Some m -> manager_at p w = Returns m w.
Proof. intros E. unfold manager_at. by rewrite E. Qed.

(** A session taken from an interpreter carries no slot. *)
Lemma Interpreter_acquire_session_spec i it (w : World) :
  interpreters w !! i = Some it ->
  Interpreter_acquire_session i w =
    Returns (InterpreterSession.Build Obj i (Interpreter.manager_ it) (-1) None)
            (MkWorld (managers w) (interpreters w) (objects w) (last w)
               (events w ++ [SessionAcquired i])).
Proof.
  intros E. unfold Interpreter_acquire_session.
  by rewrite (bind_Returns _ _ _ _ _ (interpreter_at_Some _ _ _ E)).
Qed.

(** The destructor of a session without a slot does nothing. *)
Lemma InterpreterSession_dtor_untagged (sess : InterpreterSession.t Obj) (w : World) :
  InterpreterSession.manager_ sess = None \/ InterpreterSession.notify_idx_ sess < 0 ->
  InterpreterSession_dtor sess w = Returns tt w.
Proof.
  intros Hno. unfold InterpreterSession_dtor.
  destruct (InterpreterSession.manager_ sess) as [p|]; [|done].
  destruct Hno as [|Hneg]; [done|].
  destruct (Z.geb_spec (InterpreterSession.notify_idx_ sess) 0); [lia | done].
Qed.

Lemma unload_on_spec (this : ReplicatedObjImpl.t PickledObject) i it (w : World) :
  interpreters w !! i = Some it ->
  ReplicatedObjImpl_unload_on this i w =
    Returns tt (unloaded (ReplicatedObjImpl.object_id_ this) i it w).
Proof.
  intros E. unfold ReplicatedObjImpl_unload_on.
  rewrite (bind_Returns _ _ _ _ _ (Interpreter_acquire_session_spec _ _ _ E)).
  unfold bind, on_throw, impl_unload, bind, interpreter_at, store_interpreter, log.
  simpl. rewrite E. simpl.
  rewrite InterpreterSession_dtor_untagged by (right; simpl; lia).
  unfold unloaded. by rewrite <- app_assoc.
Qed.

Lemma alter_Some {A} (f : A -> A) (m : gmap positive A) i x :
  m !! i = Some x -> alter f i m = <[i := f x]> m.
Proof.
  intros E. apply map_eq. intros j. destruct (decide (i = j)) as [<-|Hne].
  - by rewrite lookup_alter_eq, lookup_insert_eq, E.
  - by rewrite lookup_alter_ne, lookup_insert_ne.
Qed.

(** The sweep of [unload] over a list of interpreters. *)
Lemma sweep_spec (this : ReplicatedObjImpl.t PickledObject) l :
  forall w : World,
    (forall i, i ∈ l -> is_Some (interpreters w !! i)) ->
    exists w',
      for_each (ReplicatedObjImpl_unload_on this) l w = Returns tt w' /\
      managers w' = managers w /\
      objects w' = objects w /\
      last w' = last w /\
      events w' = events w ++ sweep_events (ReplicatedObjImpl.object_id_ this) l /\
      interpreters w' =
        sweep_interpreters (ReplicatedObjImpl.object_id_ this) l (interpreters w).
Proof.
  induction l as [|i l IH]; intros w Hall.
  - exists w. simpl. unfold sweep_events. simpl. by rewrite app_nil_r.
  - destruct (Hall i ltac:(left)) as [it E].
    cbn [for_each].
    rewrite (bind_Returns _ _ _ _ _ (unload_on_spec this _ _ _ E)).
    destruct (IH (unloaded (ReplicatedObjImpl.object_id_ this) i it w))
      as (w' & Hrun & Hm & Ho & Hl & He & Hi).
    { intros j Hj. simpl. destruct (decide (i = j)) as [<-|Hne].
      - rewrite lookup_insert_eq. by eexists.
      - rewrite lookup_insert_ne by done. apply Hall. by right. }
    exists w'. split; [exact Hrun|]. simpl in *.
    repeat split; try done.
    + rewrite He. unfold sweep_events. simpl. by rewrite <- app_assoc.
    + rewrite Hi. unfold sweep_interpreters. simpl.
      by rewrite (alter_Some _ _ _ _ E).
Qed.

Lemma sweep_events_quiet id l : Forall (fun e => ~ touches_balancer e) (sweep_events id l).
Proof.
  unfold sweep_events. induction l as [|i l IH]; simpl; [constructor|].
  repeat constructor; try exact IH; by intros [].
Qed.

(** [unload] on the whole pool, and on one interpreter. *)
Lemma unload_all_spec (this : ReplicatedObjImpl.t PickledObject) p m (w : World) :
  ReplicatedObjImpl.manager_ this = Some p ->
  managers w !! p = Some m ->
  (forall i, i ∈ InterpreterManager.instances_ m -> is_Some (interpreters w !! i)) ->
  exists w',
    ReplicatedObjImpl_unload this None w = Returns tt w' /\
    managers w' = managers w /\
    objects w' = objects w /\
    last w' = last w /\
    events w' = events w ++
      sweep_events (ReplicatedObjImpl.object_id_ this) (InterpreterManager.instances_ m) /\
    interpreters w' =
      sweep_interpreters (ReplicatedObjImpl.object_id_ this)
        (InterpreterManager.instances_ m) (interpreters w).
Proof.
  intros Hp Hm Hall. unfold ReplicatedObjImpl_unload. rewrite Hp. cbn beta iota.
  unfold InterpreterManager_all_instances.
  rewrite (bind_Returns _ _ w w (InterpreterManager.instances_ m)) by
    (by rewrite (bind_Returns _ _ _ _ _ (manager_at_Some _ _ _ Hm))).
  by apply sweep_spec.
Qed.

Lemma resources_free_spec p m idx (w : World) :
  managers w !! p = Some m ->
  resources_free p idx w =
    Returns tt
      (MkWorld
         (<[p := InterpreterManager.Build (InterpreterManager.next_object_id_ m)
                   (InterpreterManager.instances_ m)
                   (LoadBalancer.free (InterpreterManager.resources_ m) idx)]>
            (managers w))
         (interpreters w) (objects w) (last w) (events w ++ [SlotFreed p idx])).
Proof.
  intros Hm. unfold resources_free.
  by rewrite (bind_Returns _ _ _ _ _ (manager_at_Some _ _ _ Hm)).
Qed.

Lemma InterpreterSession_dtor_tagged (sess : InterpreterSession.t Obj) p m (w : World) :
  InterpreterSession.manager_ sess = Some p ->
  0 <= InterpreterSession.notify_idx_ sess ->
  managers w !! p = Some m ->
  InterpreterSession_dtor sess w =
    Returns tt
      (MkWorld
         (<[p := InterpreterManager.Build (InterpreterManager.next_object_id_ m)
                   (InterpreterManager.instances_ m)
                   (LoadBalancer.free (InterpreterManager.resources_ m)
                      (InterpreterSession.notify_idx_ sess))]>
            (managers w))
         (interpreters w) (objects w) (last w)
         (events w ++ [SlotFreed p (InterpreterSession.notify_idx_ sess)])).
Proof.
  intros Hp Hidx Hm. unfold InterpreterSession_dtor. rewrite Hp.
  destruct (Z.geb_spec (InterpreterSession.notify_idx_ sess) 0); [|lia].
  by apply resources_free_spec.
Qed.

(** [acquire_one] on a well-formed pool. *)
Lemma acquire_one_spec p m (w : World) :
  pool_ok w p m -> LoadBalancer.tl_ok (last w) ->
  exists where_ lb l' i it,
    LoadBalancer.acquire (InterpreterManager.resources_ m) (last w) = (where_, lb, l') /\
    0 <= where_ < LoadBalancer.n_ (InterpreterManager.resources_ m) /\
    InterpreterManager.instances_ m !! Z.to_nat where_ = Some i /\
    interpreters w !! i = Some it /\
    InterpreterManager_acquire_one p w =
      Returns (InterpreterSession.Build Obj i (Some p) where_ None)
        (MkWorld
           (<[p := InterpreterManager.Build (InterpreterManager.next_object_id_ m)
                     (InterpreterManager.instances_ m) lb]> (managers w))
           (interpreters w) (objects w) l'
           (events w ++ [SlotAcquired p where_; SessionAcquired i])).
Proof.
  intros (Hm & Hwf & Hn & Hpool) Hl.
  destruct (LoadBalancerFacts.acquire_effect _ _ Hwf Hl)
    as (r & l' & Heq & Hr & Hl').
  destruct (lookup_lt_is_Some_2 (InterpreterManager.instances_ m) (Z.to_nat r))
    as [i Hi]; [lia|].
  destruct (Hpool i (list_elem_of_lookup_2 _ _ _ Hi)) as (it & Hit & Hback).
  eexists r, _, l', i, it. split; [exact Heq|].
  split; [done|]. split; [done|]. split; [done|].
  unfold InterpreterManager_acquire_one, bind, manager_at, get_last.
  rewrite Hm, Heq. simpl. rewrite Hi.
  unfold Interpreter_acquire_session, bind, interpreter_at, log. simpl.
  rewrite Hit, Hback. simpl. by rewrite <- app_assoc.
Qed.

(** *** [create_movable] *)

Lemma impl_pickle_spec i it self obj (w : World) :
  interpreters w !! i = Some it ->
  impl_pickle i self obj w =
    match pickle (Interpreter.pImpl_ it) self obj with
    | inl msg => Throws msg w
    | inr pickled => Returns pickled w
    end.
Proof.
  intros E. unfold impl_pickle.
  rewrite (bind_Returns _ _ _ _ _ (interpreter_at_Some _ _ _ E)).
  by destruct (pickle _ _ _).
Qed.

(** [pickle] leaves the world as it is. *)
Lemma impl_pickle_world i self obj (w : World) :
  match impl_pickle i self obj w with
  | Returns _ w' | Throws _ w' => w' = w
  | Undefined => True
  end.
Proof.
  unfold impl_pickle, bind, interpreter_at.
  destruct (interpreters w !! i) as [it|]; [|done].
  by destruct (pickle _ _ _).
Qed.

Lemma next_object_id_incr_spec p m (w : World) :
  managers w !! p = Some m ->
  next_object_id_incr p w =
    Returns (InterpreterManager.next_object_id_ m)
      (MkWorld
         (<[p := InterpreterManager.Build (InterpreterManager.next_object_id_ m + 1)
                   (InterpreterManager.instances_ m)
                   (InterpreterManager.resources_ m)]> (managers w))
         (interpreters w) (objects w) (last w)
         (events w ++ [IdAllocated p (InterpreterManager.next_object_id_ m)])).
Proof.
  intros Hm. unfold next_object_id_incr.
  by rewrite (bind_Returns _ _ _ _ _ (manager_at_Some _ _ _ Hm)).
Qed.

Lemma next_object_id_incr_null p (w : World) :
  managers w !! p = None -> next_object_id_incr p w = Undefined.
Proof.
  intros Hm. unfold next_object_id_incr, bind, manager_at. by rewrite Hm.
Qed.

(** The function is its steps, one after the other. *)
Lemma create_movable_steps (sess : InterpreterSession.t Obj) obj (w : World) :
  let '(c1, w1) := creation_step true (AtPickle sess obj) w in
  let '(c2, w2) := creation_step true c1 w1 in
  let '(c3, w3) := creation_step true c2 w2 in
  handed c3 w3 = Some (InterpreterSession_create_movable sess obj w).
Proof.
  unfold InterpreterSession_create_movable. cbn [creation_step].
  destruct (InterpreterSession.manager_ sess) as [p|]; [|done].
  unfold advance at 1. unfold bind at 1.
  destruct (impl_pickle _ _ _ w) as [pickled w1|msg w1|]; [|done|done].
  cbn [creation_step]. unfold advance at 1. unfold bind at 1.
  destruct (next_object_id_incr p w1) as [id w2|msg w2|]; [|done|done].
  cbn [creation_step]. unfold advance, make_shared. done.
Qed.

Lemma create_movable_steps_split (sess : InterpreterSession.t Obj) obj (w : World) :
  let '(c1, w1) := creation_step false (AtPickle sess obj) w in
  let '(c2, w2) := creation_step false c1 w1 in
  let '(c3, w3) := creation_step false c2 w2 in
  let '(c4, w4) := creation_step false c3 w3 in
  handed c4 w4 = Some (InterpreterSession_create_movable sess obj w).
Proof.
  unfold InterpreterSession_create_movable. cbn [creation_step].
  destruct (InterpreterSession.manager_ sess) as [p|]; [|done].
  unfold advance at 1. unfold bind at 1.
  destruct (impl_pickle _ _ _ w) as [pickled w1|msg w1|]; [|done|done].
  cbn [creation_step]. unfold advance at 1. unfold bind at 1.
  unfold next_object_id_read, next_object_id_incr, bind, manager_at.
  destruct (managers w1 !! p) as [m|] eqn:Hm; [|done].
  cbn [creation_step ret]. unfold advance at 1.
  unfold next_object_id_write, bind, manager_at, store_manager, log. simpl.
  rewrite Hm. cbn [creation_step]. unfold advance, make_shared. done.
Qed.

(** *** Threads *)

Lemma threads_ok_calling (ts : list creation) (w : World) : Forall calling ts -> threads_ok ts w.
Proof.
  intros Hall. rewrite Forall_lookup in Hall.
  repeat split.
  - intros t c p id m Ht Hpend. specialize (Hall _ _ Ht). by destruct c.
  - intros t1 t2 c1 c2 x Ht1 _ Hpend. specialize (Hall _ _ Ht1). by destruct c1.
  - intros t c p id o impl owners Ht Hpend. specialize (Hall _ _ Ht). by destruct c.
  - intros t r Ht. by specialize (Hall _ _ Ht).
  - intros t p pickled id Ht. by specialize (Hall _ _ Ht).
Qed.

(** A thread that holds no id and returns no object can take any place. *)
Lemma threads_ok_insert_idle (ts : list creation) t c (w : World) :
  pending_id c = None -> (forall r, c <> Done r) ->
  (forall p pickled id, c <> AtNextIdWrite p pickled id) ->
  threads_ok ts w -> threads_ok (<[t := c]> ts) w.
Proof.
  intros Hpend Hdone Hwrite (H1 & H2 & H3 & H4 & H5).
  assert (Hold : forall t1 c1, <[t := c]> ts !! t1 = Some c1 ->
            (c1 = c) \/ (t1 <> t /\ ts !! t1 = Some c1)).
  { intros t1 c1 Hl. apply list_lookup_insert_Some in Hl.
    destruct Hl as [(_ & Heq & _) | [Hne Hl]]; [by left | right; split; [congruence | done]]. }
  repeat split.
  - intros t1 c1 p id m Hl Hp Hm.
    destruct (Hold _ _ Hl) as [->|[_ Hl']]; [congruence|]. by eapply H1.
  - intros t1 t2 c1 c2 x Hl1 Hl2 Hp1 Hp2.
    destruct (Hold _ _ Hl1) as [->|[_ Hl1']]; [congruence|].
    destruct (Hold _ _ Hl2) as [->|[_ Hl2']]; [congruence|]. by eapply H2.
  - intros t1 c1 p id o impl owners Hl Hp Ho Hm.
    destruct (Hold _ _ Hl) as [->|[_ Hl']]; [congruence|]. by eapply H3.
  - intros t1 r Hl.
    destruct (Hold _ _ Hl) as [Heq|[_ Hl']]; [by destruct (Hdone r)|].
    by eapply H4.
  - intros t1 p pickled id Hl.
    destruct (Hold _ _ Hl) as [Heq|[_ Hl']]; [by destruct (Hwrite p pickled id)|].
    by eapply H5.
Qed.

Lemma step_next_id (ts : list creation) t p pickled m (w : World) :
  ts !! t = Some (AtNextId p pickled) ->
  managers w !! p = Some m ->
  run_ok ts w ->
  run_ok (<[t := AtMakeShared p pickled (InterpreterManager.next_object_id_ m)]> ts)
    (MkWorld
       (<[p := InterpreterManager.Build (InterpreterManager.next_object_id_ m + 1)
                 (InterpreterManager.instances_ m)
                 (InterpreterManager.resources_ m)]> (managers w))
       (interpreters w) (objects w) (last w)
       (events w ++ [IdAllocated p (InterpreterManager.next_object_id_ m)])).
Proof.
  intros Ht Hm (Huniq & Hbelow & H1 & H2 & H3 & H4 & H5).
  set (n := InterpreterManager.next_object_id_ m).
  assert (Hnext : forall q mq,
    <[p := InterpreterManager.Build (n + 1) (InterpreterManager.instances_ m)
             (InterpreterManager.resources_ m)]> (managers w) !! q = Some mq ->
    exists mq', managers w !! q = Some mq' /\
      InterpreterManager.next_object_id_ mq' <= InterpreterManager.next_object_id_ mq /\
      (q = p -> mq' = m)).
  { intros q mq Hq. destruct (decide (p = q)) as [<-|Hne].
    - rewrite lookup_insert_eq in Hq. injection Hq as <-. exists m. simpl.
      split; [done|]. split; [unfold n; lia | done].
    - rewrite lookup_insert_ne in Hq by done. exists mq.
      split; [done|]. split; [lia | congruence]. }
  assert (Hold : forall t1 c1,
    <[t := AtMakeShared p pickled n]> ts !! t1 = Some c1 ->
    (t1 = t /\ c1 = AtMakeShared p pickled n) \/ (t1 <> t /\ ts !! t1 = Some c1)).
  { intros t1 c1 Hl. apply list_lookup_insert_Some in Hl.
    destruct Hl as [(-> & <- & _) | [Hne Hl]]; [by left | right; split; [congruence | done]]. }
  split; [exact Huniq|]. split; [|repeat split]; simpl.
  - intros o impl owners q mq Ho Hq Hmq. simpl in *.
    destruct (Hnext _ _ Hmq) as (mq' & Hmq' & Hle & _).
    specialize (Hbelow _ _ _ _ _ Ho Hq Hmq'). lia.
  - intros t1 c1 q id mq Hl Hp Hmq.
    destruct (Hnext _ _ Hmq) as (mq' & Hmq' & Hle & Hsame).
    destruct (Hold _ _ Hl) as [[-> ->]|[_ Hl']].
    + simpl in Hp. injection Hp as <- <-.
      rewrite lookup_insert_eq in Hmq. injection Hmq as <-. simpl. lia.
    + specialize (H1 _ _ _ _ _ Hl' Hp Hmq'). lia.
  - intros t1 t2 c1 c2 x Hl1 Hl2 Hp1 Hp2.
    destruct (Hold _ _ Hl1) as [[-> ->]|[Hne1 Hl1']],
             (Hold _ _ Hl2) as [[-> ->]|[Hne2 Hl2']]; [done| | |].
    + simpl in Hp1. injection Hp1 as <-.
      specialize (H1 _ _ _ _ _ Hl2' Hp2 Hm). unfold n in H1. lia.
    + simpl in Hp2. injection Hp2 as <-.
      specialize (H1 _ _ _ _ _ Hl1' Hp1 Hm). unfold n in H1. lia.
    + by eapply H2.
  - intros t1 c1 q id o impl owners Hl Hp Ho Hq.
    destruct (Hold _ _ Hl) as [[-> ->]|[_ Hl']].
    + simpl in Hp. injection Hp as <- <-.
      specialize (Hbelow _ _ _ _ _ Ho Hq Hm). unfold n. lia.
    + by eapply H3.
  - intros t1 r Hl.
    destruct (Hold _ _ Hl) as [[-> Heq]|[_ Hl']]; [done|]. by eapply H4.
  - intros t1 q pickled1 id1 Hl.
    destruct (Hold _ _ Hl) as [[-> Heq]|[_ Hl']]; [done|]. by eapply H5.
Qed.

Lemma step_make_shared (ts : list creation) t p pickled id (w : World) :
  ts !! t = Some (AtMakeShared p pickled id) ->
  run_ok ts w ->
  run_ok (<[t := Done (ReplicatedObj.Build (fresh (dom (objects w))))]> ts)
    (MkWorld (managers w) (interpreters w)
       (<[fresh (dom (objects w)) :=
            (ReplicatedObjImpl.Build PickledObject id pickled (Some p), 1%nat)]>
          (objects w))
       (last w) (events w)).
Proof.
  intros Ht (Huniq & Hbelow & H1 & H2 & H3 & H4 & H5).
  set (o := fresh (dom (objects w))).
  assert (Hfresh : objects w !! o = None).
  { apply not_elem_of_dom. apply is_fresh. }
  assert (Hobj : forall o1 impl1 owners1,
    <[o := (ReplicatedObjImpl.Build PickledObject id pickled (Some p), 1%nat)]>
      (objects w) !! o1 = Some (impl1, owners1) ->
    (o1 = o /\ impl1 = ReplicatedObjImpl.Build PickledObject id pickled (Some p)) \/
    (o1 <> o /\ objects w !! o1 = Some (impl1, owners1))).
  { intros o1 impl1 owners1 Ho. destruct (decide (o = o1)) as [<-|Hne].
    - rewrite lookup_insert_eq in Ho. injection Ho as <- <-. by left.
    - rewrite lookup_insert_ne in Ho by done. by right. }
  assert (Hold : forall t1 c1,
    <[t := Done (ReplicatedObj.Build o)]> ts !! t1 = Some c1 ->
    (t1 = t /\ c1 = Done (ReplicatedObj.Build o)) \/ (t1 <> t /\ ts !! t1 = Some c1)).
  { intros t1 c1 Hl. apply list_lookup_insert_Some in Hl.
    destruct Hl as [(-> & <- & _) | [Hne Hl]]; [by left | right; split; [congruence | done]]. }
  split; [|split; [|repeat split]]; simpl.
  - intros o1 o2 impl1 owners1 impl2 owners2 q Ho1 Ho2 Hq1 Hq2 Hid. simpl in *.
    destruct (Hobj _ _ _ Ho1) as [[-> ->]|[Hne1 Ho1']],
             (Hobj _ _ _ Ho2) as [[-> ->]|[Hne2 Ho2']]; [done| | |].
    + simpl in *. injection Hq1 as <-.
      by destruct (H3 _ _ _ _ _ _ _ Ht eq_refl Ho2' Hq2).
    + simpl in *. injection Hq2 as <-.
      by destruct (H3 _ _ _ _ _ _ _ Ht eq_refl Ho1' Hq1).
    + by eapply Huniq.
  - intros o1 impl1 owners1 q mq Ho1 Hq Hmq. simpl in *.
    destruct (Hobj _ _ _ Ho1) as [[-> ->]|[Hne1 Ho1']].
    + simpl in *. injection Hq as <-. by eapply (H1 _ _ _ _ _ Ht).
    + by eapply Hbelow.
  - intros t1 c1 q id1 mq Hl Hp Hmq.
    destruct (Hold _ _ Hl) as [[-> ->]|[_ Hl']]; [done|]. by eapply H1.
  - intros t1 t2 c1 c2 x Hl1 Hl2 Hp1 Hp2.
    destruct (Hold _ _ Hl1) as [[-> ->]|[Hne1 Hl1']]; [done|].
    destruct (Hold _ _ Hl2) as [[-> ->]|[Hne2 Hl2']]; [done|]. by eapply H2.
  - intros t1 c1 q id1 o1 impl1 owners1 Hl Hp Ho1 Hq.
    destruct (Hold _ _ Hl) as [[-> ->]|[Hne Hl']]; [done|].
    destruct (Hobj _ _ _ Ho1) as [[-> ->]|[Hne1 Ho1']].
    + simpl in *. injection Hq as <-. intros <-.
      apply Hne. by eapply (H2 _ _ _ _ _ Hl' Ht).
    + by eapply H3.
  - intros t1 r Hl.
    destruct (Hold _ _ Hl) as [[-> Heq]|[_ Hl']].
    + injection Heq as ->. simpl. rewrite lookup_insert_eq. by eexists.
    + destruct (H4 _ _ Hl') as [x Hx].
      destruct (decide (o = ReplicatedObj.pImpl_ r)) as [Heq|Hne].
      * rewrite <- Heq, lookup_insert_eq. by eexists.
      * rewrite lookup_insert_ne by done. by eexists.
  - intros t1 q pickled1 id1 Hl.
    destruct (Hold _ _ Hl) as [[-> Heq]|[_ Hl']]; [done|]. by eapply H5.
Qed.

Lemma creation_step_ok (ts : list creation) t c (w : World) :
  ts !! t = Some c -> run_ok ts w ->
  run_ok (<[t := (creation_step true c w).1]> ts) (creation_step true c w).2.
Proof.
  intros Ht Hok.
  assert (Hidle : forall c', pending_id c' = None -> (forall r, c' <> Done r) ->
            (forall p pickled id, c' <> AtNextIdWrite p pickled id) ->
            run_ok (<[t := c']> ts) w).
  { intros c' Hp Hd Hw. destruct Hok as (? & ? & ?).
    split; [done|]. split; [done|]. by apply threads_ok_insert_idle. }
  destruct c as [sess obj|p pickled|p pickled id|p pickled id|r|msg|];
    cbn [creation_step].
  - destruct (InterpreterSession.manager_ sess) as [p|]; [|by apply Hidle].
    unfold advance. pose proof (impl_pickle_world
      (InterpreterSession.impl_ sess) (InterpreterSession.self sess) obj w) as Hw.
    destruct (impl_pickle _ _ _ w) as [pickled w1|msg w1|]; simpl;
      try subst w1; by apply Hidle.
  - unfold advance. destruct (managers w !! p) as [m|] eqn:Hm.
    + rewrite (next_object_id_incr_spec _ _ _ Hm). simpl.
      by apply step_next_id.
    + rewrite (next_object_id_incr_null _ _ Hm). simpl. by apply Hidle.
  - destruct Hok as (_ & _ & _ & _ & _ & _ & Hnone).
    by destruct (Hnone t p pickled id).
  - unfold advance, make_shared. simpl. by apply step_make_shared.
  - simpl. by rewrite list_insert_id.
  - simpl. by rewrite list_insert_id.
  - simpl. by rewrite list_insert_id.
Qed.

Lemma ids_allocated_app p evs1 evs2 :
  ids_allocated p (evs1 ++ evs2) = ids_allocated p evs1 ++ ids_allocated p evs2.
Proof. unfold ids_allocated. apply omap_app. Qed.

Lemma creation_step_allocated p n0 evs0 (c : creation) (w : World) :
  (forall q pickled id, c <> AtNextIdWrite q pickled id) ->
  allocated_since p n0 evs0 w ->
  allocated_since p n0 evs0 (creation_step true c w).2.
Proof.
  intros Hnone (m & Hm & Hle & Hids).
  assert (Hsame : allocated_since p n0 evs0 w) by (by exists m).
  destruct c as [sess obj|q pickled|q pickled id|q pickled id|r|msg|];
    cbn [creation_step]; try done.
  - destruct (InterpreterSession.manager_ sess) as [q|]; [|done].
    unfold advance. pose proof (impl_pickle_world
      (InterpreterSession.impl_ sess) (InterpreterSession.self sess) obj w) as Hw.
    destruct (impl_pickle _ _ _ w) as [pickled w1|msg w1|]; simpl;
      try subst w1; done.
  - unfold advance. destruct (managers w !! q) as [mq|] eqn:Hq.
    + rewrite (next_object_id_incr_spec _ _ _ Hq). simpl.
      destruct (decide (q = p)) as [->|Hne].
      * assert (mq = m) as -> by congruence.
        eexists. simpl. rewrite lookup_insert_eq. split; [done|]. simpl.
        split; [lia|]. rewrite ids_allocated_app, Hids. simpl.
        rewrite decide_True by done.
        replace (InterpreterManager.next_object_id_ m + 1 - n0)
          with ((InterpreterManager.next_object_id_ m - n0) + 1) by lia.
        rewrite seqZ_app by lia. rewrite <- app_assoc. do 2 f_equal.
        rewrite seqZ_cons by lia. simpl. rewrite seqZ_nil by lia.
        f_equal. lia.
      * exists m. simpl. rewrite lookup_insert_ne by done.
        split; [done|]. split; [done|].
        rewrite ids_allocated_app, Hids. simpl.
        rewrite decide_False by done. by rewrite app_nil_r.
    + by rewrite (next_object_id_incr_null _ _ Hq).
  - by destruct (Hnone q pickled id).
Qed.

Lemma interleave_ok sched :
  forall (ts : list creation) (w : World) p n0 evs0,
    run_ok ts w -> allocated_since p n0 evs0 w ->
    run_ok (interleave true sched ts w).1 (interleave true sched ts w).2 /\
    allocated_since p n0 evs0 (interleave true sched ts w).2.
Proof.
  induction sched as [|t sched IH]; intros ts w p n0 evs0 Hok Halloc; [done|].
  cbn [interleave]. destruct (ts !! t) as [c|] eqn:Ht; [|by apply IH].
  pose proof (creation_step_ok ts t c w Ht Hok) as Hok'.
  assert (Hnone : forall q pickled id, c <> AtNextIdWrite q pickled id).
  { intros q pickled id ->. destruct Hok as (_ & _ & _ & _ & _ & _ & Hnone).
    by destruct (Hnone t q pickled id). }
  pose proof (creation_step_allocated p n0 evs0 c w Hnone Halloc) as Halloc'.
  destruct (creation_step true c w) as [c' w']. by apply IH.
Qed.

Lemma seqZ_increasing m n : StronglySorted Z.lt (seqZ m n).
Proof.
  destruct (decide (0 <= n)) as [Hn|Hn]; [|rewrite seqZ_nil by lia; constructor].
  rewrite <- (Z2Nat.id n Hn). generalize (Z.to_nat n). clear. intros k. revert m.
  induction k as [|k IH]; intros m; [constructor|].
  rewrite seqZ_cons by lia. constructor.
  - replace (Z.pred (Z.of_nat (S k))) with (Z.of_nat k) by lia. apply IH.
  - apply Forall_forall. intros x Hx. apply elem_of_seqZ in Hx. lia.
Qed.

End DeployFacts.

(** * The claims about the load balancer *)

Module LoadBalancerClaims.
Import LoadBalancer LoadBalancerFacts.

(** C1 (amended).  [acquire] scans the [n] slots from the slot [last]
    names on entry, one slot at a time modulo [n], and at each does a
    compare-and-swap of the counter from 0 to 1.  It returns the first slot
    whose counter it observes at 0, with that counter set to 1.  When it
    observes no counter at 0 it adds one to the counter of the slot it
    returns, which is the first-seen minimum of the observed values when
    some observed value is below [SIZE_MAX], and slot 0 when every observed
    value is [SIZE_MAX].  The other threads may write the array between
    any two atomic operations of the call. *)
Theorem acquire_scan_result (env : interference) (lb : t) (last : Z) :
  wf lb -> tl_ok last ->
  (forall t mem, wf_mem (n_ lb) mem -> wf_mem (n_ lb) (env t mem)) ->
  let n := Z.to_nat (n_ lb) in
  let slot := fun j : nat => (norm (n_ lb) last + Z.of_nat j) mod n_ lb in
  let arr := seen env 0 (uses_ lb) in
  let obs := fun j : nat => load (arr j) (slot j) in
  (forall k, (k < n)%nat -> obs k = 0 -> (forall j, (j < k)%nat -> obs j <> 0) ->
     acquire_under env lb last =
       (slot k, Build (<[cell (slot k) := 1]> (arr k)) (n_ lb), slot k)) /\
  ((forall j, (j < n)%nat -> obs j <> 0) ->
     exists r,
       acquire_under env lb last =
         (r, Build (<[cell r := wrap64 (load (arr n) r + 1)]> (arr n)) (n_ lb),
          slot (n - 1)%nat + 1) /\
       ((exists k, first_seen_minimum obs n k /\ obs k < SIZE_MAX /\ r = slot k) \/
        ((forall j, (j < n)%nat -> obs j = SIZE_MAX) /\ r = 0))).
Proof.
  intros [Hn Hmem] Hl Henv n slot arr obs.
  assert (Hslot : forall j, slot_at (n_ lb) last j = slot j)
    by (intros j; by apply slot_at_closed).
  assert (Hobs : forall j, obs_from env (n_ lb) 0 (uses_ lb) last j = obs j)
    by (intros j; unfold obs_from; by rewrite Hslot).
  split.
  - intros k Hk H0 Hbefore. rewrite acquire_unfold.
    rewrite (acquire_loop_fast env (n_ lb) k); [by rewrite Hslot | done | |].
    + by rewrite Hobs.
    + intros j Hj. rewrite Hobs. by apply Hbefore.
  - intros Hnone.
    destruct (acquire_loop_slow env (n_ lb) n 0 (uses_ lb) last SIZE_MAX 0)
      as (r & Heq & Hr).
    { intros j Hj. rewrite Hobs. by apply Hnone. }
    exists r. split.
    + rewrite acquire_unfold. fold n. rewrite Heq. do 2 f_equal.
      destruct n as [|m] eqn:E; [lia|].
      rewrite last_after_S, Hslot. do 2 f_equal. lia.
    + destruct Hr as [(k & (Hk & Hmin & Hfirst) & Hlt & ->) | (Hall & ->)].
      * left. exists k. rewrite Hobs in Hlt. rewrite Hslot.
        split; [|done]. split; [done|]. split.
        -- intros j Hj. specialize (Hmin j Hj). by rewrite !Hobs in Hmin.
        -- intros j Hj. specialize (Hfirst j Hj). by rewrite !Hobs in Hfirst.
      * right. split; [|done]. intros j Hj.
        specialize (Hall j Hj). rewrite Hobs in Hall.
        pose proof (load_range (arr j) (n_ lb) (slot j)
                      (seen_wf env (n_ lb) Henv j 0%nat (uses_ lb) Hmem)) as Hrange.
        fold (obs j) in Hrange. lia.
Qed.

Lemma of_counters_wf_3 a b c :
  0 <= a <= SIZE_MAX -> 0 <= b <= SIZE_MAX -> 0 <= c <= SIZE_MAX ->
  wf (of_counters [a; b; c]).
Proof.
  intros Ha Hb Hc. split; [by vm_compute|]. split; [done|].
  assert (H0 : 0 <= 0 <= SIZE_MAX) by (by vm_compute).
  simpl. repeat (constructor; [done|]). constructor.
Qed.

Lemma acquire_scan_result_witness :
  wf (of_counters [2; 0; 1]) /\ wf (of_counters [2; 1; 1]) /\ tl_ok 0 /\
  acquire_under quiet (of_counters [2; 0; 1]) 0 =
    (1, Build (<[cell 1 := 1]> (uses_ (of_counters [2; 0; 1]))) 3, 1) /\
  exists r,
    acquire_under quiet (of_counters [2; 1; 1]) 0 =
      (r, Build (<[cell r := wrap64 (load (uses_ (of_counters [2; 1; 1])) r + 1)]>
                   (uses_ (of_counters [2; 1; 1]))) 3, 3).
Proof.
  assert (Hw1 : wf (of_counters [2; 0; 1])) by (apply of_counters_wf_3; by vm_compute).
  assert (Hw2 : wf (of_counters [2; 1; 1])) by (apply of_counters_wf_3; by vm_compute).
  assert (Hl : tl_ok 0) by (by vm_compute).
  split; [exact Hw1|]. split; [exact Hw2|]. split; [exact Hl|]. split.
  - apply (proj1 (acquire_scan_result quiet (of_counters [2; 0; 1]) 0 Hw1 Hl
                    (quiet_wf 3)) 1%nat).
    + vm_compute. lia.
    + by vm_compute.
    + intros j Hj. assert (j = 0%nat) as -> by lia. by vm_compute.
  - destruct (proj2 (acquire_scan_result quiet (of_counters [2; 1; 1]) 0 Hw2 Hl
                       (quiet_wf 3))) as (r & Heq & _).
    + intros j Hj.
      destruct j as [|[|[|j]]]; [by vm_compute | by vm_compute | by vm_compute |].
      vm_compute in Hj. lia.
    + exists r. exact Heq.
Defined.

(** The balancer of two slots whose counters are both at [SIZE_MAX]. *)
Lemma saturated_never_idle j :
  observed quiet 2 (uses_ (of_counters [SIZE_MAX; SIZE_MAX])) 1 j <> 0.
Proof.
  unfold observed. rewrite obs_from_quiet.
  rewrite slot_at_closed by (by vm_compute).
  pose proof (Z.mod_pos_bound (norm 2 1 + Z.of_nat j) 2 ltac:(lia)) as Hr.
  destruct (decide ((norm 2 1 + Z.of_nat j) mod 2 = 0)) as [->|].
  - by vm_compute.
  - replace ((norm 2 1 + Z.of_nat j) mod 2) with 1 by lia. by vm_compute.
Qed.

(** C1, counterexample.  With both counters of a pool of two at
    [SIZE_MAX], as a [free] of each idle slot leaves them, and [last] at 1,
    the scan sees slot 1 first and both values tie; [acquire] returns
    slot 0. *)
Lemma slow_path_tie_counterexample :
  ~ slow_path_as_specified (of_counters [SIZE_MAX; SIZE_MAX]) 1.
Proof.
  unfold slow_path_as_specified. intros Hclaim.
  destruct Hclaim as (k & (Hk & _ & Hfirst) & Hres).
  { intros j _. apply saturated_never_idle. }
  change (Z.to_nat (n_ (of_counters [SIZE_MAX; SIZE_MAX]))) with 2%nat in Hk.
  destruct k as [|[|k]]; [| |lia].
  - vm_compute in Hres. discriminate.
  - specialize (Hfirst 0%nat ltac:(lia)). vm_compute in Hfirst. discriminate.
Qed.

(** C2.  [acquire] returns a slot of the pool and adds one to its counter;
    [free] of that slot takes the one away again, so that the counter, and
    with it the whole balancer, is back at its value before [acquire].
    Under any sequence of [acquire] and [free] calls on slots of the pool
    every counter stays a [uint64_t], hence is never negative; and as long
    as every [free] releases a slot that is held, every counter is the
    number of times its slot is currently held. *)
Theorem free_undoes_acquire (lb : t) (last : Z) (calls : list call)
    (held : gmultiset Z) :
  wf lb -> tl_ok last -> Forall (in_pool (n_ lb)) calls ->
  (let '(r, lb', _) := acquire lb last in
   0 <= r < n_ lb /\
   load (uses_ lb') r = wrap64 (load (uses_ lb) r + 1) /\
   load (uses_ (free lb' r)) r = load (uses_ lb) r /\
   free lb' r = lb) /\
  (forall i, 0 <= load (uses_ (run calls (lb, last, held)).1.1) i <= SIZE_MAX) /\
  (tracks lb held -> matched calls (lb, last, held) ->
   tracks (run calls (lb, last, held)).1.1 (run calls (lb, last, held)).2).
Proof.
  intros Hwf Hl Hpool. split; [|split].
  - destruct (acquire_effect lb last Hwf Hl) as (r & l' & Heq & Hr & Hl').
    pose proof (acquire_free _ _ _ _ _ Hwf Hl Heq) as Hfree.
    rewrite Heq. rewrite Hfree. simpl.
    destruct Hwf as [_ [Hlen _]].
    by rewrite (load_store_eq _ (n_ lb)).
  - intros i. destruct (run_wf calls lb last held Hwf Hl Hpool) as ([_ Hmem] & Hn & _).
    by apply (load_range _ _ _ Hmem).
  - intros Htr Hm. by apply run_tracks.
Qed.

Lemma free_undoes_acquire_witness :
  let calls := [Acquire; Acquire; Free 0; Acquire; Free 1; Free 0] in
  wf (fresh 2) /\ tl_ok 0 /\ Forall (in_pool 2) calls /\
  tracks (fresh 2) ∅ /\ matched calls (fresh 2, 0, ∅) /\
  free (acquire (fresh 2) 0).1.2 (acquire (fresh 2) 0).1.1 = fresh 2 /\
  (forall i, 0 <= load (uses_ (run calls (fresh 2, 0, ∅)).1.1) i <= SIZE_MAX) /\
  tracks (run calls (fresh 2, 0, ∅)).1.1 (run calls (fresh 2, 0, ∅)).2.
Proof.
  intros calls.
  assert (Hwf : wf (fresh 2)) by (apply fresh_wf; by vm_compute).
  assert (Hl : tl_ok 0) by (by vm_compute).
  assert (Hpool : Forall (in_pool 2) calls).
  { unfold calls. repeat constructor; simpl; lia. }
  assert (Htr : tracks (fresh 2) ∅) by apply fresh_tracks.
  assert (Hm : matched calls (fresh 2, 0, ∅)).
  { unfold calls.
    assert (E1 : acquire (fresh 2) 0 = (0, of_counters [1; 0], 0))
      by (by vm_compute).
    assert (E2 : acquire (of_counters [1; 0]) 0 = (1, of_counters [1; 1], 1))
      by (by vm_compute).
    assert (E3 : free (of_counters [1; 1]) 0 = of_counters [0; 1])
      by (by vm_compute).
    assert (E4 : acquire (of_counters [0; 1]) 1 = (0, of_counters [1; 1], 0))
      by (by vm_compute).
    assert (E5 : free (of_counters [1; 1]) 1 = of_counters [1; 0])
      by (by vm_compute).
    cbn [matched step]. rewrite E1. cbn [matched step]. rewrite E2.
    cbn [matched step]. rewrite E3. cbn [matched step]. rewrite E4.
    cbn [matched step]. rewrite E5. cbn [matched step snd].
    repeat split; multiset_solver. }
  destruct (free_undoes_acquire (fresh 2) 0 calls ∅ Hwf Hl Hpool)
    as (Hround & Hrange & Htracks).
  split; [exact Hwf|]. split; [exact Hl|]. split; [exact Hpool|].
  split; [exact Htr|]. split; [exact Hm|]. split; [|split].
  - destruct (acquire (fresh 2) 0) as [[r lb'] l']. simpl.
    by destruct Hround as (_ & _ & _ & Hround).
  - exact Hrange.
  - exact (Htracks Htr Hm).
Defined.

(** C7 (amended).  From a pool with every counter at zero, [k] successive
    calls of [acquire] by one thread, with no [free] between them and no
    other thread, return the [k] slots that follow the slot [last] names on
    entry, one after the other modulo the pool size, whenever [k] is at
    most the pool size.  These slots are distinct; they cover the whole
    pool when [k] is the pool size, and they are [0 .. k-1] when the scan
    of the first call starts at slot 0. *)
Theorem successive_acquires_rotate (k : nat) (lb : t) (last : Z) :
  wf lb -> tl_ok last -> all_idle lb -> Z.of_nat k <= n_ lb ->
  let rs := (acquire_many k lb last).1.1 in
  rs = (fun i => (norm (n_ lb) last + i) mod n_ lb) <$> seqZ 0 (Z.of_nat k) /\
  length rs = k /\
  NoDup rs /\
  (Z.of_nat k = n_ lb -> covers_prefix (n_ lb) rs) /\
  (norm (n_ lb) last = 0 -> rs = seqZ 0 (Z.of_nat k) /\ covers_prefix (Z.of_nat k) rs).
Proof.
  intros Hwf Hl Hidle Hk rs.
  assert (Hrs : rs = (fun i => (norm (n_ lb) last + i) mod n_ lb)
                       <$> seqZ 0 (Z.of_nat k))
    by (by apply acquire_many_idle).
  destruct Hwf as [Hn _].
  split; [exact Hrs|]. rewrite Hrs. split; [|split; [|split]].
  - rewrite length_fmap, length_seqZ. lia.
  - apply rotation_NoDup; lia.
  - intros ->. intros i Hi. apply rotation_covers; lia.
  - intros ->. rewrite rotation_from_zero by lia. split; [done|].
    intros i Hi. apply elem_of_seqZ. lia.
Qed.

Lemma successive_acquires_rotate_witness :
  wf (fresh 4) /\ tl_ok 1 /\ all_idle (fresh 4) /\
  (acquire_many 3 (fresh 4) 1).1.1 = [1; 2; 3] /\
  NoDup (acquire_many 4 (fresh 4) 1).1.1 /\
  covers_prefix 4 (acquire_many 4 (fresh 4) 1).1.1 /\
  covers_prefix 2 (acquire_many 2 (fresh 4) 0).1.1.
Proof.
  assert (Hwf : wf (fresh 4)) by (apply fresh_wf; by vm_compute).
  assert (Hl1 : tl_ok 1) by (by vm_compute).
  assert (Hl0 : tl_ok 0) by (by vm_compute).
  pose proof (fresh_idle 4) as Hidle.
  split; [exact Hwf|]. split; [exact Hl1|]. split; [exact Hidle|].
  split; [|split; [|split]].
  - exact (proj1 (successive_acquires_rotate 3 (fresh 4) 1 Hwf Hl1 Hidle
                    ltac:(simpl; lia))).
  - exact (proj1 (proj2 (proj2 (successive_acquires_rotate 4 (fresh 4) 1 Hwf Hl1
                    Hidle ltac:(simpl; lia))))).
  - exact (proj1 (proj2 (proj2 (proj2 (successive_acquires_rotate 4 (fresh 4) 1
                    Hwf Hl1 Hidle ltac:(simpl; lia))))) eq_refl).
  - exact (proj2 (proj2 (proj2 (proj2 (proj2 (successive_acquires_rotate 2
                    (fresh 4) 0 Hwf Hl0 Hidle ltac:(simpl; lia))))) eq_refl)).
Defined.

(** C7, counterexample.  A thread takes two slots of a pool of four and
    frees them: every counter is at zero again and [last] is 1.  Its next
    two calls return the slots 1 and 2, which do not cover [0 .. 1]. *)
Lemma acquires_prefix_counterexample :
  let st := run [Acquire; Acquire; Free 0; Free 1] (fresh 4, 0, ∅) in
  st.1.1 = fresh 4 /\ st.1.2 = 1 /\ all_idle st.1.1 /\
  (acquire_many 2 st.1.1 st.1.2).1.1 = [1; 2] /\
  ~ covers_prefix 2 (acquire_many 2 st.1.1 st.1.2).1.1.
Proof.
  intros st.
  assert (E1 : st.1.1 = fresh 4) by (by vm_compute).
  assert (E2 : st.1.2 = 1) by (by vm_compute).
  assert (E3 : (acquire_many 2 (fresh 4) 1).1.1 = [1; 2]) by (by vm_compute).
  rewrite E1, E2, E3. split; [done|]. split; [done|].
  split; [apply fresh_idle|]. split; [done|].
  intros Hcov. specialize (Hcov 0 ltac:(lia)).
  apply elem_of_cons in Hcov as [Hcov|Hcov]; [lia|].
  apply elem_of_cons in Hcov as [Hcov|Hcov]; [lia|].
  by apply elem_of_nil in Hcov.
Qed.

End LoadBalancerClaims.

(** * The claim about the registration entry points *)

Module EmbeddedClaims.
Import Embedded.

(** C9.  [register_embedded_interpreter], and its [_cuda] variant, on two
    pointers less than [2 ^ 63] bytes apart, as the two ends of an image
    are, raise the structured error exactly when the start pointer is null,
    the end pointer is null, or the end is not strictly after the start;
    when the checks pass they record the two pointers in the file-scope
    pair they are in charge of and leave the other pair alone. *)
Theorem register_checks (lib_start lib_end : Z) (g : globals) :
  pointer lib_start -> pointer lib_end -> one_image lib_start lib_end ->
  ((lib_start = nullptr \/ lib_end = nullptr \/
    empty_or_inverted lib_start lib_end) <->
   exists msg, register_embedded_interpreter lib_start lib_end g = inl msg) /\
  ((lib_start = nullptr \/ lib_end = nullptr \/
    empty_or_inverted lib_start lib_end) <->
   exists msg, register_embedded_interpreter_cuda lib_start lib_end g = inl msg) /\
  (~ (lib_start = nullptr \/ lib_end = nullptr \/
      empty_or_inverted lib_start lib_end) ->
   register_embedded_interpreter lib_start lib_end g =
     inr (Globals lib_start lib_end
            (embedded_interpreter_cuda_so_start g)
            (embedded_interpreter_cuda_so_end g)) /\
   register_embedded_interpreter_cuda lib_start lib_end g =
     inr (Globals (embedded_interpreter_so_start g)
            (embedded_interpreter_so_end g) lib_start lib_end)).
Proof.
  intros _ _ Hone.
  unfold register_embedded_interpreter, register_embedded_interpreter_cuda,
    TORCH_CHECK, empty_or_inverted, nullptr.
  rewrite (EmbeddedFacts.ptrdiff_t_small _ Hone).
  destruct (Z.eqb_spec lib_start 0) as [Hs|Hs];
    destruct (Z.eqb_spec lib_end 0) as [He|He];
    destruct (Z.gtb_spec (lib_end - lib_start) 0) as [Hd|Hd]; simpl;
    (split; [|split]);
    try (split; [intros _; by eexists | intros _; lia]);
    try (split; [intros [?|[?|?]]; lia | intros [msg Hmsg]; discriminate]);
    try (intros Hgood; exfalso; apply Hgood; lia);
    try (intros _; done).
Qed.

Lemma register_checks_witness :
  (exists msg, register_embedded_interpreter 4096 4096 initial = inl msg) /\
  (exists msg, register_embedded_interpreter_cuda nullptr 4096 initial = inl msg) /\
  (exists msg, register_embedded_interpreter 8192 4096 initial = inl msg) /\
  register_embedded_interpreter 4096 8192 initial =
    inr (Globals 4096 8192 nullptr nullptr).
Proof.
  assert (Hp0 : pointer nullptr) by (unfold pointer, nullptr; lia).
  assert (Hp1 : pointer 4096) by (unfold pointer; lia).
  assert (Hp2 : pointer 8192) by (unfold pointer; lia).
  split; [|split; [|split]].
  - apply (proj1 (register_checks 4096 4096 initial Hp1 Hp1
                    ltac:(unfold one_image; lia))).
    right. right. unfold empty_or_inverted. lia.
  - apply (proj1 (proj2 (register_checks nullptr 4096 initial Hp0 Hp1
                           ltac:(unfold one_image, nullptr; lia)))).
    by left.
  - apply (proj1 (register_checks 8192 4096 initial Hp2 Hp1
                    ltac:(unfold one_image; lia))).
    right. right. unfold empty_or_inverted. lia.
  - apply (proj2 (proj2 (register_checks 4096 8192 initial Hp1 Hp2
                           ltac:(unfold one_image; lia)))).
    unfold empty_or_inverted, nullptr. lia.
Defined.

End EmbeddedClaims.

(** * The claims about sessions and replicated objects *)

Section DeployClaims.
Context {Obj PickledObject ImplState : Type}.
Context {RT : InterpreterSessionImpl Obj PickledObject ImplState}.

Local Abbreviation World := (World PickledObject ImplState).
Local Abbreviation creation := (creation Obj PickledObject).

(** C6.  The destructor of a session frees the slot [notify_idx_] of its
    manager's balancer, once, when the session has a manager and a
    non-negative [notify_idx_], and does nothing otherwise.  A session that
    [acquire_one] returns is of the first kind, with the slot the balancer
    handed out, and its destructor puts the balancer back as it was before
    [acquire_one]; a session that [Interpreter::acquire_session] returns is
    of the second kind. *)
Theorem session_dtor_frees_slot (sess : InterpreterSession.t Obj) (w : World) :
  (forall p m,
     InterpreterSession.manager_ sess = Some p ->
     0 <= InterpreterSession.notify_idx_ sess ->
     managers w !! p = Some m ->
     InterpreterSession_dtor sess w =
       Returns tt
         (MkWorld
            (<[p := InterpreterManager.Build (InterpreterManager.next_object_id_ m)
                      (InterpreterManager.instances_ m)
                      (LoadBalancer.free (InterpreterManager.resources_ m)
                         (InterpreterSession.notify_idx_ sess))]> (managers w))
            (interpreters w) (objects w) (last w)
            (events w ++ [SlotFreed p (InterpreterSession.notify_idx_ sess)]))) /\
  (InterpreterSession.manager_ sess = None \/
   InterpreterSession.notify_idx_ sess < 0 ->
   InterpreterSession_dtor sess w = Returns tt w) /\
  (forall p m,
     pool_ok w p m -> LoadBalancer.tl_ok (last w) ->
     exists (s1 : InterpreterSession.t Obj) w1 w2,
       InterpreterManager_acquire_one p w = Returns s1 w1 /\
       InterpreterSession.manager_ s1 = Some p /\
       InterpreterSession.notify_idx_ s1 =
         (LoadBalancer.acquire (InterpreterManager.resources_ m) (last w)).1.1 /\
       0 <= InterpreterSession.notify_idx_ s1 /\
       InterpreterSession_dtor s1 w1 = Returns tt w2 /\
       managers w2 = managers w /\
       events w2 =
         events w1 ++ [SlotFreed p (InterpreterSession.notify_idx_ s1)]) /\
  (forall i it,
     interpreters w !! i = Some it ->
     exists (s1 : InterpreterSession.t Obj) w1,
       Interpreter_acquire_session i w = Returns s1 w1 /\
       InterpreterSession.notify_idx_ s1 < 0 /\
       InterpreterSession_dtor s1 w1 = Returns tt w1).
Proof.
  split; [|split; [|split]].
  - intros p m Hp Hidx Hm. by apply InterpreterSession_dtor_tagged.
  - apply InterpreterSession_dtor_untagged.
  - intros p m Hpool Hl.
    destruct (acquire_one_spec (Obj:=Obj) p m w Hpool Hl)
      as (where_ & lb & l' & i & it & Hacq & Hr & Hi & Hit & Hrun).
    destruct Hpool as (Hm & Hwf & _).
    eexists _, _, _. split; [exact Hrun|]. simpl.
    split; [done|]. split; [by rewrite Hacq|]. split; [lia|].
    rewrite (InterpreterSession_dtor_tagged _ p
               (InterpreterManager.Build (InterpreterManager.next_object_id_ m)
                  (InterpreterManager.instances_ m) lb));
      [| done | simpl; lia | simpl; by rewrite lookup_insert_eq].
    split; [done|]. simpl. split; [|done].
    rewrite insert_insert_eq.
    rewrite (LoadBalancerFacts.acquire_free _ _ _ _ _ Hwf Hl Hacq).
    apply insert_id. rewrite Hm. by destruct m.
  - intros i it Hit.
    eexists _, _. split; [by apply Interpreter_acquire_session_spec|].
    simpl. split; [lia|].
    apply InterpreterSession_dtor_untagged. right. simpl. lia.
Qed.

(** C5.  [unload] with no interpreter runs the body of [unload] once on
    each interpreter of the manager's pool, in the order of the pool; each
    run acquires a session on that interpreter and has the runtime of that
    interpreter drop the object's id.  The destructor of the
    [ReplicatedObjImpl] is this sweep, and it runs when the last handle is
    destroyed. *)
Theorem unload_sweeps_pool (this : ReplicatedObjImpl.t PickledObject)
    (w : World) (p : mptr) (m : InterpreterManager.t) :
  ReplicatedObjImpl.manager_ this = Some p ->
  managers w !! p = Some m ->
  (forall i, i ∈ InterpreterManager.instances_ m -> is_Some (interpreters w !! i)) ->
  let id := ReplicatedObjImpl.object_id_ this in
  let pool := InterpreterManager.instances_ m in
  (forall i it,
     interpreters w !! i = Some it ->
     ReplicatedObjImpl_unload this (Some i) w =
       Returns tt
         (MkWorld (managers w)
            (<[i := Interpreter.Build ImplState (unload (Interpreter.pImpl_ it) id)
                      (Interpreter.manager_ it)]> (interpreters w))
            (objects w) (last w)
            (events w ++ [SessionAcquired i; Unloaded i id]))) /\
  (ReplicatedObjImpl_unload this None w =
     for_each (fun i => ReplicatedObjImpl_unload this (Some i)) pool w) /\
  (exists w',
     ReplicatedObjImpl_unload this None w = Returns tt w' /\
     events w' = events w ++ (pool ≫= fun i => [SessionAcquired i; Unloaded i id]) /\
     interpreters w' = sweep_interpreters id pool (interpreters w) /\
     managers w' = managers w /\ objects w' = objects w /\ last w' = last w /\
     ReplicatedObjImpl_dtor this w = Returns tt w' /\
     (forall h,
        objects w !! ReplicatedObj.pImpl_ h = Some (this, 1%nat) ->
        ReplicatedObj_dtor h w =
          Returns tt
            (MkWorld (managers w') (interpreters w')
               (delete (ReplicatedObj.pImpl_ h) (objects w')) (last w')
               (events w')))) /\
  (forall h owners,
     objects w !! ReplicatedObj.pImpl_ h = Some (this, S (S owners)) ->
     ReplicatedObj_dtor h w =
       Returns tt
         (MkWorld (managers w) (interpreters w)
            (<[ReplicatedObj.pImpl_ h := (this, S owners)]> (objects w))
            (last w) (events w))).
Proof.
  intros Hp Hm Hall id pool.
  split; [|split; [|split]].
  - intros i it Hit. apply (unload_on_spec this _ _ _ Hit).
  - unfold ReplicatedObjImpl_unload. rewrite Hp. cbn beta iota.
    unfold InterpreterManager_all_instances.
    rewrite (bind_Returns _ _ w w (InterpreterManager.instances_ m)) by
      (by rewrite (bind_Returns _ _ _ _ _ (manager_at_Some _ _ _ Hm))).
    done.
  - destruct (unload_all_spec this p m w Hp Hm Hall)
      as (w' & Hrun & Hmgr & Hobj & Hlast & Hev & Hint).
    exists w'. repeat split; try done.
    intros h Hh. unfold ReplicatedObj_dtor. rewrite Hh.
    unfold ReplicatedObjImpl_dtor.
    by rewrite (bind_Returns _ _ _ _ _ Hrun).
  - intros h owners Hh. unfold ReplicatedObj_dtor. by rewrite Hh.
Qed.

(** C10.  [unload], on one interpreter or on the whole pool, and the
    destructor of the [ReplicatedObjImpl], leave every manager, and with
    it every usage counter, as it was, and the thread-local [last] too:
    no slot is acquired and none is freed, because the session each run
    creates comes from [Interpreter::acquire_session] and carries no
    slot. *)
Theorem unload_keeps_balancer (this : ReplicatedObjImpl.t PickledObject)
    (w : World) (p : mptr) (m : InterpreterManager.t) :
  ReplicatedObjImpl.manager_ this = Some p ->
  managers w !! p = Some m ->
  (forall i, i ∈ InterpreterManager.instances_ m -> is_Some (interpreters w !! i)) ->
  (forall i,
     is_Some (interpreters w !! i) ->
     exists w',
       ReplicatedObjImpl_unload this (Some i) w = Returns tt w' /\
       managers w' = managers w /\ last w' = last w /\
       exists new, events w' = events w ++ new /\
                   Forall (fun e => ~ touches_balancer e) new) /\
  (exists w',
     ReplicatedObjImpl_unload this None w = Returns tt w' /\
     ReplicatedObjImpl_dtor this w = Returns tt w' /\
     managers w' = managers w /\ last w' = last w /\
     exists new, events w' = events w ++ new /\
                 Forall (fun e => ~ touches_balancer e) new) /\
  (forall h owners,
     objects w !! ReplicatedObj.pImpl_ h = Some (this, owners) ->
     exists w',
       ReplicatedObj_dtor h w = Returns tt w' /\
       managers w' = managers w /\ last w' = last w /\
       exists new, events w' = events w ++ new /\
                   Forall (fun e => ~ touches_balancer e) new).
Proof.
  intros Hp Hm Hall.
  destruct (unload_all_spec this p m w Hp Hm Hall)
    as (w' & Hrun & Hmgr & Hobj & Hlast & Hev & Hint).
  split; [|split].
  - intros i [it Hit]. eexists. split; [apply (unload_on_spec this _ _ _ Hit)|].
    simpl. split; [done|]. split; [done|]. eexists. split; [done|].
    repeat constructor; by intros [].
  - exists w'. split; [done|]. split; [done|]. split; [done|]. split; [done|].
    eexists. split; [exact Hev|]. apply sweep_events_quiet.
  - intros h owners Hh. unfold ReplicatedObj_dtor. rewrite Hh.
    destruct owners as [|[|owners]].
    + unfold ReplicatedObjImpl_dtor. rewrite (bind_Returns _ _ _ _ _ Hrun).
      eexists. split; [done|]. simpl. split; [done|]. split; [done|].
      eexists. split; [exact Hev|]. apply sweep_events_quiet.
    + unfold ReplicatedObjImpl_dtor. rewrite (bind_Returns _ _ _ _ _ Hrun).
      eexists. split; [done|]. simpl. split; [done|]. split; [done|].
      eexists. split; [exact Hev|]. apply sweep_events_quiet.
    + eexists. split; [done|]. simpl. split; [done|]. split; [done|].
      exists []. split; [by rewrite app_nil_r | constructor].
Qed.

(** C4.  [create_movable] throws the structured error when the session has
    no manager.  When it has one, it pickles the object through the
    session's runtime, takes the next id from the manager's counter, and
    returns a handle, the only one so far, to a new [ReplicatedObjImpl]
    made of this id, the payload and the manager; when [pickle] fails its
    error goes to the caller and no id is taken. *)
Theorem create_movable_result (sess : InterpreterSession.t Obj) (obj : Obj)
    (w : World) :
  (InterpreterSession.manager_ sess = None ->
   InterpreterSession_create_movable sess obj w = Throws create_movable_error w) /\
  (forall p m it pickled,
     InterpreterSession.manager_ sess = Some p ->
     managers w !! p = Some m ->
     interpreters w !! InterpreterSession.impl_ sess = Some it ->
     pickle (Interpreter.pImpl_ it) (InterpreterSession.self sess) obj = inr pickled ->
     let o := fresh (dom (objects w)) in
     let id := InterpreterManager.next_object_id_ m in
     objects w !! o = None /\
     InterpreterSession_create_movable sess obj w =
       Returns (ReplicatedObj.Build o)
         (MkWorld
            (<[p := InterpreterManager.Build (id + 1)
                      (InterpreterManager.instances_ m)
                      (InterpreterManager.resources_ m)]> (managers w))
            (interpreters w)
            (<[o := (ReplicatedObjImpl.Build PickledObject id pickled (Some p),
                     1%nat)]> (objects w))
            (last w)
            (events w ++ [IdAllocated p id]))) /\
  (forall p it msg,
     InterpreterSession.manager_ sess = Some p ->
     interpreters w !! InterpreterSession.impl_ sess = Some it ->
     pickle (Interpreter.pImpl_ it) (InterpreterSession.self sess) obj = inl msg ->
     InterpreterSession_create_movable sess obj w = Throws msg w).
Proof.
  unfold InterpreterSession_create_movable. split; [|split].
  - by intros ->.
  - intros p m it pickled Hp Hm Hit Hpickle. rewrite Hp. split.
    { apply not_elem_of_dom. apply is_fresh. }
    unfold bind at 1. rewrite (impl_pickle_spec _ _ _ _ _ Hit), Hpickle.
    by rewrite (bind_Returns _ _ _ _ _ (next_object_id_incr_spec _ _ _ Hm)).
  - intros p it msg Hp Hit Hpickle. rewrite Hp.
    unfold bind at 1. by rewrite (impl_pickle_spec _ _ _ _ _ Hit), Hpickle.
Qed.

(** C8.  [acquire_session] of a replicated object takes its session from
    the interpreter it is given, or else from [acquire_one] of the object's
    manager; in both cases it materializes the object in that session with
    [from_movable] and returns the session with the result as [self].
    When [from_movable] fails the session is destroyed, which gives the
    slot back, and the error goes to the caller. *)
Theorem acquire_session_binds_object (this : ReplicatedObj.t) (w : World)
    (impl : ReplicatedObjImpl.t PickledObject) (owners : nat) :
  objects w !! ReplicatedObj.pImpl_ this = Some (impl, owners) ->
  let id := ReplicatedObjImpl.object_id_ impl in
  let data := ReplicatedObjImpl.data_ impl in
  (forall i it,
     interpreters w !! i = Some it ->
     let s0 := InterpreterSession.Build Obj i (Interpreter.manager_ it) (-1) None in
     let w0 := MkWorld (managers w) (interpreters w) (objects w) (last w)
                 (events w ++ [SessionAcquired i]) in
     Interpreter_acquire_session i w = Returns s0 w0 /\
     match unpickle_or_get (Interpreter.pImpl_ it) id data with
     | inr (v, st) =>
         let w1 := MkWorld (managers w)
                     (<[i := Interpreter.Build ImplState st (Interpreter.manager_ it)]>
                        (interpreters w))
                     (objects w) (last w) (events w ++ [SessionAcquired i]) in
         InterpreterSession_from_movable s0 this w0 = Returns v w1 /\
         ReplicatedObj_acquire_session this (Some i) w =
           Returns (InterpreterSession.Build Obj i (Interpreter.manager_ it) (-1)
                      (Some v)) w1
     | inl msg =>
         ReplicatedObj_acquire_session this (Some i) w = Throws msg w0
     end) /\
  (forall p m,
     ReplicatedObjImpl.manager_ impl = Some p ->
     pool_ok w p m -> LoadBalancer.tl_ok (last w) ->
     exists where_ lb l' i it,
       LoadBalancer.acquire (InterpreterManager.resources_ m) (last w) =
         (where_, lb, l') /\
       InterpreterManager.instances_ m !! Z.to_nat where_ = Some i /\
       interpreters w !! i = Some it /\
       let s0 := InterpreterSession.Build Obj i (Some p) where_ None in
       let w0 := MkWorld
                   (<[p := InterpreterManager.Build
                             (InterpreterManager.next_object_id_ m)
                             (InterpreterManager.instances_ m) lb]> (managers w))
                   (interpreters w) (objects w) l'
                   (events w ++ [SlotAcquired p where_; SessionAcquired i]) in
       InterpreterManager_acquire_one p w = Returns s0 w0 /\
       match unpickle_or_get (Interpreter.pImpl_ it) id data with
       | inr (v, st) =>
           let w1 := MkWorld (managers w0)
                       (<[i := Interpreter.Build ImplState st
                                 (Interpreter.manager_ it)]> (interpreters w))
                       (objects w) l' (events w0) in
           InterpreterSession_from_movable s0 this w0 = Returns v w1 /\
           ReplicatedObj_acquire_session this None w =
             Returns (InterpreterSession.Build Obj i (Some p) where_ (Some v)) w1
       | inl msg =>
           ReplicatedObj_acquire_session this None w =
             Throws msg
               (MkWorld (managers w) (interpreters w) (objects w) l'
                  (events w0 ++ [SlotFreed p where_]))
       end).
Proof.
  intros Hobj id data. split.
  - intros i it Hit s0 w0.
    pose proof (Interpreter_acquire_session_spec (Obj:=Obj) i it w Hit) as Hacq.
    split; [exact Hacq|].
    unfold ReplicatedObj_acquire_session.
    rewrite (bind_Returns _ _ _ _ _ Hacq).
    assert (Hfrom : InterpreterSession_from_movable s0 this w0 =
              match unpickle_or_get (Interpreter.pImpl_ it) id data with
              | inr (v, st) =>
                  Returns v
                    (MkWorld (managers w)
                       (<[i := Interpreter.Build ImplState st
                                 (Interpreter.manager_ it)]> (interpreters w))
                       (objects w) (last w) (events w ++ [SessionAcquired i]))
              | inl msg => Throws msg w0
              end).
    { unfold InterpreterSession_from_movable, bind, object_at,
        impl_unpickle_or_get, bind, interpreter_at, store_interpreter, ret, throw.
      simpl. rewrite Hobj. simpl. rewrite Hit. fold id data.
      by destruct (unpickle_or_get (Interpreter.pImpl_ it) id data) as [msg|[v st]]. }
    destruct (unpickle_or_get (Interpreter.pImpl_ it) id data) as [msg|[v st]].
    + unfold on_throw. rewrite (bind_Throws _ _ _ _ _ Hfrom).
      by rewrite InterpreterSession_dtor_untagged by (right; simpl; lia).
    + split; [exact Hfrom|].
      unfold on_throw. by rewrite (bind_Returns _ _ _ _ _ Hfrom).
  - intros p m Hp Hpool Hl.
    destruct (acquire_one_spec (Obj:=Obj) p m w Hpool Hl)
      as (where_ & lb & l' & i & it & Hacq & Hr & Hi & Hit & Hrun).
    exists where_, lb, l', i, it.
    split; [done|]. split; [done|]. split; [done|]. intros s0 w0.
    split; [exact Hrun|].
    unfold ReplicatedObj_acquire_session.
    rewrite (bind_Returns _ _ w w0 s0) by
      (unfold bind, object_at; by rewrite Hobj, Hp).
    assert (Hfrom : InterpreterSession_from_movable s0 this w0 =
              match unpickle_or_get (Interpreter.pImpl_ it) id data with
              | inr (v, st) =>
                  Returns v
                    (MkWorld (managers w0)
                       (<[i := Interpreter.Build ImplState st
                                 (Interpreter.manager_ it)]> (interpreters w))
                       (objects w) l' (events w0))
              | inl msg => Throws msg w0
              end).
    { unfold InterpreterSession_from_movable, bind, object_at,
        impl_unpickle_or_get, bind, interpreter_at, store_interpreter, ret, throw.
      simpl. rewrite Hobj. simpl. rewrite Hit. fold id data.
      by destruct (unpickle_or_get (Interpreter.pImpl_ it) id data) as [msg|[v st]]. }
    destruct (unpickle_or_get (Interpreter.pImpl_ it) id data) as [msg|[v st]];
      [|split; [exact Hfrom|];
        unfold on_throw; by rewrite (bind_Returns _ _ _ _ _ Hfrom)].
    unfold on_throw. rewrite (bind_Throws _ _ _ _ _ Hfrom).
    destruct Hpool as (Hm & Hwf & _).
    rewrite (InterpreterSession_dtor_tagged _ p
               (InterpreterManager.Build (InterpreterManager.next_object_id_ m)
                  (InterpreterManager.instances_ m) lb));
      [| done | simpl; lia | simpl; by rewrite lookup_insert_eq].
    simpl. do 2 f_equal. rewrite insert_insert_eq.
    rewrite (LoadBalancerFacts.acquire_free _ _ _ _ _ Hwf Hl Hacq).
    apply insert_id. rewrite Hm. by destruct m.
Qed.

(** C3.  Threads that run [create_movable] at the same time, one step at a
    time in any order, on sessions of any managers, with [next_object_id_++]
    one atomic step: the ids that manager [p] hands out during the run are
    the values of its counter from the value at the start on, in this
    order, hence strictly increasing, and they continue an increasing
    sequence of ids handed out before; after the run no two replicated
    objects of one manager carry the same id, and every object a thread has
    returned is among them.  The three steps of one thread, run without a
    break, are [create_movable]. *)
Theorem object_ids_unique_increasing (sched : list nat) (ts : list creation)
    (w : World) (p : mptr) (m : InterpreterManager.t) :
  managers w !! p = Some m ->
  Forall calling ts ->
  ids_unique w -> ids_below w ->
  (exists ts' w' m',
     interleave true sched ts w = (ts', w') /\
     managers w' !! p = Some m' /\
     let n0 := InterpreterManager.next_object_id_ m in
     let n1 := InterpreterManager.next_object_id_ m' in
     n0 <= n1 /\
     ids_allocated p (events w') = ids_allocated p (events w) ++ seqZ n0 (n1 - n0) /\
     StronglySorted Z.lt (seqZ n0 (n1 - n0)) /\
     (StronglySorted Z.lt (ids_allocated p (events w)) ->
      Forall (fun id => id < n0) (ids_allocated p (events w)) ->
      StronglySorted Z.lt (ids_allocated p (events w')) /\
      Forall (fun id => id < n1) (ids_allocated p (events w'))) /\
     ids_unique w' /\ ids_below w' /\
     (forall t r, ts' !! t = Some (Done r) ->
                  is_Some (objects w' !! ReplicatedObj.pImpl_ r))) /\
  (forall sess obj (w0 : World),
     let s1 := creation_step true (AtPickle sess obj) w0 in
     let s2 := creation_step true s1.1 s1.2 in
     let s3 := creation_step true s2.1 s2.2 in
     handed s3.1 s3.2 = Some (InterpreterSession_create_movable sess obj w0)).
Proof.
  intros Hm Hcall Huniq Hbelow. split.
  - destruct (interleave_ok sched ts w p (InterpreterManager.next_object_id_ m)
                (ids_allocated p (events w)))
      as ((Huniq' & Hbelow' & _ & _ & _ & Hdone & _) & (m' & Hm' & Hle & Hids)).
    { split; [done|]. split; [done|]. by apply threads_ok_calling. }
    { exists m. split; [done|]. split; [lia|].
      rewrite Z.sub_diag. simpl. by rewrite app_nil_r. }
    destruct (interleave true sched ts w) as [ts' w'] eqn:E. simpl in *.
    exists ts', w', m'. split; [done|]. split; [done|]. simpl.
    split; [done|]. split; [done|]. split; [apply seqZ_increasing|].
    split; [|split; [done|]; split; [done|]; exact Hdone].
    intros Hsorted Hold. rewrite Hids. rewrite Forall_forall in Hold. split.
    + apply StronglySorted_app_2; [|done|apply seqZ_increasing].
      intros x1 x2 Hx1 Hx2. apply elem_of_seqZ in Hx2.
      specialize (Hold _ Hx1). lia.
    + apply Forall_app. split; apply Forall_forall; intros x Hx.
      * specialize (Hold _ Hx). lia.
      * apply elem_of_seqZ in Hx. lia.
  - intros sess obj w0 s1 s2 s3.
    pose proof (create_movable_steps sess obj w0) as Hsteps.
    unfold s3, s2, s1.
    destruct (creation_step true (AtPickle sess obj) w0) as [c1 w1]. simpl.
    destruct (creation_step true c1 w1) as [c2 w2]. simpl.
    by destruct (creation_step true c2 w2) as [c3 w3].
Qed.

End DeployClaims.

(** * The claims on an example *)

Section Examples.
Local Existing Instance Arena.runtime.

Lemma arena_pool_ok : pool_ok Arena.world 1%positive Arena.manager.
Proof.
  split; [done|]. split; [apply LoadBalancerFacts.fresh_wf; by vm_compute|].
  split; [done|]. intros i Hi.
  apply elem_of_cons in Hi as [->|Hi]; [by eexists|].
  apply elem_of_cons in Hi as [->|Hi]; [by eexists|].
  by apply elem_of_nil in Hi.
Qed.

Lemma arena_instances (w := Arena.world) :
  forall i, i ∈ InterpreterManager.instances_ Arena.manager ->
            is_Some (interpreters w !! i).
Proof.
  intros i Hi. destruct (proj2 (proj2 (proj2 arena_pool_ok)) i Hi) as (it & Hit & _).
  by exists it.
Qed.

Lemma session_dtor_frees_slot_witness :
  pool_ok Arena.world 1%positive Arena.manager /\
  LoadBalancer.tl_ok (last Arena.world) /\
  (exists (s1 : InterpreterSession.t Z) w1 w2,
     InterpreterManager_acquire_one 1%positive Arena.world = Returns s1 w1 /\
     InterpreterSession.manager_ s1 = Some 1%positive /\
     0 <= InterpreterSession.notify_idx_ s1 /\
     InterpreterSession_dtor s1 w1 = Returns tt w2 /\
     managers w2 = managers Arena.world) /\
  InterpreterSession_dtor Arena.lone_session Arena.world = Returns tt Arena.world.
Proof.
  assert (Hl : LoadBalancer.tl_ok (last Arena.world)) by (by vm_compute).
  destruct (session_dtor_frees_slot Arena.lone_session Arena.world)
    as (_ & Hnone & Hone & _).
  split; [exact arena_pool_ok|]. split; [exact Hl|]. split.
  - destruct (Hone 1%positive Arena.manager arena_pool_ok Hl)
      as (s1 & w1 & w2 & Hacq & Hmgr & _ & Hidx & Hdtor & Hsame & _).
    exists s1, w1, w2. repeat split; assumption.
  - apply Hnone. by left.
Defined.

Lemma unload_sweeps_pool_witness :
  ReplicatedObjImpl.manager_ Arena.object = Some 1%positive /\
  managers Arena.world !! 1%positive = Some Arena.manager /\
  exists w',
    ReplicatedObjImpl_unload Arena.object None Arena.world = Returns tt w' /\
    events w' = [SessionAcquired 1%positive; Unloaded 1%positive 0;
                 SessionAcquired 2%positive; Unloaded 2%positive 0].
Proof.
  split; [done|]. split; [done|].
  destruct (unload_sweeps_pool Arena.object Arena.world 1%positive Arena.manager
              eq_refl eq_refl arena_instances)
    as (_ & _ & (w' & Hrun & Hev & _) & _).
  exists w'. split; [exact Hrun | exact Hev].
Defined.

Lemma unload_keeps_balancer_witness :
  ReplicatedObjImpl.manager_ Arena.object = Some 1%positive /\
  managers Arena.world !! 1%positive = Some Arena.manager /\
  exists w',
    ReplicatedObjImpl_unload Arena.object None Arena.world = Returns tt w' /\
    managers w' = managers Arena.world /\ last w' = last Arena.world.
Proof.
  split; [done|]. split; [done|].
  destruct (unload_keeps_balancer Arena.object Arena.world 1%positive Arena.manager
              eq_refl eq_refl arena_instances)
    as (_ & (w' & Hrun & _ & Hmgr & Hlast & _) & _).
  exists w'. split; [exact Hrun|]. split; [exact Hmgr | exact Hlast].
Defined.

Lemma create_movable_result_witness :
  InterpreterSession_create_movable Arena.lone_session 7 Arena.world =
    Throws create_movable_error Arena.world /\
  (exists o w',
     InterpreterSession_create_movable Arena.session 7 Arena.world =
       Returns (ReplicatedObj.Build o) w' /\
     objects w' !! o = Some (ReplicatedObjImpl.Build Z 0 7 (Some 1%positive), 1%nat) /\
     managers w' !! 1%positive =
       Some (InterpreterManager.Build 1 [1%positive; 2%positive]
               (LoadBalancer.fresh 2))) /\
  InterpreterSession_create_movable Arena.session (-3) Arena.world =
    Throws "cannot pickle" Arena.world.
Proof.
  split; [|split].
  - by apply (proj1 (create_movable_result (RT:=Arena.runtime) Arena.lone_session 7 Arena.world)).
  - destruct (proj1 (proj2 (create_movable_result (RT:=Arena.runtime) Arena.session 7 Arena.world))
                1%positive Arena.manager
                (Interpreter.Build (gmap Z Z) ∅ (Some 1%positive)) 7
                eq_refl eq_refl eq_refl eq_refl) as [_ Hrun].
    eexists _, _. split; [exact Hrun|]. simpl.
    split; [apply lookup_insert_eq | apply lookup_insert_eq].
  - by apply (proj2 (proj2 (create_movable_result (RT:=Arena.runtime) Arena.session (-3) Arena.world))
                1%positive (Interpreter.Build (gmap Z Z) ∅ (Some 1%positive))).
Defined.

Lemma acquire_session_binds_object_witness :
  objects Arena.world_with_object !! 1%positive = Some (Arena.object, 1%nat) /\
  (exists w1,
     ReplicatedObj_acquire_session (ReplicatedObj.Build 1) (Some 2%positive)
       Arena.world_with_object =
     Returns (InterpreterSession.Build Z 2%positive (Some 1%positive) (-1) (Some 42))
       w1) /\
  (exists where_ i w1,
     ReplicatedObj_acquire_session (ReplicatedObj.Build 1) None
       Arena.world_with_object =
     Returns (InterpreterSession.Build Z i (Some 1%positive) where_ (Some 42)) w1).
Proof.
  assert (Hobj : objects Arena.world_with_object !! 1%positive =
                   Some (Arena.object, 1%nat)) by done.
  destruct (acquire_session_binds_object (ReplicatedObj.Build 1)
              Arena.world_with_object Arena.object 1%nat Hobj) as [Hon Hany].
  split; [exact Hobj|]. split.
  - destruct (Hon 2%positive (Interpreter.Build (gmap Z Z) ∅ (Some 1%positive))
                eq_refl) as [_ Hrun].
    eexists. exact (proj2 Hrun).
  - destruct (Hany 1%positive
                (InterpreterManager.Build 1 [1%positive; 2%positive]
                   (LoadBalancer.fresh 2)))
      as (where_ & lb & l' & i & it & Hacq & Hi & Hit & _ & Hrun);
      [done| |by vm_compute|].
    { destruct arena_pool_ok as (_ & Hwf & Hn & Hpool).
      split; [done|]. split; [exact Hwf|]. split; [exact Hn | exact Hpool]. }
    assert (Hit' : it = Interpreter.Build (gmap Z Z) ∅ (Some 1%positive)).
    { apply list_elem_of_lookup_2 in Hi.
      apply elem_of_cons in Hi as [->|Hi]; [by injection Hit as <-|].
      apply elem_of_cons in Hi as [->|Hi]; [by injection Hit as <-|].
      by apply elem_of_nil in Hi. }
    subst it. exists where_, i. eexists. exact (proj2 Hrun).
Defined.

Lemma object_ids_unique_increasing_witness :
  let ts := [AtPickle Arena.session 10; AtPickle Arena.session 20;
             AtPickle Arena.session (-5)] in
  let sched := [0; 1; 1; 0; 2; 0; 1; 2; 2]%nat in
  managers Arena.world !! 1%positive = Some Arena.manager /\
  Forall calling ts /\
  ids_unique Arena.world /\ ids_below Arena.world /\
  exists ts' w' m',
    interleave true sched ts Arena.world = (ts', w') /\
    managers w' !! 1%positive = Some m' /\
    ids_allocated 1%positive (events w') =
      seqZ 0 (InterpreterManager.next_object_id_ m') /\
    ids_unique w'.
Proof.
  intros ts sched.
  assert (Hcall : Forall calling ts) by (repeat constructor).
  assert (Huniq : ids_unique Arena.world) by (by intros o1 o2 ? ? ? ? ? Ho1).
  assert (Hbelow : ids_below Arena.world) by (by intros o ? ? ? ? Ho).
  split; [done|]. split; [exact Hcall|]. split; [exact Huniq|].
  split; [exact Hbelow|].
  destruct (proj1 (object_ids_unique_increasing sched ts Arena.world 1%positive
                     Arena.manager eq_refl Hcall Huniq Hbelow))
    as (ts' & w' & m' & Hrun & Hm' & _ & Hids & _ & _ & Huniq' & _).
  exists ts', w', m'. split; [exact Hrun|]. split; [exact Hm'|].
  split; [|exact Huniq'].
  simpl in Hids. by rewrite Z.sub_0_r in Hids.
Defined.

(** Were [next_object_id_++] a read followed by a write, two threads could
    both read the counter before either writes it, and their objects would
    carry the same id. *)
Lemma split_increment_collides :
  let ts := [AtPickle Arena.session 10; AtPickle Arena.session 20] in
  let sched := [0; 1; 0; 1; 0; 1; 0; 1]%nat in
  ~ ids_unique (interleave false sched ts Arena.world).2.
Proof.
  intros ts sched Huniq.
  assert (H1 : objects (interleave false sched ts Arena.world).2 !! 1%positive =
                 Some (ReplicatedObjImpl.Build Z 0 10 (Some 1%positive), 1%nat))
    by (by vm_compute).
  assert (H2 : objects (interleave false sched ts Arena.world).2 !! 2%positive =
                 Some (ReplicatedObjImpl.Build Z 0 20 (Some 1%positive), 1%nat))
    by (by vm_compute).
  by specialize (Huniq _ _ _ _ _ _ 1%positive H1 H2 eq_refl eq_refl eq_refl).
Qed.

End Examples.

(** * More about the load balancer *)

Module LoadBalancerMore.
Import LoadBalancer LoadBalancerFacts Balance.

(** A scan of [n] iterations looks at every slot of the pool. *)
Lemma slot_at_covers n last s :
  0 < n <= INT_MAX -> tl_ok last -> 0 <= s < n ->
  exists j, (j < Z.to_nat n)%nat /\ slot_at n last j = s.
Proof.
  intros Hn Hl Hs. exists (Z.to_nat ((s - norm n last) mod n)).
  pose proof (Z.mod_pos_bound (s - norm n last) n ltac:(lia)).
  split; [lia|]. rewrite slot_at_closed by done.
  rewrite Z2Nat.id by lia. apply rel_inv; lia.
Qed.

(** A thread alone gets a slot that no slot of the pool has fewer users
    than. *)
Lemma acquire_minimal lb last :
  wf lb -> tl_ok last ->
  forall s, 0 <= s < n_ lb ->
    load (uses_ lb) (acquire lb last).1.1 <= load (uses_ lb) s.
Proof.
  intros [Hn Hmem] Hl s Hs. unfold acquire. rewrite acquire_unfold.
  destruct (first_hit (fun j => obs_from quiet (n_ lb) 0 (uses_ lb) last j = 0)
              (fun j => decide _) (Z.to_nat (n_ lb)))
    as [(k & Hk & H0 & Hfirst) | Hnone].
  - rewrite (acquire_loop_fast quiet (n_ lb) k) by done. simpl.
    rewrite obs_from_quiet in H0. rewrite H0.
    apply (load_range _ (n_ lb)). done.
  - destruct (acquire_loop_slow quiet (n_ lb) (Z.to_nat (n_ lb)) 0 (uses_ lb)
                last SIZE_MAX 0 Hnone) as (r & -> & Hr). simpl.
    destruct (slot_at_covers (n_ lb) last s) as (j & Hj & <-); try done.
    destruct Hr as [(k & (Hk & Hmin & _) & _ & ->) | (Hall & ->)].
    + specialize (Hmin j Hj). by rewrite !obs_from_quiet in Hmin.
    + specialize (Hall j Hj). rewrite obs_from_quiet in Hall.
      pose proof (load_range (uses_ lb) (n_ lb) 0 Hmem). lia.
Qed.

(** The loop under interference: the slot it returns, the array and the
    thread-local [last] it leaves. *)
Lemma acquire_loop_range env n :
  0 < n <= INT_MAX ->
  (forall t mem, wf_mem n mem -> wf_mem n (env t mem)) ->
  forall fuel t mem last mu mi,
    wf_mem n mem -> tl_ok last -> 0 <= mi < n ->
    0 <= (acquire_loop env t fuel n mem last mu mi).1.1 < n /\
    wf_mem n (acquire_loop env t fuel n mem last mu mi).1.2 /\
    0 <= (acquire_loop env t fuel n mem last mu mi).2 <= Z.max last n.
Proof.
  intros Hn Henv. induction fuel as [|fuel IH]; intros t mem last mu mi Hmem Hl Hmi.
  - cbn [acquire_loop]. unfold atomic_fetch_add. simpl.
    split; [done|]. split.
    + apply wf_mem_store; [by apply Henv | apply wrap64_range].
    + unfold tl_ok in Hl. lia.
  - cbn [acquire_loop]. fold (norm n last).
    pose proof (norm_range n last ltac:(lia) Hl) as Hc.
    unfold atomic_compare_exchange_n.
    destruct (_ =? 0).
    + simpl. split; [done|]. split; [|lia].
      apply wf_mem_store; [by apply Henv | unfold SIZE_MAX; lia].
    + assert (Hl' : tl_ok (norm n last + 1)) by (unfold tl_ok; lia).
      destruct (_ <? mu).
      * destruct (IH (S t) (env t mem) (norm n last + 1)
                    (default 0 (env t mem !! cell (norm n last))) (norm n last))
          as (Hr & Hm & Hlast); [by apply Henv | done | done |].
        split; [done|]. split; [done|]. lia.
      * destruct (IH (S t) (env t mem) (norm n last + 1) mu mi)
          as (Hr & Hm & Hlast); [by apply Henv | done | done |].
        split; [done|]. split; [done|]. lia.
Qed.

(** *** The sum of the counters *)

Lemma sum_store mem n r v (l : list Z) :
  length mem = Z.to_nat (8 * n) -> 0 <= r < n ->
  NoDup l -> Forall (fun s => 0 <= s) l ->
  foldr Z.add 0 (load (<[cell r := v]> mem) <$> l) =
    foldr Z.add 0 (load mem <$> l) + (if decide (r ∈ l) then v - load mem r else 0).
Proof.
  intros Hlen Hr. induction l as [|s l IH]; intros Hnd Hpos.
  - cbn [fmap list_fmap foldr]. case_decide as Hin; [|lia].
    by apply elem_of_nil in Hin.
  - apply NoDup_cons in Hnd as [Hs Hnd]. apply Forall_cons in Hpos as [Hs0 Hpos].
    cbn [fmap list_fmap foldr]. rewrite (IH Hnd Hpos).
    destruct (decide (s = r)) as [->|Hne].
    + rewrite (load_store_eq mem n) by done.
      repeat case_decide; try lia; try done.
      exfalso. apply H0. left.
    + rewrite load_store_ne by lia.
      repeat case_decide; try lia.
      * exfalso. apply H0. by right.
      * exfalso. apply elem_of_cons in H0 as [?|?]; [congruence | done].
Qed.

Lemma sum_above (f : Z -> Z) a s (l : list Z) :
  (forall x, x ∈ l -> a <= f x) -> s ∈ l ->
  a * Z.of_nat (length l) + (f s - a) <= foldr Z.add 0 (f <$> l).
Proof.
  intros Hall. induction l as [|x l IH]; intros Hs.
  - by apply elem_of_nil in Hs.
  - cbn [fmap list_fmap foldr length].
    assert (Hrest : a * Z.of_nat (length l) <= foldr Z.add 0 (f <$> l)).
    { clear IH Hs. induction l as [|y l IHl]; [simpl; lia|].
      cbn [fmap list_fmap foldr length].
      pose proof (Hall y ltac:(right; left)).
      assert (a * Z.of_nat (length l) <= foldr Z.add 0 (f <$> l)).
      { apply IHl. intros z Hz. apply Hall.
        apply elem_of_cons in Hz as [->|Hz]; [left | right; by right]. }
      lia. }
    pose proof (Hall x ltac:(left)).
    apply elem_of_cons in Hs as [->|Hs]; [lia|].
    assert (a * Z.of_nat (length l) + (f s - a) <= foldr Z.add 0 (f <$> l)).
    { apply IH; [|done]. intros z Hz. apply Hall. by right. }
    lia.
Qed.

Lemma sum_below (f : Z -> Z) b s (l : list Z) :
  (forall x, x ∈ l -> f x <= b) -> s ∈ l ->
  foldr Z.add 0 (f <$> l) <= b * Z.of_nat (length l) - (b - f s).
Proof.
  intros Hall Hs.
  pose proof (sum_above (fun x => - f x) (- b) s l) as H.
  assert (Hneg : foldr Z.add 0 ((fun x => - f x) <$> l) = - foldr Z.add 0 (f <$> l)).
  { clear. induction l as [|x l IH]; [done|].
    cbn [fmap list_fmap foldr]. rewrite IH. lia. }
  rewrite Hneg in H.
  specialize (H ltac:(intros x Hx; specialize (Hall x Hx); lia) Hs). lia.
Qed.

Lemma users_bounds lb s :
  wf lb -> 0 <= s < n_ lb -> 0 <= load (uses_ lb) s <= users lb.
Proof.
  intros [Hn Hmem] Hs. pose proof (load_range (uses_ lb) (n_ lb) s Hmem) as Hr.
  split; [lia|]. unfold users.
  pose proof (sum_above (load (uses_ lb)) 0 s (seqZ 0 (n_ lb))) as H.
  specialize (H ltac:(intros x _; apply (load_range _ (n_ lb)); done)
                ltac:(apply elem_of_seqZ; lia)).
  lia.
Qed.

(** One call on a balanced pool whose counters are away from the top. *)
Lemma acquire_balanced lb last r lb' last' :
  wf lb -> tl_ok last -> balanced lb -> users lb + 1 <= SIZE_MAX ->
  acquire lb last = (r, lb', last') ->
  balanced lb' /\ users lb' = users lb + 1.
Proof.
  intros Hwf Hl Hbal Htop Heq.
  pose proof (acquire_minimal lb last Hwf Hl) as Hmin. rewrite Heq in Hmin.
  simpl in Hmin.
  destruct (acquire_effect lb last Hwf Hl) as (r0 & l0 & Heq0 & Hr & Hl').
  rewrite Heq in Heq0. injection Heq0 as -> -> ->.
  pose proof (users_bounds lb r0 Hwf Hr) as Hb.
  destruct Hwf as [Hn [Hlen Hall]].
  rewrite wrap64_small by lia. split.
  - intros s s' Hs Hs'. simpl in *.
    destruct (decide (s = r0)) as [->|Hne], (decide (s' = r0)) as [->|Hne'].
    + lia.
    + rewrite (load_store_eq _ (n_ lb)) by done. rewrite load_store_ne by lia.
      specialize (Hmin s' Hs'). lia.
    + rewrite (load_store_eq _ (n_ lb)) by done. rewrite load_store_ne by lia.
      specialize (Hbal s r0 Hs Hr). lia.
    + rewrite !load_store_ne by lia. by apply Hbal.
  - unfold users. simpl.
    rewrite (sum_store _ (n_ lb)); [| done | done | apply NoDup_seqZ |].
    + case_decide as Hin; [lia|]. exfalso. apply Hin, elem_of_seqZ. lia.
    + apply Forall_forall. intros x Hx. apply elem_of_seqZ in Hx. lia.
Qed.

Lemma acquire_many_balanced k :
  forall lb last,
    wf lb -> tl_ok last -> balanced lb -> users lb + Z.of_nat k <= SIZE_MAX ->
    wf (acquire_many k lb last).1.2 /\
    n_ (acquire_many k lb last).1.2 = n_ lb /\
    balanced (acquire_many k lb last).1.2 /\
    users (acquire_many k lb last).1.2 = users lb + Z.of_nat k.
Proof.
  induction k as [|k IH]; intros lb last Hwf Hl Hbal Htop.
  - simpl. split; [done|]. split; [done|]. split; [done|]. lia.
  - cbn [acquire_many].
    destruct (acquire lb last) as [[r lb1] last1] eqn:E.
    destruct (acquire_wf _ _ _ _ _ Hwf Hl E) as (Hwf1 & Hn1 & _ & Hl1).
    destruct (acquire_balanced _ _ _ _ _ Hwf Hl Hbal ltac:(lia) E) as [Hbal1 Hu1].
    destruct (IH lb1 last1 Hwf1 Hl1 Hbal1 ltac:(lia)) as (Hwf2 & Hn2 & Hbal2 & Hu2).
    destruct (acquire_many k lb1 last1) as [[rs lb2] last2]. simpl in *.
    split; [done|]. split; [congruence|]. split; [done|]. lia.
Qed.

(** On a balanced pool every counter is the mean, rounded down or up. *)
Lemma balanced_mean lb s :
  wf lb -> balanced lb -> 0 <= s < n_ lb ->
  users lb / n_ lb <= load (uses_ lb) s <= users lb / n_ lb + 1.
Proof.
  intros [Hn Hmem] Hbal Hs.
  assert (Hin : s ∈ seqZ 0 (n_ lb)) by (apply elem_of_seqZ; lia).
  assert (Hlen : Z.of_nat (length (seqZ 0 (n_ lb))) = n_ lb)
    by (rewrite length_seqZ; lia).
  pose proof (sum_below (load (uses_ lb)) (load (uses_ lb) s + 1) s (seqZ 0 (n_ lb)))
    as Hup.
  specialize (Hup ltac:(intros x Hx; apply elem_of_seqZ in Hx; apply Hbal; lia) Hin).
  pose proof (sum_above (load (uses_ lb)) (load (uses_ lb) s - 1) s (seqZ 0 (n_ lb)))
    as Hlow.
  specialize (Hlow ltac:(intros x Hx; apply elem_of_seqZ in Hx;
                         specialize (Hbal s x ltac:(lia) ltac:(lia)); lia) Hin).
  rewrite Hlen in Hup, Hlow. fold (users lb) in Hup, Hlow.
  split.
  - assert (users lb / n_ lb < load (uses_ lb) s + 1); [|lia].
    apply Z.div_lt_upper_bound; nia.
  - assert (load (uses_ lb) s - 1 <= users lb / n_ lb); [|lia].
    apply Z.div_le_lower_bound; nia.
Qed.

(** X1.  Whatever the other threads do to the counters, and whatever value
    the thread-local [last] has when the call starts, [acquire] returns a
    slot of the pool, leaves every cell of the array a [uint64_t], and
    leaves [last] between 0 and the pool size. *)
Theorem acquire_stays_in_pool (env : interference) (lb : t) (last : Z) :
  wf lb -> tl_ok last ->
  (forall t mem, wf_mem (n_ lb) mem -> wf_mem (n_ lb) (env t mem)) ->
  0 <= (acquire_under env lb last).1.1 < n_ lb /\
  wf (acquire_under env lb last).1.2 /\
  n_ (acquire_under env lb last).1.2 = n_ lb /\
  0 <= (acquire_under env lb last).2 <= n_ lb.
Proof.
  intros [Hn Hmem] Hl Henv. rewrite acquire_unfold.
  destruct (Z.to_nat (n_ lb)) as [|fuel] eqn:Hfuel; [lia|].
  pose proof (norm_range (n_ lb) last ltac:(lia) Hl) as Hc.
  cbn [acquire_loop]. fold (norm (n_ lb) last).
  unfold atomic_compare_exchange_n.
  destruct (_ =? 0).
  - simpl. split; [done|]. split; [|split; [done | lia]].
    split; [done|]. simpl.
    apply wf_mem_store; [by apply Henv | unfold SIZE_MAX; lia].
  - set (mm := if _ <? SIZE_MAX then _ else _).
    destruct mm as [mu mi] eqn:Hmm.
    assert (Hmi : 0 <= mi < n_ lb).
    { unfold mm in Hmm. destruct (_ <? SIZE_MAX); injection Hmm as <- <-; lia. }
    destruct (acquire_loop_range env (n_ lb) Hn Henv fuel 1%nat
                (env 0%nat (uses_ lb)) (norm (n_ lb) last + 1) mu mi)
      as (Hr & Hm & Hlast); [by apply Henv | unfold tl_ok; lia | done |].
    destruct (acquire_loop env 1 fuel (n_ lb) _ _ mu mi) as [[r mem'] last'].
    simpl in *. split; [done|]. split; [done|]. split; [done|]. lia.
Qed.

Lemma acquire_stays_in_pool_witness :
  let env : interference :=
    fun t mem => if decide (t = 0%nat) then <[cell 1 := 5]> mem else mem in
  wf (fresh 3) /\ tl_ok 7 /\
  0 <= (acquire_under env (fresh 3) 7).1.1 < 3 /\
  0 <= (acquire_under env (fresh 3) 7).2 <= 3.
Proof.
  intros env.
  assert (Hwf : wf (fresh 3)) by (apply fresh_wf; by vm_compute).
  assert (Hl : tl_ok 7) by (by vm_compute).
  assert (Henv : forall t mem, wf_mem (n_ (fresh 3)) mem ->
                               wf_mem (n_ (fresh 3)) (env t mem)).
  { intros t mem Hmem. unfold env. destruct (decide (t = 0%nat)); [|done].
    apply wf_mem_store; [done | by vm_compute]. }
  destruct (acquire_stays_in_pool env (fresh 3) 7 Hwf Hl Henv) as (Hr & _ & _ & Hlast).
  split; [exact Hwf|]. split; [exact Hl|]. split; [exact Hr | exact Hlast].
Defined.

(** X2.  A thread alone gets a least-used slot: no slot of the pool has
    fewer users than the slot [acquire] returns had when the call started.
    The call adds one user to that slot and leaves the counter of every
    other slot as it was. *)
Theorem acquire_returns_least_used (lb : t) (last : Z) :
  wf lb -> tl_ok last ->
  let r := (acquire lb last).1.1 in
  let lb' := (acquire lb last).1.2 in
  (forall s, 0 <= s < n_ lb -> load (uses_ lb) r <= load (uses_ lb) s) /\
  load (uses_ lb') r = wrap64 (load (uses_ lb) r + 1) /\
  (forall s, 0 <= s < n_ lb -> s <> r -> load (uses_ lb') s = load (uses_ lb) s).
Proof.
  intros Hwf Hl r lb'. split; [by apply acquire_minimal|].
  destruct (acquire_effect lb last Hwf Hl) as (r0 & l0 & Heq & Hr & _).
  unfold r, lb'. rewrite Heq. simpl. destruct Hwf as [_ [Hlen _]]. split.
  - by rewrite (load_store_eq _ (n_ lb)).
  - intros s Hs Hne. rewrite load_store_ne by lia. done.
Qed.

Lemma of_counters_wf_4 a b c d :
  0 <= a <= SIZE_MAX -> 0 <= b <= SIZE_MAX -> 0 <= c <= SIZE_MAX ->
  0 <= d <= SIZE_MAX -> wf (of_counters [a; b; c; d]).
Proof.
  intros Ha Hb Hc Hd. split; [by vm_compute|]. split; [done|].
  assert (H0 : 0 <= 0 <= SIZE_MAX) by (by vm_compute).
  simpl. repeat (constructor; [done|]). constructor.
Qed.

Lemma acquire_returns_least_used_witness :
  wf (of_counters [3; 1; 2; 1]) /\ tl_ok 3 /\
  (forall s, 0 <= s < 4 ->
     load (uses_ (of_counters [3; 1; 2; 1]))
       (acquire (of_counters [3; 1; 2; 1]) 3).1.1
     <= load (uses_ (of_counters [3; 1; 2; 1])) s).
Proof.
  assert (Hwf : wf (of_counters [3; 1; 2; 1]))
    by (apply of_counters_wf_4; by vm_compute).
  assert (Hl : tl_ok 3) by (by vm_compute).
  split; [exact Hwf|]. split; [exact Hl|].
  exact (proj1 (acquire_returns_least_used (of_counters [3; 1; 2; 1]) 3 Hwf Hl)).
Defined.

(** X3.  Calls of [acquire] by one thread, with no [free] between them,
    keep a balanced pool balanced: as long as the counters do not reach
    [SIZE_MAX], after [k] calls the pool has [k] more users, no slot has two
    users more than another, and every counter is the mean number of users
    per slot, rounded down or up. *)
Theorem acquires_spread_evenly (k : nat) (lb : t) (last : Z) :
  wf lb -> tl_ok last -> balanced lb -> users lb + Z.of_nat k <= SIZE_MAX ->
  let lb' := (acquire_many k lb last).1.2 in
  balanced lb' /\
  users lb' = users lb + Z.of_nat k /\
  forall s, 0 <= s < n_ lb ->
    users lb' / n_ lb <= load (uses_ lb') s <= users lb' / n_ lb + 1.
Proof.
  intros Hwf Hl Hbal Htop lb'.
  destruct (acquire_many_balanced k lb last Hwf Hl Hbal Htop)
    as (Hwf' & Hn' & Hbal' & Hu').
  split; [done|]. split; [done|].
  intros s Hs. rewrite <- Hn'. apply balanced_mean; [done | done | by rewrite Hn'].
Qed.

Lemma acquires_spread_evenly_witness :
  wf (fresh 3) /\ tl_ok 2 /\ balanced (fresh 3) /\
  users (acquire_many 7 (fresh 3) 2).1.2 = 7 /\
  forall s, 0 <= s < 3 -> 2 <= load (uses_ (acquire_many 7 (fresh 3) 2).1.2) s <= 3.
Proof.
  assert (Hwf : wf (fresh 3)) by (apply fresh_wf; by vm_compute).
  assert (Hl : tl_ok 2) by (by vm_compute).
  assert (Hbal : balanced (fresh 3)).
  { intros s s' Hs Hs'. rewrite !fresh_idle by done. lia. }
  assert (Htop : users (fresh 3) + Z.of_nat 7 <= SIZE_MAX) by (by vm_compute).
  destruct (acquires_spread_evenly 7 (fresh 3) 2 Hwf Hl Hbal Htop) as (_ & Hu & Hmean).
  split; [exact Hwf|]. split; [exact Hl|]. split; [exact Hbal|].
  split; [exact Hu|]. intros s Hs. specialize (Hmean s Hs).
  rewrite Hu in Hmean. exact Hmean.
Defined.

(** X4.  A [free] of a slot that nobody holds takes its counter from 0 to
    [SIZE_MAX]: the slot then counts as the busiest of the pool, and a
    thread alone is handed it again only when the counter of every slot is
    at [SIZE_MAX]. *)
Theorem unmatched_free_starves_slot (lb : t) (last s : Z) :
  wf lb -> tl_ok last -> 0 <= s < n_ lb -> load (uses_ lb) s = 0 ->
  load (uses_ (free lb s)) s = SIZE_MAX /\
  ((acquire (free lb s) last).1.1 = s ->
   forall s', 0 <= s' < n_ lb -> load (uses_ (free lb s)) s' = SIZE_MAX).
Proof.
  intros Hwf Hl Hs Hidle.
  destruct (free_wf lb s Hwf) as [Hwf' Hn'].
  assert (Htop : load (uses_ (free lb s)) s = SIZE_MAX).
  { unfold free, atomic_fetch_sub. simpl. destruct Hwf as [_ [Hlen _]].
    rewrite (load_store_eq _ (n_ lb)) by done.
    change (default 0 (uses_ lb !! cell s)) with (load (uses_ lb) s).
    rewrite Hidle. by vm_compute. }
  split; [exact Htop|]. intros Hagain s' Hs'.
  pose proof (acquire_minimal (free lb s) last Hwf' Hl s' ltac:(by rewrite Hn')) as Hmin.
  rewrite Hagain, Htop in Hmin.
  destruct Hwf' as [_ Hmem'].
  pose proof (load_range (uses_ (free lb s)) _ s' Hmem'). lia.
Qed.

Lemma of_counters_wf_2 a b :
  0 <= a <= SIZE_MAX -> 0 <= b <= SIZE_MAX -> wf (of_counters [a; b]).
Proof.
  intros Ha Hb. split; [by vm_compute|]. split; [done|].
  assert (H0 : 0 <= 0 <= SIZE_MAX) by (by vm_compute).
  simpl. repeat (constructor; [done|]). constructor.
Qed.

Lemma unmatched_free_starves_slot_witness :
  wf (of_counters [0; 1]) /\ tl_ok 0 /\
  load (uses_ (free (of_counters [0; 1]) 0)) 0 = SIZE_MAX /\
  (acquire (free (of_counters [0; 1]) 0) 0).1.1 <> 0.
Proof.
  assert (Hwf : wf (of_counters [0; 1])) by (apply of_counters_wf_2; by vm_compute).
  assert (Hl : tl_ok 0) by (by vm_compute).
  destruct (unmatched_free_starves_slot (of_counters [0; 1]) 0 0 Hwf Hl
              ltac:(by vm_compute) ltac:(by vm_compute)) as [Htop Hstarved].
  split; [exact Hwf|]. split; [exact Hl|]. split; [exact Htop|].
  intros Hagain. specialize (Hstarved Hagain 1 ltac:(by vm_compute)).
  vm_compute in Hstarved. discriminate.
Defined.

(** X5.  On a balancer of no slot the loop of [acquire] does not run: the
    call returns 0, which is not a slot of the pool, after adding one to
    [uses_[0]], a cell the array does not hold; the thread-local [last] is
    left as it was. *)
Theorem acquire_on_empty_pool (env : interference) (lb : t) (last : Z) :
  n_ lb = 0 ->
  (acquire_under env lb last).1.1 = 0 /\
  (acquire_under env lb last).2 = last /\
  ~ (0 <= (acquire_under env lb last).1.1 < n_ lb) /\
  (wf_mem (n_ lb) (env 0%nat (uses_ lb)) ->
   env 0%nat (uses_ lb) !! cell 0 = None /\
   uses_ (acquire_under env lb last).1.2 = env 0%nat (uses_ lb)).
Proof.
  intros Hn. rewrite acquire_unfold, Hn. simpl.
  split; [done|]. split; [done|]. split; [lia|].
  intros [Hlen _]. simpl in Hlen. apply nil_length_inv in Hlen.
  rewrite Hlen. done.
Qed.

Lemma acquire_on_empty_pool_witness :
  n_ (fresh 0) = 0 /\ (acquire_under quiet (fresh 0) 4).1.1 = 0 /\
  (acquire_under quiet (fresh 0) 4).2 = 4.
Proof.
  destruct (acquire_on_empty_pool quiet (fresh 0) 4 eq_refl) as (Hr & Hlast & _).
  split; [done|]. split; [exact Hr | exact Hlast].
Defined.

End LoadBalancerMore.

(** * Threads that race for slots *)

Module RacingFacts.
Import LoadBalancer LoadBalancerFacts Racing.

Lemma alone_Returned n k slot last fast mem :
  alone n k (Returned slot last fast) mem = (Returned slot last fast, mem).
Proof. induction k as [|k IH]; [done|]. simpl. exact IH. Qed.

(** The operations of one thread, with no break, are the loop of
    [acquire]. *)
Lemma alone_acquire_loop n fuel :
  forall t mem last mu mi,
    exists fast,
      alone n (S fuel) (Scanning fuel last mu mi) mem =
        (Returned (acquire_loop quiet t fuel n mem last mu mi).1.1
           (acquire_loop quiet t fuel n mem last mu mi).2 fast,
         (acquire_loop quiet t fuel n mem last mu mi).1.2).
Proof.
  induction fuel as [|fuel IH]; intros t mem last mu mi.
  - exists false. cbn [alone thread_step acquire_loop]. change (quiet t mem) with mem.
    by destruct (atomic_fetch_add mem (cell mi) 1) as [old mem'].
  - change (alone n (S (S fuel)) (Scanning (S fuel) last mu mi) mem)
      with (let '(th', mem') := thread_step n (Scanning (S fuel) last mu mi) mem in
            alone n (S fuel) th' mem').
    cbn [thread_step acquire_loop]. change (quiet t mem) with mem.
    destruct (atomic_compare_exchange_n mem _ 0 1) as [[acquired prev] mem'].
    destruct acquired.
    + exists true. by rewrite alone_Returned.
    + destruct (prev <? mu).
      * destruct (IH (S t) mem' ((if to_size_t last >=? n then 0 else last) + 1)
                    prev (if to_size_t last >=? n then 0 else last)) as [fast Hf].
        exists fast. exact Hf.
      * destruct (IH (S t) mem' ((if to_size_t last >=? n then 0 else last) + 1)
                    mu mi) as [fast Hf].
        exists fast. exact Hf.
Qed.

Lemma sum_app (l1 l2 : list Z) :
  foldr Z.add 0 (l1 ++ l2) = foldr Z.add 0 l1 + foldr Z.add 0 l2.
Proof. induction l1 as [|x l1 IH]; simpl; lia. Qed.

(** Counting over the threads when one of them changes. *)
Lemma sum_insert (f : thread -> Z) ths t x y :
  ths !! t = Some x ->
  foldr Z.add 0 (f <$> <[t := y]> ths) = foldr Z.add 0 (f <$> ths) - f x + f y.
Proof.
  intros Ht.
  rewrite insert_take_drop by (by eapply lookup_lt_Some).
  rewrite <- (take_drop_middle ths t x Ht) at 3.
  rewrite !fmap_app, !fmap_cons, !sum_app. simpl. lia.
Qed.

Lemma sum_range (f : thread -> Z) ths :
  (forall th, 0 <= f th <= 1) ->
  0 <= foldr Z.add 0 (f <$> ths) <= Z.of_nat (length ths).
Proof.
  intros Hf. induction ths as [|th ths IH]; [simpl; lia|].
  rewrite fmap_cons. cbn [foldr length]. specialize (Hf th). lia.
Qed.

Lemma holds_range s th : 0 <= holds s th <= 1.
Proof. destruct th as [| slot l f]; simpl; [lia|]. case_decide; lia. Qed.

Lemma wins_range s th : 0 <= wins s th <= 1.
Proof.
  destruct th as [| slot l [|]]; simpl; try lia. case_decide; lia.
Qed.

Lemma wins_holds s th : wins s th <= holds s th.
Proof.
  destruct th as [| slot l [|]]; simpl; try lia; case_decide; lia.
Qed.

Lemma winners_holders s ths : winners s ths <= holders s ths.
Proof.
  unfold winners, holders. induction ths as [|th ths IH]; [simpl; lia|].
  rewrite !fmap_cons. cbn [foldr]. pose proof (wins_holds s th). lia.
Qed.

(** What the threads and the counters of the pool keep, whatever the
    order of the operations: every counter is the number of holders of its
    slot on top of what it was, as a [uint64_t], and the variables of the
    threads stay in their ranges. *)
Lemma race_step_inv n mem0 ths mem t th :
  0 < n <= INT_MAX ->
  ths !! t = Some th ->
  wf_mem n mem ->
  (forall u x, ths !! u = Some x -> thread_ok n x) ->
  (forall s, 0 <= s < n ->
     load mem s = wrap64 (load mem0 s + holders s ths)) ->
  (forall s, 0 <= s < n -> load mem0 s + Z.of_nat (length ths) <= SIZE_MAX) ->
  (forall s, 0 <= s < n -> 0 <= load mem0 s) ->
  (forall s, 0 <= s < n -> winners s ths <= 1) ->
  let ths' := <[t := (thread_step n th mem).1]> ths in
  let mem' := (thread_step n th mem).2 in
  wf_mem n mem' /\
  (forall u x, ths' !! u = Some x -> thread_ok n x) /\
  (forall s, 0 <= s < n ->
     load mem' s = wrap64 (load mem0 s + holders s ths')) /\
  (forall s, 0 <= s < n -> winners s ths' <= 1).
Proof.
  intros Hn Ht Hmem Hok Hcount Htop Hpos Hwin ths' mem'.
  pose proof (Hok t th Ht) as Hth.
  assert (Hok' : forall th', thread_ok n th' ->
            forall u x, <[t := th']> ths !! u = Some x -> thread_ok n x).
  { intros th' Hth' u x Hu. apply list_lookup_insert_Some in Hu.
    destruct Hu as [(_ & <- & _) | [_ Hu]]; [done | by eapply Hok]. }
  destruct Hmem as [Hlen Hall].
  destruct th as [[|fuel] last mu mi | slot last fast]; unfold ths', mem';
    clear ths' mem'; cbn [thread_step].
  - (* the slow path adds one to the counter of [min_idx] *)
    destruct Hth as [Hl Hmi]. unfold atomic_fetch_add. cbn [fst snd].
    change (default 0 (mem !! cell mi)) with (load mem mi).
    split; [|split; [|split]].
    + apply wf_mem_store; [done | apply wrap64_range].
    + by apply Hok'.
    + intros s Hs. unfold holders. rewrite (sum_insert _ _ _ _ _ Ht).
      fold (holders s ths). simpl.
      destruct (decide (mi = s)) as [->|Hne].
      * rewrite (load_store_eq _ n) by done. rewrite (Hcount s Hs), wrap64_add_l.
        f_equal. lia.
      * rewrite load_store_ne by lia. rewrite (Hcount s Hs). f_equal. lia.
    + intros s Hs. unfold winners. rewrite (sum_insert _ _ _ _ _ Ht).
      fold (winners s ths). simpl. specialize (Hwin s Hs). lia.
  - (* one iteration of the scan *)
    destruct Hth as [Hl Hmi]. fold (norm n last).
    pose proof (norm_range n last ltac:(lia) Hl) as Hc.
    unfold atomic_compare_exchange_n.
    change (default 0 (mem !! cell (norm n last))) with (load mem (norm n last)).
    destruct (Z.eqb_spec (load mem (norm n last)) 0) as [Hidle|Hbusy]; cbn [fst snd].
    + assert (Hnone : holders (norm n last) ths = 0 /\ load mem0 (norm n last) = 0).
      { pose proof (sum_range (holds (norm n last)) ths (holds_range _)) as Hr.
        fold (holders (norm n last) ths) in Hr.
        rewrite (Hcount _ Hc) in Hidle.
        rewrite wrap64_small in Hidle;
          [| specialize (Htop _ Hc); specialize (Hpos _ Hc); lia].
        specialize (Hpos _ Hc). lia. }
      destruct Hnone as [Hnone Hzero].
      split; [|split; [|split]].
      * apply wf_mem_store; [done | by vm_compute].
      * by apply Hok'.
      * intros s Hs. unfold holders. rewrite (sum_insert _ _ _ _ _ Ht).
        fold (holders s ths). simpl.
        destruct (decide (norm n last = s)) as [<-|Hne].
        -- rewrite (load_store_eq _ n) by done. rewrite Hnone, Hzero.
           by vm_compute.
        -- rewrite load_store_ne by lia. rewrite (Hcount s Hs). f_equal. lia.
      * intros s Hs. unfold winners. rewrite (sum_insert _ _ _ _ _ Ht).
        fold (winners s ths). simpl.
        destruct (decide (norm n last = s)) as [<-|Hne]; [|specialize (Hwin s Hs); lia].
        pose proof (winners_holders (norm n last) ths).
        pose proof (sum_range (wins (norm n last)) ths (wins_range _)) as Hr.
        fold (winners (norm n last) ths) in Hr. lia.
    + assert (Hnext : thread_ok n
                (let '(minusers, min_idx) :=
                   if load mem (norm n last) <? mu
                   then (load mem (norm n last), norm n last) else (mu, mi) in
                 Scanning fuel (norm n last + 1) minusers min_idx)).
      { destruct (_ <? mu); simpl; (split; [unfold tl_ok; lia | lia]). }
      assert (Hsame : forall (f : thread -> Z),
                (forall fu l a b, f (Scanning fu l a b) = 0) ->
                foldr Z.add 0
                  (f <$> <[t := (let '(minusers, min_idx) :=
                                   if load mem (norm n last) <? mu
                                   then (load mem (norm n last), norm n last)
                                   else (mu, mi) in
                                 Scanning fuel (norm n last + 1) minusers min_idx)]>
                           ths) =
                foldr Z.add 0 (f <$> ths)).
      { intros f Hf. rewrite (sum_insert _ _ _ _ _ Ht).
        destruct (_ <? mu); rewrite !Hf; lia. }
      destruct (load mem (norm n last) <? mu) eqn:Hlt; cbn [fst snd] in *.
      * split; [done|]. split; [by apply Hok'|]. split.
        -- intros s Hs. unfold holders. rewrite (Hsame (holds s)) by done.
           by apply Hcount.
        -- intros s Hs. unfold winners. rewrite (Hsame (wins s)) by done.
           by apply Hwin.
      * split; [done|]. split; [by apply Hok'|]. split.
        -- intros s Hs. unfold holders. rewrite (Hsame (holds s)) by done.
           by apply Hcount.
        -- intros s Hs. unfold winners. rewrite (Hsame (wins s)) by done.
           by apply Hwin.
  - (* a thread that is back does nothing *)
    cbn [fst snd]. rewrite list_insert_id by done. done.
Qed.

Lemma race_inv n mem0 sched :
  forall ths mem,
    0 < n <= INT_MAX ->
    wf_mem n mem ->
    (forall u x, ths !! u = Some x -> thread_ok n x) ->
    (forall s, 0 <= s < n ->
       load mem s = wrap64 (load mem0 s + holders s ths)) ->
    (forall s, 0 <= s < n -> load mem0 s + Z.of_nat (length ths) <= SIZE_MAX) ->
    (forall s, 0 <= s < n -> 0 <= load mem0 s) ->
    (forall s, 0 <= s < n -> winners s ths <= 1) ->
    wf_mem n (race n sched ths mem).2 /\
    length (race n sched ths mem).1 = length ths /\
    (forall u x, (race n sched ths mem).1 !! u = Some x -> thread_ok n x) /\
    (forall s, 0 <= s < n ->
       load (race n sched ths mem).2 s =
         wrap64 (load mem0 s + holders s (race n sched ths mem).1)) /\
    (forall s, 0 <= s < n -> winners s (race n sched ths mem).1 <= 1).
Proof.
  induction sched as [|t sched IH]; intros ths mem Hn Hmem Hok Hcount Htop Hpos Hwin;
    [done|].
  cbn [race]. destruct (ths !! t) as [th|] eqn:Ht; [|by apply IH].
  destruct (race_step_inv n mem0 ths mem t th Hn Ht Hmem Hok Hcount Htop Hpos Hwin)
    as (Hmem' & Hok' & Hcount' & Hwin').
  destruct (thread_step n th mem) as [th' mem']. cbn [fst snd] in *.
  destruct (IH (<[t := th']> ths) mem' Hn Hmem' Hok' Hcount'
              ltac:(by rewrite length_insert) Hpos Hwin')
    as (H1 & H2 & H3 & H4 & H5).
  split; [done|]. split; [by rewrite H2, length_insert|]. done.
Qed.

Lemma entering_counts n s ths :
  Forall (entering n) ths -> holders s ths = 0 /\ winners s ths = 0.
Proof.
  unfold holders, winners. induction 1 as [|th ths (last & _ & ->) _ IH]; [done|].
  rewrite !fmap_cons. cbn [foldr]. simpl holds. simpl wins. lia.
Qed.

(** X19.  The operations of a call of [acquire], done one after the other
    with no other thread between them, are the call: the thread comes
    back with the slot and the [last] that [acquire] returns, and the
    counters are those that [acquire] leaves. *)
Theorem steps_are_acquire (lb : t) (last : Z) :
  exists fast,
    alone (n_ lb) (S (Z.to_nat (n_ lb))) (enter (n_ lb) last) (uses_ lb) =
      (Returned (acquire lb last).1.1 (acquire lb last).2 fast,
       uses_ (acquire lb last).1.2).
Proof.
  destruct (alone_acquire_loop (n_ lb) (Z.to_nat (n_ lb)) 0 (uses_ lb) last
              SIZE_MAX 0) as [fast Hf].
  exists fast. unfold enter. rewrite Hf. unfold acquire. rewrite acquire_unfold.
  by destruct (acquire_loop quiet 0 _ _ _ _ _ _) as [[r mem'] last'].
Qed.

(** X20.  Threads that race for slots.  Threads that each call [acquire]
    once, with their atomic operations interleaved in any order and no
    [free] meanwhile, on counters that the calls cannot take to
    [SIZE_MAX]: at every moment each counter is what it was before plus the
    number of threads that have come back with its slot, every thread that
    has come back holds a slot of the pool, and of the threads that hold a
    slot at most one has got it on the fast path. *)
Theorem race_counts_holders (n : Z) (sched : list nat) (ths : list thread)
    (mem : list Z) :
  0 < n <= INT_MAX -> wf_mem n mem ->
  Forall (entering n) ths ->
  (forall s, 0 <= s < n -> load mem s + Z.of_nat (length ths) <= SIZE_MAX) ->
  let ths' := (race n sched ths mem).1 in
  let mem' := (race n sched ths mem).2 in
  wf_mem n mem' /\
  (forall s, 0 <= s < n -> load mem' s = load mem s + holders s ths') /\
  (forall s, 0 <= s < n -> winners s ths' <= 1) /\
  (forall u slot last fast,
     ths' !! u = Some (Returned slot last fast) -> 0 <= slot < n).
Proof.
  intros Hn Hmem Hent Htop ths' mem'.
  assert (Hpos : forall s, 0 <= s < n -> 0 <= load mem s).
  { intros s _. apply (load_range mem n s Hmem). }
  destruct (race_inv n mem sched ths mem Hn Hmem) as (H1 & H2 & H3 & H4 & H5).
  - intros u x Hu. rewrite Forall_lookup in Hent.
    destruct (Hent u x Hu) as (last & Hl & ->). simpl. split; [done | lia].
  - intros s Hs. rewrite (proj1 (entering_counts n s ths Hent)).
    rewrite Z.add_0_r. symmetry. apply wrap64_small.
    pose proof (load_range mem n s Hmem). lia.
  - done.
  - done.
  - intros s Hs. rewrite (proj2 (entering_counts n s ths Hent)). lia.
  - split; [done|]. split; [|split; [done|]].
    + intros s Hs. unfold mem', ths'. rewrite (H4 s Hs). apply wrap64_small.
      pose proof (sum_range (holds s) (race n sched ths mem).1 (holds_range s)) as Hr.
      fold (holders s (race n sched ths mem).1) in Hr. rewrite H2 in Hr.
      specialize (Htop s Hs). specialize (Hpos s Hs). lia.
    + intros u slot last fast Hu. exact (H3 u _ Hu).
Qed.

Lemma race_counts_holders_witness :
  let ths := [enter 2 0; enter 2 0; enter 2 5] in
  let sched := [0; 1; 2; 1; 2; 1; 2; 0]%nat in
  wf_mem 2 (uses_ (fresh 2)) /\ Forall (entering 2) ths /\
  (forall s, 0 <= s < 2 ->
     load (race 2 sched ths (uses_ (fresh 2))).2 s =
       holders s (race 2 sched ths (uses_ (fresh 2))).1) /\
  (forall s, 0 <= s < 2 -> winners s (race 2 sched ths (uses_ (fresh 2))).1 <= 1).
Proof.
  intros ths sched.
  assert (Hmem : wf_mem 2 (uses_ (fresh 2))).
  { apply (proj2 (fresh_wf 2 ltac:(by vm_compute))). }
  assert (Hent : Forall (entering 2) ths).
  { unfold ths. repeat constructor; eexists; (split; [|reflexivity]); by vm_compute. }
  assert (Htop : forall s, 0 <= s < 2 ->
            load (uses_ (fresh 2)) s + Z.of_nat (length ths) <= SIZE_MAX).
  { intros s Hs. rewrite (fresh_idle 2 s Hs). by vm_compute. }
  destruct (race_counts_holders 2 sched ths (uses_ (fresh 2)) ltac:(by vm_compute)
              Hmem Hent Htop) as (_ & Hcount & Hwin & _).
  split; [exact Hmem|]. split; [exact Hent|]. split; [|exact Hwin].
  intros s Hs. rewrite (Hcount s Hs). rewrite (fresh_idle 2 s Hs). lia.
Defined.

End RacingFacts.

(** * The registered images and the image an interpreter loads *)

Module RegistryFacts.
Import Embedded Registry Loader.

(** One call, on a caller that goes on after an error. *)
Lemma registered_step r g :
  match register r g with inr g' => g' | inl _ => g end =
  match r with
  | Plain s e =>
      if accepted s e
      then Globals s e (embedded_interpreter_cuda_so_start g)
             (embedded_interpreter_cuda_so_end g)
      else g
  | Cuda s e =>
      if accepted s e
      then Globals (embedded_interpreter_so_start g)
             (embedded_interpreter_so_end g) s e
      else g
  end.
Proof.
  destruct r as [s e|s e];
    unfold register, register_embedded_interpreter,
      register_embedded_interpreter_cuda, Embedded.TORCH_CHECK, accepted;
    destruct (s =? nullptr), (e =? nullptr), (ptrdiff_t (e - s) >? 0); done.
Qed.

Lemma registered_snoc rs r g :
  registered (rs ++ [r]) g =
    match register r (registered rs g) with
    | inr g' => g'
    | inl _ => registered rs g
    end.
Proof. unfold registered. by rewrite foldl_app. Qed.

(** The pointers after any calls: each pair is the range of the last call
    of its entry point that passed the checks, or what it was. *)
Lemma registered_closed rs g :
  registered rs g =
    Globals
      (default (embedded_interpreter_so_start g, embedded_interpreter_so_end g)
         (list.last (accepted_plain rs))).1
      (default (embedded_interpreter_so_start g, embedded_interpreter_so_end g)
         (list.last (accepted_plain rs))).2
      (default (embedded_interpreter_cuda_so_start g,
                embedded_interpreter_cuda_so_end g)
         (list.last (accepted_cuda rs))).1
      (default (embedded_interpreter_cuda_so_start g,
                embedded_interpreter_cuda_so_end g)
         (list.last (accepted_cuda rs))).2.
Proof.
  induction rs as [|r rs IH] using rev_ind; [by destruct g|].
  rewrite registered_snoc, registered_step, IH.
  unfold accepted_plain, accepted_cuda. rewrite !omap_app.
  destruct r as [s e|s e]; cbn [omap list_omap];
    destruct (accepted s e); cbn [omap list_omap];
    rewrite ?app_nil_r, ?last_snoc; done.
Qed.

Lemma accepted_range s e :
  accepted s e = true <->
  s <> nullptr /\ e <> nullptr /\ 0 < ptrdiff_t (e - s).
Proof.
  unfold accepted, nullptr.
  destruct (Z.eqb_spec s 0), (Z.eqb_spec e 0), (Z.gtb_spec (ptrdiff_t (e - s)) 0);
    simpl; split; try done; try lia.
Qed.

(** Pointers [2 ^ 63] bytes apart or more: the difference does not fit a
    [ptrdiff_t], and the check sees what is left of it in 64 bits. *)
Lemma register_far_apart g :
  (exists msg, register_embedded_interpreter 1 (2 ^ 63 + 1) g = inl msg) /\
  register_embedded_interpreter (2 ^ 64 - 4096) 4096 g =
    inr (Globals (2 ^ 64 - 4096) 4096
           (embedded_interpreter_cuda_so_start g)
           (embedded_interpreter_cuda_so_end g)).
Proof. split; [by eexists | done]. Qed.

Lemma accepted_plain_range rs p :
  p ∈ accepted_plain rs -> Plain p.1 p.2 ∈ rs /\ accepted p.1 p.2 = true.
Proof.
  unfold accepted_plain. intros Hp. apply list_elem_of_omap in Hp as (r & Hr & Heq).
  destruct r as [s e|s e]; [|done].
  destruct (accepted s e) eqn:E; [|done]. injection Heq as <-. done.
Qed.

Lemma accepted_cuda_range rs p :
  p ∈ accepted_cuda rs -> Cuda p.1 p.2 ∈ rs /\ accepted p.1 p.2 = true.
Proof.
  unfold accepted_cuda. intros Hp. apply list_elem_of_omap in Hp as (r & Hr & Heq).
  destruct r as [s e|s e]; [done|].
  destruct (accepted s e) eqn:E; [|done]. injection Heq as <-. done.
Qed.

Lemma last_elem_of {A} (l : list A) x : list.last l = Some x -> x ∈ l.
Proof.
  intros H. apply last_Some in H as [l' ->]. apply elem_of_app. right. left.
Qed.

Lemma last_None_nil {A} (l : list A) : list.last l = None -> l = [].
Proof. by apply last_None. Qed.

(** The image of the [FBCODE_CAFFE2] build, from the calls made. *)
Lemma embedded_image_registered rs sys :
  embedded_image FBCODE_CAFFE2 (registered rs initial) sys =
    default (default (nullptr, nullptr) (list.last (accepted_plain rs)))
      (list.last (accepted_cuda rs)).
Proof.
  rewrite registered_closed. unfold embedded_image. simpl.
  destruct (list.last (accepted_cuda rs)) as [[cs ce]|] eqn:Ec; simpl.
  - apply last_elem_of, accepted_cuda_range in Ec as [_ Hacc].
    apply accepted_range in Hacc as (Hs & He & _). simpl in *.
    destruct (Z.eqb_spec cs nullptr), (Z.eqb_spec ce nullptr); done.
  - destruct (list.last (accepted_plain rs)) as [[ps pe]|] eqn:Ep; simpl; [|done].
    apply last_elem_of, accepted_plain_range in Ep as [_ Hacc].
    apply accepted_range in Hacc as (Hs & He & _). simpl in *.
    destruct (Z.eqb_spec ps nullptr), (Z.eqb_spec pe nullptr); done.
Qed.

(** X6.  In the [FBCODE_CAFFE2] build, after any calls of the two
    registration entry points, the constructor of an interpreter settles on
    the range of the last call of [register_embedded_interpreter_cuda] that
    passed its checks; when there is none, on the range of the last call of
    [register_embedded_interpreter] that passed; when there is none either,
    on no image.  In the other build the constructor takes the pair of
    symbols of the linker, whatever was registered. *)
Theorem image_is_last_registered (rs : list registration) (sys : system) :
  embedded_image FBCODE_CAFFE2 (registered rs initial) sys =
    match list.last (accepted_cuda rs), list.last (accepted_plain rs) with
    | Some cuda, _ => cuda
    | None, Some plain => plain
    | None, None => (nullptr, nullptr)
    end /\
  forall g,
    Interpreter_ctor OSS (registered rs g) sys = Interpreter_ctor OSS initial sys.
Proof.
  split.
  - rewrite embedded_image_registered.
    by destruct (list.last (accepted_cuda rs)), (list.last (accepted_plain rs)).
  - done.
Qed.

(** X7.  In the [FBCODE_CAFFE2] build the constructor of an interpreter
    finds an image exactly when some registration call has passed its
    checks.  The two pointers it settles on are never one null and one not:
    they are both null, or a pair that the checks have let through, and the
    size that [write_tmp_lib] computes for it is then the positive
    difference that the check has seen.  When the pointers of every call
    are less than [2 ^ 63] bytes apart, the pair is the two ends of a range
    that is not empty, and the size is the length of the range. *)
Theorem image_found_iff_registered (rs : list registration) (sys : system) :
  let image := embedded_image FBCODE_CAFFE2 (registered rs initial) sys in
  (image.1 <> nullptr /\ image.2 <> nullptr <->
   exists s e, (Plain s e ∈ rs \/ Cuda s e ∈ rs) /\ accepted s e = true) /\
  checked_or_null image.1 image.2 /\
  (image.1 <> nullptr ->
   0 < wrap64 (image.2 - image.1) /\
   wrap64 (image.2 - image.1) = ptrdiff_t (image.2 - image.1)) /\
  (Forall within_image rs ->
   range_or_null image.1 image.2 /\
   (image.1 <> nullptr -> wrap64 (image.2 - image.1) = image.2 - image.1)).
Proof.
  intros image. unfold image. rewrite embedded_image_registered.
  destruct (list.last (accepted_cuda rs)) as [[cs ce]|] eqn:Ec; simpl.
  - pose proof Ec as Hin. apply last_elem_of, accepted_cuda_range in Hin as [Hin Hacc].
    simpl in *. pose proof Hacc as Hacc'.
    apply accepted_range in Hacc as (Hs & He & Hlt).
    pose proof (EmbeddedFacts.ptrdiff_t_positive _ Hlt) as Hsize.
    split; [|split; [|split]].
    + split; [|done]. intros _. exists cs, ce. split; [by right | done].
    + right. done.
    + intros _. rewrite Hsize. done.
    + intros Haddr. rewrite Forall_forall in Haddr. specialize (Haddr _ Hin).
      destruct Haddr as (_ & _ & Hone).
      rewrite (EmbeddedFacts.ptrdiff_t_small _ Hone) in Hlt, Hsize.
      split; [right; repeat split; [done | done | lia] | done].
  - destruct (list.last (accepted_plain rs)) as [[ps pe]|] eqn:Ep; simpl.
    + pose proof Ep as Hin.
      apply last_elem_of, accepted_plain_range in Hin as [Hin Hacc].
      simpl in *. pose proof Hacc as Hacc'.
      apply accepted_range in Hacc as (Hs & He & Hlt).
      pose proof (EmbeddedFacts.ptrdiff_t_positive _ Hlt) as Hsize.
      split; [|split; [|split]].
      * split; [|done]. intros _. exists ps, pe. split; [by left | done].
      * right. done.
      * intros _. rewrite Hsize. done.
      * intros Haddr. rewrite Forall_forall in Haddr. specialize (Haddr _ Hin).
        destruct Haddr as (_ & _ & Hone).
        rewrite (EmbeddedFacts.ptrdiff_t_small _ Hone) in Hlt, Hsize.
        split; [right; repeat split; [done | done | lia] | done].
    + apply last_None_nil in Ec, Ep. split; [|split; [|split]].
      * split; [by intros [? _]|]. intros (s & e & [Hin|Hin] & Hacc).
        -- assert (Hp : (s, e) ∈ accepted_plain rs).
           { unfold accepted_plain. apply list_elem_of_omap.
             exists (Plain s e). by rewrite Hacc. }
           rewrite Ep in Hp. by apply elem_of_nil in Hp.
        -- assert (Hp : (s, e) ∈ accepted_cuda rs).
           { unfold accepted_cuda. apply list_elem_of_omap.
             exists (Cuda s e). by rewrite Hacc. }
           rewrite Ec in Hp. by apply elem_of_nil in Hp.
      * by left.
      * by intros ?.
      * intros _. split; [by left | by intros ?].
Qed.

Lemma image_found_iff_registered_witness :
  let rs := [Plain 4096 8192; Cuda 0 512; Cuda 16384 16000; Plain 65536 65600] in
  let sys := System 0 0 3 1 (fun n => n) 7 "" (fun _ => 9) false in
  embedded_image FBCODE_CAFFE2 (registered rs initial) sys = (65536, 65600) /\
  Forall within_image rs /\
  range_or_null 65536 65600 /\
  wrap64 (65600 - 65536) = 65600 - 65536.
Proof.
  intros rs sys.
  assert (Haddr : Forall within_image rs).
  { unfold rs, within_image, pointer, one_image. repeat constructor; lia. }
  split; [done|]. split; [exact Haddr|].
  destruct (proj2 (proj2 (proj2 (image_found_iff_registered rs sys))) Haddr)
    as [Hrange Hsize].
  split; [exact Hrange|]. apply Hsize. by vm_compute.
Defined.

End RegistryFacts.

(** * The constructor and the destructor of an interpreter *)

Module LoaderFacts.
Import Embedded Loader.

Local Set Warnings "-clear-no-such-hyp".

(** The constructor, one failure after the other. *)
Lemma Interpreter_ctor_paths b g sys :
  Interpreter_ctor b g sys =
    let '(lib_start, lib_end) := embedded_image b g sys in
    let size := wrap64 (lib_end - lib_start) in
    let opened := [Mkstemp; Fdopen (mkstemp sys)] in
    let closed := opened ++ [Fwrite (fdopen sys) lib_start size; Fclose (fdopen sys);
                             Dlopen (dlopen_flags b)] in
    if mkstemp sys =? -1
    then ([Mkstemp], inl (InternalAssertFailed "fd != -1"))
    else if negb (negb (lib_start =? nullptr) && negb (lib_end =? nullptr))
    then (opened, inl (CheckFailed (no_image_error (is_available sys))))
    else if fdopen sys =? nullptr
    then (opened, inl (InternalAssertFailed "dst"))
    else if negb (size =? fwrite sys size)
    then (opened ++ [Fwrite (fdopen sys) lib_start size],
          inl (InternalAssertFailed "size == written"))
    else if dlopen sys =? nullptr
    then (closed ++ [Dlerror], inl (runtime_error (dlerror sys)))
    else
      match b with
      | FBCODE_CAFFE2 =>
          if dlsym sys "new_interpreter_impl" =? nullptr
          then (closed ++ [Unlink; Dlsym (dlopen sys) "new_interpreter_impl"],
                inl (InternalAssertFailed "new_interpreter_impl"))
          else (closed ++ [Unlink; Dlsym (dlopen sys) "new_interpreter_impl";
                           Call "new_interpreter_impl"],
                inr (dlopen sys))
      | OSS =>
          if dlsym sys "deploy_set_self" =? nullptr
          then (closed ++ [Unlink; Dlsym (dlopen sys) "deploy_set_self"],
                inl (InternalAssertFailed "deploy_set_self_ptr"))
          else if dlsym sys "new_interpreter_impl" =? nullptr
          then (closed ++ [Unlink; Dlsym (dlopen sys) "deploy_set_self";
                           Call "deploy_set_self";
                           Dlsym (dlopen sys) "new_interpreter_impl"],
                inl (InternalAssertFailed "new_interpreter_impl"))
          else (closed ++ [Unlink; Dlsym (dlopen sys) "deploy_set_self";
                           Call "deploy_set_self";
                           Dlsym (dlopen sys) "new_interpreter_impl";
                           Call "new_interpreter_impl"],
                inr (dlopen sys))
      end.
Proof.
  unfold Interpreter_ctor, write_tmp_lib, AT_ASSERT, TORCH_INTERNAL_ASSERT,
    TORCH_CHECK.
  destruct (embedded_image b g sys) as [lib_start lib_end].
  destruct (mkstemp sys =? -1); [done|].
  destruct (lib_start =? nullptr); [done|].
  destruct (lib_end =? nullptr); [done|].
  destruct (fdopen sys =? nullptr); [done|].
  cbn. destruct (wrap64 (lib_end - lib_start) =? fwrite sys _); [|done].
  cbn. destruct (dlopen sys =? nullptr); [done|].
  destruct b; cbn.
  - by destruct (dlsym sys "new_interpreter_impl" =? nullptr).
  - destruct (dlsym sys "deploy_set_self" =? nullptr); [done|]. cbn.
    by destruct (dlsym sys "new_interpreter_impl" =? nullptr).
Qed.

(** The tests of the constructor as propositions. *)
Ltac ctor_cases b g sys :=
  rewrite (Interpreter_ctor_paths b g sys);
  unfold loaded, resolved, written;
  destruct (embedded_image b g sys) as [lib_start lib_end];
  cbv beta iota zeta;
  destruct (Z.eqb_spec (mkstemp sys) (-1));
  [|destruct (Z.eqb_spec lib_start nullptr);
    [|destruct (Z.eqb_spec lib_end nullptr);
      [|destruct (Z.eqb_spec (fdopen sys) nullptr);
        [|destruct (Z.eqb_spec (wrap64 (lib_end - lib_start))
                      (fwrite sys (wrap64 (lib_end - lib_start))));
          [destruct (Z.eqb_spec (dlopen sys) nullptr);
           [|destruct b;
             [destruct (Z.eqb_spec (dlsym sys "new_interpreter_impl") nullptr)
             |destruct (Z.eqb_spec (dlsym sys "deploy_set_self") nullptr);
              [|destruct (Z.eqb_spec (dlsym sys "new_interpreter_impl") nullptr)]]]
          |]]]]];
  cbn [negb andb app fst snd].

(** X8.  The constructor of an interpreter returns exactly when the
    temporary file is created, an image is found, the stream on the file is
    opened, [fwrite] writes the whole image, [dlopen] returns a handle, and
    [dlsym] finds [new_interpreter_impl] and, outside the [FBCODE_CAFFE2]
    build, [deploy_set_self]; in every other case it throws.  The handle it
    keeps is the one [dlopen] returned, which is not null. *)
Theorem Interpreter_ctor_succeeds_iff (b : build) (g : globals) (sys : system) :
  ((exists handle_, (Interpreter_ctor b g sys).2 = inr handle_) <->
   loaded b g sys /\ resolved b sys) /\
  (forall handle_,
     (Interpreter_ctor b g sys).2 = inr handle_ ->
     handle_ = dlopen sys /\ handle_ <> nullptr).
Proof.
  ctor_cases b g sys; (split; [split|]);
    try (intros [h Hh]; discriminate);
    try (intros h Hh; discriminate);
    try (intros h Hh; injection Hh as <-; done);
    try (intros _; by eexists);
    try (intros _; repeat split; done);
    try (intros [[(? & ? & ? & ? & ?) ?] [? ?]]; done).
  all: intros [[(? & ? & ? & ? & ?) ?] [Hself ?]]; by specialize (Hself eq_refl).
Qed.

(** X9.  What the constructor of an interpreter leaves behind.  It closes
    the stream on the temporary file exactly when [write_tmp_lib] has
    returned, and unlinks the file exactly when [dlopen] has returned a
    handle: when no image is found or the image is not written whole, the
    stream stays open and the file stays; when [dlopen] fails, the file
    stays.  It never closes a handle: when an entry point is missing, the
    library stays loaded. *)
Theorem Interpreter_ctor_cleanup (b : build) (g : globals) (sys : system) :
  let tr := (Interpreter_ctor b g sys).1 in
  ((exists dst, Fclose dst ∈ tr) <-> written b g sys) /\
  (Unlink ∈ tr <-> loaded b g sys) /\
  (forall handle, Dlclose handle ∉ tr) /\
  (loaded b g sys -> ~ resolved b sys ->
   exists e, (Interpreter_ctor b g sys).2 = inl (InternalAssertFailed e) /\
             Dlopen (dlopen_flags b) ∈ tr).
Proof.
  ctor_cases b g sys; (split; [split|split; [split|split]]).
  all: try (intros [dst Hdst]; set_unfold; naive_solver).
  all: try (intros Hin; set_unfold; naive_solver).
  all: try (intros (? & ? & ? & ? & ?); done).
  all: try (intros [(? & ? & ? & ? & ?) ?]; done).
  all: try (intros _; eexists; set_unfold; naive_solver).
  all: try (intros _; repeat split; done).
  all: try (intros h Hin; set_unfold; naive_solver).
  all: try (intros [(? & ? & ? & ? & ?) ?] _; done).
  all: try (intros _ _; eexists; split; [done|]; set_unfold; naive_solver).
  all: try (intros _ Hnot; exfalso; apply Hnot; split; done).
Qed.

(** X10.  From the constructor to the destructor.  On an interpreter that
    the constructor has returned, the destructor is defined in the
    [FBCODE_CAFFE2] build, and in the other build exactly when [dlsym]
    finds [deploy_flush_python_libs], which the destructor calls without
    looking at the pointer.  When it is defined, the library is loaded
    once, with [RTLD_LOCAL] and [RTLD_LAZY] and, outside the
    [FBCODE_CAFFE2] build, [RTLD_DEEPBIND]; entered through
    [deploy_set_self] (outside that build) and [new_interpreter_impl]; the
    implementation is destroyed; [deploy_flush_python_libs] is called
    (outside that build); and the handle is closed, last.  On an object
    whose handle is null the destructor does nothing. *)
Theorem Interpreter_lifetime (b : build) (g : globals) (sys : system)
    (tr : list effect) (handle_ : Z) :
  Interpreter_ctor b g sys = (tr, inr handle_) ->
  (Interpreter_dtor b sys handle_ = None <->
   b = OSS /\ dlsym sys "deploy_flush_python_libs" = nullptr) /\
  (forall tr',
     Interpreter_dtor b sys handle_ = Some tr' ->
     List.filter on_library (tr ++ tr') =
       match b with
       | FBCODE_CAFFE2 =>
           [Dlopen [RTLD_LOCAL; RTLD_LAZY]; Call "new_interpreter_impl";
            Reset_pImpl; Dlclose handle_]
       | OSS =>
           [Dlopen [RTLD_LOCAL; RTLD_LAZY; RTLD_DEEPBIND];
            Call "deploy_set_self"; Call "new_interpreter_impl";
            Reset_pImpl; Call "deploy_flush_python_libs"; Dlclose handle_]
       end) /\
  Interpreter_dtor b sys nullptr = Some [].
Proof.
  ctor_cases b g sys; intros Heq; try discriminate;
    injection Heq as <- <-; unfold Interpreter_dtor;
    (destruct (Z.eqb_spec (dlopen sys) nullptr); [done|]).
  - split; [split; [done | by intros [? _]]|]. split; [|done].
    intros tr' Htr. injection Htr as <-. done.
  - destruct (Z.eqb_spec (dlsym sys "deploy_flush_python_libs") nullptr).
    + split; [done|]. split; [|done]. intros tr' Htr. discriminate.
    + split; [split; [done | by intros [_ ?]]|]. split; [|done].
      intros tr' Htr. injection Htr as <-. done.
Qed.

Lemma Interpreter_lifetime_witness :
  let sys := System 4096 8192 3 1 (fun n => n) 7 "" (fun _ => 9) false in
  exists tr,
    Interpreter_ctor OSS initial sys = (tr, inr 7) /\
    Interpreter_dtor OSS sys 7 <> None.
Proof.
  intros sys. eexists. split; [reflexivity|].
  intros Hnone.
  apply (proj1 (proj1 (Interpreter_lifetime OSS initial sys _ 7 eq_refl))) in Hnone.
  destruct Hnone as [_ Hnull]. vm_compute in Hnull. discriminate.
Defined.

End LoaderFacts.

(** * More about sessions and replicated objects *)

Section DeployMore.
Context {Obj PickledObject ImplState : Type}.
Context {RT : InterpreterSessionImpl Obj PickledObject ImplState}.
Context {PY : PythonCalls Obj ImplState}.

Local Abbreviation World := (World PickledObject ImplState).
Local Abbreviation M := (@M PickledObject ImplState).
Local Abbreviation keeps := (keeps (PickledObject:=PickledObject)).

Local Notation "x <- c ;; k" := (bind c (fun x => k))
  (at level 100, c at next level, right associativity).

Lemma runtime_only_refl i (w : World) :
  is_Some (interpreters w !! i) -> runtime_only i w w.
Proof.
  intros [it Hit]. repeat split; try done. by exists it, it.
Qed.

Lemma runtime_only_trans i (w1 w2 w3 : World) :
  runtime_only i w1 w2 -> runtime_only i w2 w3 -> runtime_only i w1 w3.
Proof.
  intros (Hm & Ho & Hl & He & Hj & it1 & it2 & H1 & H2 & Hb)
         (Hm' & Ho' & Hl' & He' & Hj' & it2' & it3 & H2' & H3 & Hb').
  split; [congruence|]. split; [congruence|]. split; [congruence|].
  split; [congruence|]. split.
  - intros j Hne. rewrite Hj' by done. by apply Hj.
  - exists it1, it3. split; [done|]. split; [done|].
    assert (it2' = it2) as -> by congruence. congruence.
Qed.

Lemma runtime_only_interpreter i (w w' : World) :
  runtime_only i w w' -> is_Some (interpreters w' !! i).
Proof. intros (_ & _ & _ & _ & _ & it & it' & _ & H & _). by exists it'. Qed.

Lemma runtime_only_object i h (w w' : World) :
  runtime_only i w w' -> is_Some (objects w !! h) -> is_Some (objects w' !! h).
Proof. intros (_ & Ho & _) H. by rewrite Ho. Qed.

Lemma store_runtime_only i it st (w : World) :
  interpreters w !! i = Some it ->
  runtime_only i w
    (MkWorld (managers w)
       (<[i := Interpreter.Build ImplState st (Interpreter.manager_ it)]>
          (interpreters w))
       (objects w) (last w) (events w)).
Proof.
  intros Hit. repeat split; try done.
  - intros j Hne. simpl. by rewrite lookup_insert_ne.
  - eexists it, _. split; [done|]. simpl. split; [apply lookup_insert_eq | done].
Qed.

Lemma keeps_ret {A} i h (a : A) : keeps i h (ret a : M A).
Proof. intros w Hi _. by apply runtime_only_refl. Qed.

Lemma keeps_throw {A} i h msg : keeps i h (throw msg : M A).
Proof. intros w Hi _. by apply runtime_only_refl. Qed.

Lemma keeps_bind {A B} i h (c : M A) (k : A -> M B) :
  keeps i h c -> (forall a, keeps i h (k a)) -> keeps i h (bind c k).
Proof.
  intros Hc Hk w Hi Hh. specialize (Hc w Hi Hh). unfold bind.
  destruct (c w) as [a w1|msg w1|]; [|done|done].
  specialize (Hk a w1 (runtime_only_interpreter _ _ _ Hc)
                (runtime_only_object _ h _ _ Hc Hh)).
  destruct (k a w1) as [b w2|msg w2|]; [| |done];
    by apply (runtime_only_trans _ _ w1).
Qed.

Lemma keeps_on_runtime {A} i h (f : ImplState -> string + (A * ImplState)) :
  keeps i h (on_runtime i f).
Proof.
  intros w [it Hit] _. unfold on_runtime, bind, interpreter_at. rewrite Hit.
  destruct (f (Interpreter.pImpl_ it)) as [msg|[a st]]; simpl.
  - apply runtime_only_refl. by exists it.
  - by apply store_runtime_only.
Qed.

Lemma keeps_toIValue (sess : InterpreterSession.t Obj) h o :
  keeps (InterpreterSession.impl_ sess) h (Obj_toIValue sess o).
Proof.
  intros w [it Hit] _. unfold Obj_toIValue, bind, interpreter_at. rewrite Hit.
  destruct (toIValue (Interpreter.pImpl_ it) o) as [msg|v]; simpl;
    apply runtime_only_refl; by exists it.
Qed.

(** [from_movable], on a session of interpreter [i]. *)
Lemma from_movable_spec (sess : InterpreterSession.t Obj) (h : ReplicatedObj.t)
    impl owners it (w : World) :
  objects w !! ReplicatedObj.pImpl_ h = Some (impl, owners) ->
  interpreters w !! InterpreterSession.impl_ sess = Some it ->
  InterpreterSession_from_movable sess h w =
    match unpickle_or_get (Interpreter.pImpl_ it)
            (ReplicatedObjImpl.object_id_ impl) (ReplicatedObjImpl.data_ impl) with
    | inr (v, st) =>
        Returns v
          (MkWorld (managers w)
             (<[InterpreterSession.impl_ sess :=
                  Interpreter.Build ImplState st (Interpreter.manager_ it)]>
                (interpreters w))
             (objects w) (last w) (events w))
    | inl msg => Throws msg w
    end.
Proof.
  intros Hobj Hit.
  unfold InterpreterSession_from_movable, bind, object_at, impl_unpickle_or_get,
    bind, interpreter_at, store_interpreter, ret, throw.
  rewrite Hobj, Hit.
  by destruct (unpickle_or_get _ _ _) as [msg|[v st]].
Qed.

Lemma keeps_from_movable (sess : InterpreterSession.t Obj) (h : ReplicatedObj.t) :
  keeps (InterpreterSession.impl_ sess) (ReplicatedObj.pImpl_ h)
    (InterpreterSession_from_movable sess h).
Proof.
  intros w [it Hit] [[impl owners] Hobj].
  rewrite (from_movable_spec sess h impl owners it w Hobj Hit).
  destruct (unpickle_or_get _ _ _) as [msg|[v st]].
  - apply runtime_only_refl. by exists it.
  - by apply store_runtime_only.
Qed.

Lemma keeps_getArgumentNames global_first (sess : InterpreterSession.t Obj)
    (h : ReplicatedObj.t) :
  keeps (InterpreterSession.impl_ sess) (ReplicatedObj.pImpl_ h)
    (getArgumentNames global_first sess h).
Proof.
  unfold getArgumentNames. apply keeps_bind.
  - destruct global_first.
    + apply keeps_bind; [apply keeps_on_runtime|]. intros f.
      apply keeps_bind; [apply keeps_from_movable|]. intros a. apply keeps_ret.
    + apply keeps_bind; [apply keeps_from_movable|]. intros a.
      apply keeps_bind; [apply keeps_on_runtime|]. intros f. apply keeps_ret.
  - intros fa. apply keeps_bind; [apply keeps_on_runtime|]. intros r.
    apply keeps_toIValue.
Qed.

(** The destructor of a session that [acquire_one] has tagged, run on a
    world where the manager is as [acquire_one] left it, puts the manager
    back as it was before [acquire_one]. *)
Lemma dtor_restores (sess : InterpreterSession.t Obj) p m where_ lb l'
    (w w2 : World) :
  managers w !! p = Some m ->
  LoadBalancer.wf (InterpreterManager.resources_ m) ->
  LoadBalancer.tl_ok (last w) ->
  LoadBalancer.acquire (InterpreterManager.resources_ m) (last w) = (where_, lb, l') ->
  InterpreterSession.manager_ sess = Some p ->
  InterpreterSession.notify_idx_ sess = where_ ->
  managers w2 =
    <[p := InterpreterManager.Build (InterpreterManager.next_object_id_ m)
             (InterpreterManager.instances_ m) lb]> (managers w) ->
  InterpreterSession_dtor sess w2 =
    Returns tt (MkWorld (managers w) (interpreters w2) (objects w2) (last w2)
                  (events w2 ++ [SlotFreed p where_])).
Proof.
  intros Hm Hwf Hl Hacq Hp Hidx Hm2.
  destruct (LoadBalancerFacts.acquire_wf _ _ _ _ _ Hwf Hl Hacq) as (_ & _ & Hr & _).
  rewrite (InterpreterSession_dtor_tagged sess p
             (InterpreterManager.Build (InterpreterManager.next_object_id_ m)
                (InterpreterManager.instances_ m) lb));
    [| done | lia | by rewrite Hm2, lookup_insert_eq].
  rewrite Hidx. simpl. do 2 f_equal.
  rewrite Hm2, insert_insert_eq.
  rewrite (LoadBalancerFacts.acquire_free _ _ _ _ _ Hwf Hl Hacq).
  apply insert_id. rewrite Hm. by destruct m.
Qed.

Lemma push_argument_names_spec elems :
  forall out,
    push_argument_names elems out =
      (out ++ leading_strings elems, forallb is_string elems).
Proof.
  induction elems as [|v elems IH]; intros out.
  - simpl. by rewrite app_nil_r.
  - destruct v as [l|s|]; simpl; try by rewrite app_nil_r.
    rewrite IH. by rewrite <- app_assoc.
Qed.

Lemma leading_strings_all elems :
  forallb is_string elems = true -> elems = IString <$> leading_strings elems.
Proof.
  induction elems as [|v elems IH]; [done|].
  destruct v as [l|s|]; simpl; try done. intros H. f_equal. by apply IH.
Qed.

Lemma leading_strings_some elems :
  forallb is_string elems = false ->
  (length (leading_strings elems) < length elems)%nat.
Proof.
  induction elems as [|v elems IH]; [done|].
  destruct v as [l|s|]; simpl; try lia. intros H. specialize (IH H). lia.
Qed.

(** The destructor of the session, after calls that only touched the
    runtime of its interpreter. *)
Lemma dtor_session_over (sess : InterpreterSession.t Obj) p m where_ lb l' i
    (w w2 : World) :
  managers w !! p = Some m ->
  LoadBalancer.wf (InterpreterManager.resources_ m) ->
  LoadBalancer.tl_ok (last w) ->
  LoadBalancer.acquire (InterpreterManager.resources_ m) (last w) = (where_, lb, l') ->
  InterpreterSession.manager_ sess = Some p ->
  InterpreterSession.notify_idx_ sess = where_ ->
  runtime_only i
    (MkWorld
       (<[p := InterpreterManager.Build (InterpreterManager.next_object_id_ m)
                 (InterpreterManager.instances_ m) lb]> (managers w))
       (interpreters w) (objects w) l'
       (events w ++ [SlotAcquired p where_; SessionAcquired i])) w2 ->
  exists w3,
    InterpreterSession_dtor sess w2 = Returns tt w3 /\
    session_over p where_ i w w3.
Proof.
  intros Hm Hwf Hl Hacq Hp Hidx (Hm2 & Ho2 & Hl2 & He2 & Hj2 & _).
  simpl in *. eexists. split.
  - by apply (dtor_restores sess p m where_ lb l' w w2).
  - split; [done|]. split; [done|]. simpl. split; [|done].
    rewrite He2. by rewrite <- app_assoc.
Qed.

(** X11.  [setArgumentNames] gives back the slot it takes.  On a replicated
    object of a well-formed pool the call acquires one slot of the
    balancer, for a session on the interpreter of that slot, and frees this
    slot again, once, whether it returns or throws, and whichever of the
    calls into Python fails: when it is over the managers, and with them
    the usage counters, are as they were before, as are the replicated
    objects, and only the runtime of that interpreter may have changed. *)
Theorem setArgumentNames_releases_slot (global_first : bool)
    (model_ : ReplicatedObj.t) (argumentNamesOut : list string) (w : World)
    (impl : ReplicatedObjImpl.t PickledObject) (owners : nat) (p : mptr)
    (m : InterpreterManager.t) :
  objects w !! ReplicatedObj.pImpl_ model_ = Some (impl, owners) ->
  ReplicatedObjImpl.manager_ impl = Some p ->
  pool_ok w p m -> LoadBalancer.tl_ok (last w) ->
  let where_ :=
    (LoadBalancer.acquire (InterpreterManager.resources_ m) (last w)).1.1 in
  exists i,
    InterpreterManager.instances_ m !! Z.to_nat where_ = Some i /\
    match (PythonMethodWrapper_setArgumentNames global_first model_
             argumentNamesOut w).1 with
    | Returns _ w' | Throws _ w' => session_over p where_ i w w'
    | Undefined => False
    end.
Proof.
  intros Hobj Hp Hpool Hl where_.
  destruct (acquire_one_spec (Obj:=Obj) p m w Hpool Hl)
    as (r & lb & l' & i & it & Hacq & Hr & Hi & Hit & Hrun).
  assert (where_ = r) as -> by (unfold where_; by rewrite Hacq).
  exists i. split; [done|].
  destruct Hpool as (Hm & Hwf & _).
  set (w0 := MkWorld
       (<[p := InterpreterManager.Build (InterpreterManager.next_object_id_ m)
                 (InterpreterManager.instances_ m) lb]> (managers w))
       (interpreters w) (objects w) l'
       (events w ++ [SlotAcquired p r; SessionAcquired i])) in *.
  set (s0 := InterpreterSession.Build Obj i (Some p) r None) in *.
  assert (Hrel : forall (sess : InterpreterSession.t Obj) w2,
            InterpreterSession.manager_ sess = Some p ->
            InterpreterSession.notify_idx_ sess = r ->
            runtime_only i w0 w2 ->
            exists w3, InterpreterSession_dtor sess w2 = Returns tt w3 /\
                       session_over p r i w w3).
  { intros sess w2 Hsp Hsr Hw2.
    by apply (dtor_session_over sess p m r lb l' i w w2). }
  assert (Hi0 : is_Some (interpreters w0 !! i)) by (by exists it).
  assert (Hh0 : is_Some (objects w0 !! ReplicatedObj.pImpl_ model_))
    by (by eexists).
  assert (Hsess : ReplicatedObj_acquire_session model_ None w =
            on_throw
              (v <- InterpreterSession_from_movable s0 model_ ;;
               ret (InterpreterSession.Build Obj i (Some p) r (Some v)))
              (InterpreterSession_dtor s0) w0).
  { unfold ReplicatedObj_acquire_session.
    rewrite (bind_Returns _ _ w w0 s0) by
      (unfold bind, object_at; by rewrite Hobj, Hp).
    done. }
  unfold PythonMethodWrapper_setArgumentNames. rewrite Hsess. clear Hsess.
  pose proof (keeps_from_movable s0 model_ w0 Hi0 Hh0) as Hfm.
  destruct (InterpreterSession_from_movable s0 model_ w0) as [v w1|msg w1|] eqn:Efm;
    [| |done].
  - assert (Hs : on_throw
                   (v <- InterpreterSession_from_movable s0 model_ ;;
                    ret (InterpreterSession.Build Obj i (Some p) r (Some v)))
                   (InterpreterSession_dtor s0) w0 =
                 Returns (InterpreterSession.Build Obj i (Some p) r (Some v)) w1)
      by (unfold on_throw, bind; by rewrite Efm).
    rewrite Hs. clear Hs.
    set (session := InterpreterSession.Build Obj i (Some p) r (Some v)).
    set (body := bind (getArgumentNames global_first session model_) _).
    assert (Hbody : keeps i (ReplicatedObj.pImpl_ model_) body).
    { apply keeps_bind; [apply (keeps_getArgumentNames global_first session)|].
      intros [l|s|]; [apply keeps_ret | apply keeps_throw | apply keeps_throw]. }
    specialize (Hbody w1 (runtime_only_interpreter _ _ _ Hfm)
                  (runtime_only_object _ _ _ _ Hfm Hh0)).
    unfold on_throw at 1.
    destruct (body w1) as [names w2|msg w2|]; [| |done].
    + pose proof (runtime_only_trans _ _ _ _ Hfm Hbody) as Hw2.
      destruct (Hrel session w2 eq_refl eq_refl Hw2) as (w3 & Hdtor & Hover).
      rewrite push_argument_names_spec.
      destruct (forallb is_string names); simpl.
      * by rewrite Hdtor.
      * unfold on_throw, throw. by rewrite Hdtor.
    + pose proof (runtime_only_trans _ _ _ _ Hfm Hbody) as Hw2.
      destruct (Hrel session w2 eq_refl eq_refl Hw2) as (w3 & Hdtor & Hover).
      by rewrite Hdtor.
  - destruct (Hrel s0 w1 eq_refl eq_refl Hfm) as (w3 & Hdtor & Hover).
    assert (Hs : on_throw
                   (v <- InterpreterSession_from_movable s0 model_ ;;
                    ret (InterpreterSession.Build Obj i (Some p) r (Some v)))
                   (InterpreterSession_dtor s0) w0 = Throws msg w3)
      by (unfold on_throw, bind; by rewrite Efm, Hdtor).
    by rewrite Hs.
Qed.

(** X12.  What [setArgumentNames] does to the vector.  When the calls into
    Python give a list, the call appends the strings at the head of the list
    to [argumentNamesOut], in order; it returns when every element is a
    string, and the vector then holds the old elements followed by all the
    names.  At the first element that is not a string it throws, and the
    names before that element stay appended.  When Python gives a value
    that is not a list the call throws and the vector is as it was.  In
    each case the destructor of the session runs. *)
Theorem setArgumentNames_appends (global_first : bool) (model_ : ReplicatedObj.t)
    (argumentNamesOut : list string) (w w1 w2 : World)
    (session : InterpreterSession.t Obj) (iArgumentNames : IValue) :
  ReplicatedObj_acquire_session model_ None w = Returns session w1 ->
  getArgumentNames global_first session model_ w1 = Returns iArgumentNames w2 ->
  let result :=
    PythonMethodWrapper_setArgumentNames global_first model_ argumentNamesOut w in
  match iArgumentNames with
  | IList argumentNames =>
      result.2 = argumentNamesOut ++ leading_strings argumentNames /\
      (forallb is_string argumentNames = true ->
       result.1 = InterpreterSession_dtor session w2 /\
       argumentNames = IString <$> leading_strings argumentNames) /\
      (forallb is_string argumentNames = false ->
       (exists msg,
          result.1 = on_throw (throw msg) (InterpreterSession_dtor session) w2) /\
       (length (leading_strings argumentNames) < length argumentNames)%nat)
  | _ =>
      result.2 = argumentNamesOut /\
      exists msg,
        result.1 = on_throw (throw msg) (InterpreterSession_dtor session) w2
  end.
Proof.
  intros Hacq Hget result.
  assert (Hres : result =
            match iArgumentNames with
            | IList argumentNames =>
                ((if forallb is_string argumentNames
                  then InterpreterSession_dtor session w2
                  else on_throw (throw "argumentName.isString()")
                         (InterpreterSession_dtor session) w2),
                 argumentNamesOut ++ leading_strings argumentNames)
            | _ =>
                (on_throw (throw "iArgumentNames.isList()")
                   (InterpreterSession_dtor session) w2,
                 argumentNamesOut)
            end).
  { unfold result, PythonMethodWrapper_setArgumentNames. rewrite Hacq.
    unfold on_throw at 1. unfold bind. rewrite Hget.
    destruct iArgumentNames as [names|s|]; cbn [ret throw].
    - by rewrite push_argument_names_spec.
    - unfold on_throw, throw. by destruct (InterpreterSession_dtor session w2).
    - unfold on_throw, throw. by destruct (InterpreterSession_dtor session w2). }
  rewrite Hres. clear Hres result.
  destruct iArgumentNames as [names|s|]; cbn [fst snd].
  - split; [done|]. split.
    + intros Hall. rewrite Hall. split; [done|]. by apply leading_strings_all.
    + intros Hall. rewrite Hall. split; [by eexists|].
      by apply leading_strings_some.
  - split; [done|]. by eexists.
  - split; [done|]. by eexists.
Qed.

(** X13.  [unload] leaves the handle usable.  [ReplicatedObj::unload] on an
    interpreter has the runtime of that interpreter drop the id and leaves
    the replicated object, its id and its payload as they were; the next
    [from_movable] of the handle in a session on that interpreter hands the
    runtime the same id and the same payload, on the state [unload] left. *)
Theorem unload_then_from_movable (h : ReplicatedObj.t) (w : World)
    (impl : ReplicatedObjImpl.t PickledObject) (owners : nat)
    (i : iptr) (it : Interpreter.t ImplState) :
  objects w !! ReplicatedObj.pImpl_ h = Some (impl, owners) ->
  interpreters w !! i = Some it ->
  let id := ReplicatedObjImpl.object_id_ impl in
  let data := ReplicatedObjImpl.data_ impl in
  exists w1,
    ReplicatedObj_unload h (Some i) w = Returns tt w1 /\
    objects w1 = objects w /\ managers w1 = managers w /\
    interpreters w1 !! i =
      Some (Interpreter.Build ImplState (unload (Interpreter.pImpl_ it) id)
              (Interpreter.manager_ it)) /\
    forall sess : InterpreterSession.t Obj,
      InterpreterSession.impl_ sess = i ->
      InterpreterSession_from_movable sess h w1 =
        match unpickle_or_get (unload (Interpreter.pImpl_ it) id) id data with
        | inr (v, st) =>
            Returns v
              (MkWorld (managers w1)
                 (<[i := Interpreter.Build ImplState st (Interpreter.manager_ it)]>
                    (interpreters w1))
                 (objects w1) (last w1) (events w1))
        | inl msg => Throws msg w1
        end.
Proof.
  intros Hobj Hit id data.
  exists (unloaded id i it w). split; [|split; [done|split; [done|split]]].
  - unfold ReplicatedObj_unload, bind, object_at. rewrite Hobj.
    apply (unload_on_spec impl i it w Hit).
  - simpl. apply lookup_insert_eq.
  - intros sess <-.
    rewrite (from_movable_spec sess h impl owners
               (Interpreter.Build ImplState (unload (Interpreter.pImpl_ it) id)
                  (Interpreter.manager_ it)) (unloaded id _ it w));
      [done | done | simpl; apply lookup_insert_eq].
Qed.

(** X14.  From [create_movable] to [from_movable].  The handle that
    [create_movable] returns can be materialized in a session on any
    interpreter: [from_movable] hands the runtime of that interpreter the
    id that was the value of the manager's counter when [create_movable]
    was called, and the payload that [pickle] returned.  A second
    [create_movable] on the world the first one left takes the next id. *)
Theorem create_movable_then_from_movable (sess : InterpreterSession.t Obj)
    (obj : Obj) (w : World) (p : mptr) (m : InterpreterManager.t)
    (it : Interpreter.t ImplState) (pickled : PickledObject) :
  InterpreterSession.manager_ sess = Some p ->
  managers w !! p = Some m ->
  interpreters w !! InterpreterSession.impl_ sess = Some it ->
  pickle (Interpreter.pImpl_ it) (InterpreterSession.self sess) obj = inr pickled ->
  exists r w1,
    InterpreterSession_create_movable sess obj w = Returns r w1 /\
    (forall (sess2 : InterpreterSession.t Obj) it2,
       interpreters w !! InterpreterSession.impl_ sess2 = Some it2 ->
       InterpreterSession_from_movable sess2 r w1 =
         match unpickle_or_get (Interpreter.pImpl_ it2)
                 (InterpreterManager.next_object_id_ m) pickled with
         | inr (v, st) =>
             Returns v
               (MkWorld (managers w1)
                  (<[InterpreterSession.impl_ sess2 :=
                       Interpreter.Build ImplState st (Interpreter.manager_ it2)]>
                     (interpreters w1))
                  (objects w1) (last w1) (events w1))
         | inl msg => Throws msg w1
         end) /\
    exists r' w2 impl',
      InterpreterSession_create_movable sess obj w1 = Returns r' w2 /\
      r' <> r /\
      objects w2 !! ReplicatedObj.pImpl_ r' = Some (impl', 1%nat) /\
      ReplicatedObjImpl.object_id_ impl' = InterpreterManager.next_object_id_ m + 1.
Proof.
  intros Hp Hm Hit Hpickle.
  assert (Hcreate : forall (w0 : World) m0,
            managers w0 !! p = Some m0 ->
            interpreters w0 !! InterpreterSession.impl_ sess = Some it ->
            InterpreterSession_create_movable sess obj w0 =
              Returns (ReplicatedObj.Build (fresh (dom (objects w0))))
                (MkWorld
                   (<[p := InterpreterManager.Build
                             (InterpreterManager.next_object_id_ m0 + 1)
                             (InterpreterManager.instances_ m0)
                             (InterpreterManager.resources_ m0)]> (managers w0))
                   (interpreters w0)
                   (<[fresh (dom (objects w0)) :=
                        (ReplicatedObjImpl.Build PickledObject
                           (InterpreterManager.next_object_id_ m0) pickled (Some p),
                         1%nat)]> (objects w0))
                   (last w0)
                   (events w0 ++ [IdAllocated p (InterpreterManager.next_object_id_ m0)]))).
  { intros w0 m0 Hm0 Hit0. unfold InterpreterSession_create_movable. rewrite Hp.
    unfold bind at 1. rewrite (impl_pickle_spec _ _ _ _ _ Hit0), Hpickle.
    by rewrite (bind_Returns _ _ _ _ _ (next_object_id_incr_spec _ _ _ Hm0)). }
  eexists _, _. split; [by apply (Hcreate w m)|]. split.
  - intros sess2 it2 Hit2.
    rewrite (from_movable_spec sess2 _
               (ReplicatedObjImpl.Build PickledObject
                  (InterpreterManager.next_object_id_ m) pickled (Some p))
               1%nat it2); [done | simpl; apply lookup_insert_eq | done].
  - eexists _, _, _. split; [|split; [|split]].
    + apply Hcreate; simpl; [apply lookup_insert_eq | done].
    + simpl. intros Heq. injection Heq as Heq.
      pose proof (is_fresh (dom (<[fresh (dom (objects w)) :=
                     (ReplicatedObjImpl.Build PickledObject
                        (InterpreterManager.next_object_id_ m) pickled (Some p),
                      1%nat)]> (objects w)))) as Hfresh.
      rewrite Heq in Hfresh. apply Hfresh.
      rewrite dom_insert. set_solver.
    + simpl. apply lookup_insert_eq.
    + done.
Qed.

End DeployMore.

(** * The same on an example *)

Section MoreExamples.
Local Existing Instance Arena.runtime.
Local Existing Instance ArenaPython.calls.

Lemma arena_pool_with_objects (w : World Z (gmap Z Z)) n :
  managers w =
    {[ 1%positive :=
         InterpreterManager.Build n [1%positive; 2%positive] (LoadBalancer.fresh 2) ]} ->
  interpreters w = interpreters Arena.world ->
  pool_ok w 1%positive
    (InterpreterManager.Build n [1%positive; 2%positive] (LoadBalancer.fresh 2)).
Proof.
  intros Hm Hi. split; [by rewrite Hm|].
  split; [apply LoadBalancerFacts.fresh_wf; by vm_compute|].
  split; [done|]. intros i Hin. rewrite Hi.
  apply elem_of_cons in Hin as [->|Hin]; [by eexists|].
  apply elem_of_cons in Hin as [->|Hin]; [by eexists|].
  by apply elem_of_nil in Hin.
Qed.

Lemma setArgumentNames_releases_slot_witness :
  let w := ArenaPython.world_with_objects in
  objects w !! 2%positive =
    Some (ReplicatedObjImpl.Build Z 1 142 (Some 1%positive), 1%nat) /\
  LoadBalancer.tl_ok (last w) /\
  match (PythonMethodWrapper_setArgumentNames true (ReplicatedObj.Build 2)
           ["self"] w).1 with
  | Returns _ w' | Throws _ w' => managers w' = managers w
  | Undefined => False
  end.
Proof.
  intros w.
  assert (Hobj : objects w !! 2%positive =
            Some (ReplicatedObjImpl.Build Z 1 142 (Some 1%positive), 1%nat)) by done.
  assert (Hl : LoadBalancer.tl_ok (last w)) by (by vm_compute).
  split; [exact Hobj|]. split; [exact Hl|].
  destruct (setArgumentNames_releases_slot true (ReplicatedObj.Build 2) ["self"] w
              _ _ 1%positive _ Hobj eq_refl
              (arena_pool_with_objects w 2 eq_refl eq_refl) Hl) as (i & _ & Hover).
  destruct (PythonMethodWrapper_setArgumentNames true (ReplicatedObj.Build 2)
              ["self"] w).1 as [u w'|msg w'|]; [| |done];
    exact (proj1 Hover).
Defined.

Lemma setArgumentNames_appends_witness :
  let w := ArenaPython.world_with_objects in
  (PythonMethodWrapper_setArgumentNames true (ReplicatedObj.Build 1) ["self"] w).2 =
    ["self"; "input"; "weight"] /\
  (PythonMethodWrapper_setArgumentNames false (ReplicatedObj.Build 2) ["self"] w).2 =
    ["self"; "input"].
Proof.
  intros w. split.
  - destruct (ReplicatedObj_acquire_session (ReplicatedObj.Build 1) None w)
      as [session w1|msg w1|] eqn:Hacq; [|by vm_compute in Hacq..].
    destruct (getArgumentNames true session (ReplicatedObj.Build 1) w1)
      as [iv w2|msg w2|] eqn:Hget.
    + pose proof (setArgumentNames_appends true (ReplicatedObj.Build 1) ["self"]
                    w w1 w2 session iv Hacq Hget) as H.
      assert (iv = IList [IString "input"; IString "weight"]) as ->.
      { vm_compute in Hacq. injection Hacq as <- <-.
        vm_compute in Hget. by injection Hget as <- _. }
      exact (proj1 H).
    + vm_compute in Hacq. injection Hacq as <- <-.
      vm_compute in Hget. discriminate.
    + vm_compute in Hacq. injection Hacq as <- <-.
      vm_compute in Hget. discriminate.
  - destruct (ReplicatedObj_acquire_session (ReplicatedObj.Build 2) None w)
      as [session w1|msg w1|] eqn:Hacq; [|by vm_compute in Hacq..].
    destruct (getArgumentNames false session (ReplicatedObj.Build 2) w1)
      as [iv w2|msg w2|] eqn:Hget.
    + pose proof (setArgumentNames_appends false (ReplicatedObj.Build 2) ["self"]
                    w w1 w2 session iv Hacq Hget) as H.
      assert (iv = IList [IString "input"; IOther; IString "weight"]) as ->.
      { vm_compute in Hacq. injection Hacq as <- <-.
        vm_compute in Hget. by injection Hget as <- _. }
      exact (proj1 H).
    + vm_compute in Hacq. injection Hacq as <- <-.
      vm_compute in Hget. discriminate.
    + vm_compute in Hacq. injection Hacq as <- <-.
      vm_compute in Hget. discriminate.
Defined.

Lemma unload_then_from_movable_witness :
  let w := Arena.world_with_object in
  objects w !! 1%positive = Some (Arena.object, 1%nat) /\
  exists w1 w2,
    ReplicatedObj_unload (ReplicatedObj.Build 1) (Some 2%positive) w = Returns tt w1 /\
    objects w1 = objects w /\
    InterpreterSession_from_movable
      (InterpreterSession.Build Z 2%positive (Some 1%positive) (-1) None)
      (ReplicatedObj.Build 1) w1 = Returns 42 w2.
Proof.
  intros w. split; [done|].
  destruct (unload_then_from_movable (ReplicatedObj.Build 1) w Arena.object 1%nat
              2%positive (Interpreter.Build (gmap Z Z) ∅ (Some 1%positive))
              eq_refl eq_refl) as (w1 & Hrun & Hobj & _ & _ & Hfrom).
  exists w1. eexists. split; [exact Hrun|]. split; [exact Hobj|].
  exact (Hfrom (InterpreterSession.Build Z 2%positive (Some 1%positive) (-1) None)
           eq_refl).
Defined.

Lemma create_movable_then_from_movable_witness :
  exists r w1 w2,
    InterpreterSession_create_movable Arena.session 7 Arena.world = Returns r w1 /\
    InterpreterSession_from_movable
      (InterpreterSession.Build Z 2%positive (Some 1%positive) (-1) None) r w1 =
      Returns 7 w2.
Proof.
  destruct (create_movable_then_from_movable (RT:=Arena.runtime) Arena.session 7
              Arena.world 1%positive Arena.manager
              (Interpreter.Build (gmap Z Z) ∅ (Some 1%positive)) 7
              eq_refl eq_refl eq_refl eq_refl) as (r & w1 & Hrun & Hfrom & _).
  exists r, w1. eexists. split; [exact Hrun|].
  exact (Hfrom (InterpreterSession.Build Z 2%positive (Some 1%positive) (-1) None)
           (Interpreter.Build (gmap Z Z) ∅ (Some 1%positive)) eq_refl).
Defined.

End MoreExamples.

(** * The constructor of a manager *)

Section ManagerFacts.
Context {Obj PickledObject ImplState : Type}.
Context {SU : InterpreterSetup ImplState}.

Local Abbreviation World := (World PickledObject ImplState).
Local Abbreviation M := (@M PickledObject ImplState).

Lemma to_int_small z : 0 <= z <= INT_MAX -> to_int z = z.
Proof.
  unfold to_int, INT_MAX. intros Hz. rewrite Z.mod_small by lia. lia.
Qed.

(** One iteration, when the interpreter is built and set up, when it is not
    built, and when it is built and not set up. *)
Lemma setup_instance_ok b g sys p i (w : World) m h st :
  managers w !! p = Some m ->
  (Loader.Interpreter_ctor b g sys).2 = inr h ->
  set_interp new_interpreter_impl (to_int i) = inr st ->
  setup_instance (Obj:=Obj) b g sys p i w =
    Returns tt
      (MkWorld
         (<[p := InterpreterManager.Build (InterpreterManager.next_object_id_ m)
                   (InterpreterManager.instances_ m ++ [fresh (dom (interpreters w))])
                   (InterpreterManager.resources_ m)]> (managers w))
         (<[fresh (dom (interpreters w)) :=
              Interpreter.Build ImplState (set_find_module st p) (Some p)]>
            (interpreters w))
         (objects w) (last w)
         (events w ++ [SessionAcquired (fresh (dom (interpreters w)))])).
Proof.
  intros Hm Hctor Hset.
  unfold setup_instance, bind, emplace_back. rewrite Hctor, Hm.
  unfold Interpreter_acquire_session, bind, interpreter_at, log, ret. simpl.
  rewrite lookup_insert_eq. simpl.
  unfold on_throw, bind, on_runtime, bind, interpreter_at, store_interpreter, ret.
  simpl. rewrite lookup_insert_eq. simpl. rewrite Hset. simpl.
  rewrite lookup_insert_eq. simpl. by rewrite !insert_insert_eq.
Qed.

Lemma setup_instance_not_built b g sys p i (w : World) e :
  (Loader.Interpreter_ctor b g sys).2 = inl e ->
  setup_instance (Obj:=Obj) b g sys p i w = Throws (what e) w.
Proof.
  intros Hctor. unfold setup_instance, bind, emplace_back. by rewrite Hctor.
Qed.

Lemma setup_instance_not_set_up b g sys p i (w : World) m h msg :
  managers w !! p = Some m ->
  (Loader.Interpreter_ctor b g sys).2 = inr h ->
  set_interp new_interpreter_impl (to_int i) = inl msg ->
  setup_instance (Obj:=Obj) b g sys p i w =
    Throws msg
      (MkWorld
         (<[p := InterpreterManager.Build (InterpreterManager.next_object_id_ m)
                   (InterpreterManager.instances_ m ++ [fresh (dom (interpreters w))])
                   (InterpreterManager.resources_ m)]> (managers w))
         (<[fresh (dom (interpreters w)) :=
              Interpreter.Build ImplState new_interpreter_impl (Some p)]>
            (interpreters w))
         (objects w) (last w)
         (events w ++ [SessionAcquired (fresh (dom (interpreters w)))])).
Proof.
  intros Hm Hctor Hset.
  unfold setup_instance, bind, emplace_back. rewrite Hctor, Hm.
  unfold Interpreter_acquire_session, bind, interpreter_at, log, ret. simpl.
  rewrite lookup_insert_eq. simpl.
  unfold on_throw, bind, on_runtime, bind, interpreter_at, store_interpreter, ret,
    throw.
  simpl. rewrite lookup_insert_eq. simpl. by rewrite Hset.
Qed.

Lemma fresh_interpreter (w : World) : interpreters w !! fresh (dom (interpreters w)) = None.
Proof. apply not_elem_of_dom, is_fresh. Qed.

(** The pool after one more interpreter, then some more. *)
Lemma pool_grown_cons p m inst news st0 (w w' : World) :
  let w1 := MkWorld
      (<[p := InterpreterManager.Build (InterpreterManager.next_object_id_ m)
                (InterpreterManager.instances_ m ++ [inst])
                (InterpreterManager.resources_ m)]> (managers w))
      (<[inst := Interpreter.Build ImplState st0 (Some p)]> (interpreters w))
      (objects w) (last w) (events w ++ [SessionAcquired inst]) in
  interpreters w !! inst = None ->
  pool_grown p
    (InterpreterManager.Build (InterpreterManager.next_object_id_ m)
       (InterpreterManager.instances_ m ++ [inst])
       (InterpreterManager.resources_ m)) news w1 w' ->
  pool_grown p m (inst :: news) w w'.
Proof.
  intros w1 Hnew (Hm & Ho & Hl & He & Hnd & Hnone & Hsame). simpl in *.
  assert (Hnotin : inst ∉ news).
  { intros Hin. specialize (Hnone inst Hin). by rewrite lookup_insert_eq in Hnone. }
  split; [|split; [done|split; [done|split; [|split; [|split]]]]].
  - rewrite Hm, insert_insert_eq. by rewrite <- app_assoc.
  - rewrite He. by rewrite <- app_assoc.
  - by apply NoDup_cons.
  - intros x Hx. apply elem_of_cons in Hx as [->|Hx]; [done|].
    specialize (Hnone x Hx).
    destruct (decide (inst = x)) as [<-|Hne]; [done|].
    by rewrite lookup_insert_ne in Hnone.
  - intros j Hj. apply not_elem_of_cons in Hj as [Hne Hj].
    rewrite (Hsame j Hj). by rewrite lookup_insert_ne.
Qed.

Lemma pool_grown_nil p m (w : World) :
  managers w !! p = Some m -> pool_grown p m [] w w.
Proof.
  intros Hm. split; [|split; [done|split; [done|split; [|split; [|split]]]]].
  - rewrite app_nil_r. symmetry. apply insert_id. rewrite Hm. by destruct m.
  - simpl. by rewrite app_nil_r.
  - constructor.
  - intros x Hx. by apply elem_of_nil in Hx.
  - done.
Qed.

(** The loop, when every interpreter is built and set up. *)
Lemma setup_instances_ok b g sys p fuel :
  forall i (w : World) m,
    managers w !! p = Some m ->
    (forall j, i <= j < i + Z.of_nat fuel -> instance_ok b g sys j) ->
    exists w' news,
      setup_instances (Obj:=Obj) b g sys p i fuel w = Returns tt w' /\
      pool_grown p m news w w' /\
      length news = fuel /\
      forall idx x, news !! idx = Some x ->
        exists st, set_interp new_interpreter_impl (to_int (i + Z.of_nat idx)) = inr st /\
                   interpreters w' !! x =
                     Some (Interpreter.Build ImplState (set_find_module st p) (Some p)).
Proof.
  induction fuel as [|fuel IH]; intros i w m Hm Hok.
  - exists w, []. split; [done|]. split; [by apply pool_grown_nil|].
    split; [done|]. intros idx x Hx. done.
  - destruct (Hok i ltac:(lia)) as [[h Hctor] [st Hset]].
    cbn [setup_instances].
    rewrite (bind_Returns _ _ _ _ _ (setup_instance_ok b g (sys i) p i w m h st
                                       Hm Hctor Hset)).
    destruct (IH (i + 1) (MkWorld
         (<[p := InterpreterManager.Build (InterpreterManager.next_object_id_ m)
                   (InterpreterManager.instances_ m ++ [fresh (dom (interpreters w))])
                   (InterpreterManager.resources_ m)]> (managers w))
         (<[fresh (dom (interpreters w)) :=
              Interpreter.Build ImplState (set_find_module st p) (Some p)]>
            (interpreters w))
         (objects w) (last w)
         (events w ++ [SessionAcquired (fresh (dom (interpreters w)))])) (InterpreterManager.Build (InterpreterManager.next_object_id_ m)
                   (InterpreterManager.instances_ m ++ [fresh (dom (interpreters w))])
                   (InterpreterManager.resources_ m))
                ltac:(simpl; apply lookup_insert_eq)
                ltac:(intros j Hj; apply Hok; lia))
      as (w' & news & Hrun & Hgrown & Hlen & Hset').
    set (inst := fresh (dom (interpreters w))) in *.
    exists w', (inst :: news). split; [exact Hrun|]. split; [|split].
    + apply (pool_grown_cons p m inst news (set_find_module st p) w w');
        [apply fresh_interpreter | exact Hgrown].
    + simpl. by rewrite Hlen.
    + intros [|idx] x Hx; simpl in Hx.
      * injection Hx as <-. exists st. rewrite Z.add_0_r. split; [done|].
        destruct Hgrown as (_ & _ & _ & _ & _ & Hnone & Hsame). simpl in *.
        rewrite Hsame; [apply lookup_insert_eq|].
        intros Hin. specialize (Hnone _ Hin). by rewrite lookup_insert_eq in Hnone.
      * destruct (Hset' idx x Hx) as (st' & Hst' & Hx').
        exists st'. split; [|done].
        replace (i + Z.of_nat (S idx)) with (i + 1 + Z.of_nat idx) by lia. done.
Qed.

(** The loop, when interpreter [i + k] is the first that is not built or
    not set up. *)
Lemma setup_instances_fails b g sys p fuel :
  forall i k (w : World) m,
    managers w !! p = Some m ->
    (k < fuel)%nat ->
    (forall j, i <= j < i + Z.of_nat k -> instance_ok b g sys j) ->
    ~ instance_ok b g sys (i + Z.of_nat k) ->
    exists msg w' news,
      setup_instances (Obj:=Obj) b g sys p i fuel w = Throws msg w' /\
      pool_grown p m news w w' /\
      Z.of_nat (length news) = built b g sys (i + Z.of_nat k) - i.
Proof.
  induction fuel as [|fuel IH]; intros i k w m Hm Hk Hok Hbad; [lia|].
  cbn [setup_instances]. destruct k as [|k].
  - rewrite Z.add_0_r in Hbad. rewrite Z.add_0_r. unfold built.
    destruct (Loader.Interpreter_ctor b g (sys i)).2 as [e|h] eqn:Hctor.
    + exists (what e), w, []. split; [|split; [by apply pool_grown_nil | simpl; lia]].
      by rewrite (bind_Throws _ _ _ _ _
                    (setup_instance_not_built b g (sys i) p i w e Hctor)).
    + destruct (set_interp new_interpreter_impl (to_int i)) as [msg|st] eqn:Hset.
      * eexists msg, _, [fresh (dom (interpreters w))]. split; [|split].
        -- by rewrite (bind_Throws _ _ _ _ _
                         (setup_instance_not_set_up b g (sys i) p i w m h msg
                            Hm Hctor Hset)).
        -- apply (pool_grown_cons p m _ [] new_interpreter_impl w);
             [apply fresh_interpreter|].
           apply pool_grown_nil. simpl. apply lookup_insert_eq.
        -- simpl. lia.
      * exfalso. apply Hbad. split; [by exists h | by exists st].
  - destruct (Hok i ltac:(lia)) as [[h Hctor] [st Hset]].
    rewrite (bind_Returns _ _ _ _ _ (setup_instance_ok b g (sys i) p i w m h st
                                       Hm Hctor Hset)).
    destruct (IH (i + 1) k (MkWorld
         (<[p := InterpreterManager.Build (InterpreterManager.next_object_id_ m)
                   (InterpreterManager.instances_ m ++ [fresh (dom (interpreters w))])
                   (InterpreterManager.resources_ m)]> (managers w))
         (<[fresh (dom (interpreters w)) :=
              Interpreter.Build ImplState (set_find_module st p) (Some p)]>
            (interpreters w))
         (objects w) (last w)
         (events w ++ [SessionAcquired (fresh (dom (interpreters w)))])) (InterpreterManager.Build (InterpreterManager.next_object_id_ m)
                   (InterpreterManager.instances_ m ++ [fresh (dom (interpreters w))])
                   (InterpreterManager.resources_ m))
                ltac:(simpl; apply lookup_insert_eq) ltac:(lia)
                ltac:(intros j Hj; apply Hok; lia)
                ltac:(replace (i + 1 + Z.of_nat k) with (i + Z.of_nat (S k)) by lia;
                      exact Hbad))
      as (msg & w' & news & Hrun & Hgrown & Hlen).
    exists msg, w', (fresh (dom (interpreters w)) :: news).
    split; [exact Hrun|]. split.
    + apply (pool_grown_cons p m _ news (set_find_module st p) w w');
        [apply fresh_interpreter | exact Hgrown].
    + replace (i + Z.of_nat (S k)) with (i + 1 + Z.of_nat k) by lia.
      cbn [length]. lia.
Qed.

(** The destructor of an interpreter of the pool is undefined in one case
    only: outside the [FBCODE_CAFFE2] build, on a library that is loaded
    and has no [deploy_flush_python_libs]. *)
Lemma destroy_instance_None b sys j :
  destroy_instance b sys j = None <->
  b = Loader.OSS /\ Loader.dlopen (sys j) <> Embedded.nullptr /\
  Loader.dlsym (sys j) "deploy_flush_python_libs" = Embedded.nullptr.
Proof.
  unfold destroy_instance, Loader.Interpreter_dtor.
  destruct (Z.eqb_spec (Loader.dlopen (sys j)) Embedded.nullptr) as [Hh|Hh].
  - split; [done | by intros (_ & ? & _)].
  - destruct b.
    + split; [done | by intros [? _]].
    + destruct (Z.eqb_spec (Loader.dlsym (sys j) "deploy_flush_python_libs")
                  Embedded.nullptr) as [Hf|Hf];
        [done | split; [done | by intros (_ & _ & ?)]].
Qed.

Lemma lookup_foldr_delete {A} (m : gmap positive A) (l : list positive) j :
  foldr delete m l !! j = if decide (j ∈ l) then None else m !! j.
Proof.
  induction l as [|x l IH]; cbn [foldr].
  - destruct (decide (j ∈ [])) as [Hin|_]; [by apply elem_of_nil in Hin | done].
  - destruct (decide (x = j)) as [->|Hne].
    + rewrite lookup_delete_eq.
      destruct (decide (j ∈ j :: l)) as [_|Hin]; [done|].
      exfalso. apply Hin. left.
    + rewrite lookup_delete_ne by done. rewrite IH.
      destruct (decide (j ∈ l)) as [Hin|Hin], (decide (j ∈ x :: l)) as [Hin'|Hin'];
        try done.
      * exfalso. apply Hin'. by right.
      * exfalso. apply elem_of_cons in Hin' as [?|?]; [congruence | done].
Qed.

(** X15.  The constructor of a manager builds the pool.  For a pool size
    between 1 and [INT_MAX], when every interpreter is built and set up,
    the constructor returns a manager that is well formed: its pool holds
    [n_interp] distinct interpreters, all of them new, each of which refers
    back to the manager, has [torch.version.interp] set to its index in the
    pool and looks module sources up in this manager; the balancer has one
    slot for each and none is in use, since the sessions of the constructor
    are acquired on the interpreters themselves; and the constructor leaves
    the module of the reflection helper registered.  The interpreters,
    managers and objects that were there before are as they were. *)
Theorem InterpreterManager_ctor_builds_pool (b : Loader.build)
    (g : Embedded.globals) (sys : Z -> Loader.system) (p : mptr) (n_interp : Z)
    (w : World) :
  managers w !! p = None ->
  0 < n_interp <= INT_MAX ->
  (forall i, 0 <= i < n_interp -> instance_ok b g sys i) ->
  exists w' pool,
    let m := InterpreterManager.Build 0 pool (LoadBalancer.fresh n_interp) in
    InterpreterManager_ctor (Obj:=Obj) b g sys p n_interp w =
      Returns {[ "GetArgumentNamesModule" := GetArgumentNamesModule ]} w' /\
    managers w' = <[p := m]> (managers w) /\
    pool_ok w' p m /\
    Z.of_nat (length pool) = n_interp /\ NoDup pool /\
    LoadBalancer.all_idle (InterpreterManager.resources_ m) /\
    (forall idx x, pool !! idx = Some x ->
       interpreters w !! x = None /\
       exists st,
         set_interp new_interpreter_impl (Z.of_nat idx) = inr st /\
         interpreters w' !! x =
           Some (Interpreter.Build ImplState (set_find_module st p) (Some p))) /\
    (forall j, j ∉ pool -> interpreters w' !! j = interpreters w !! j) /\
    objects w' = objects w /\ last w' = last w /\
    events w' = events w ++ (SessionAcquired <$> pool).
Proof.
  intros Hp Hn Hok.
  set (m0 := InterpreterManager.Build 0 [] (LoadBalancer.fresh n_interp)).
  set (w0 := MkWorld (<[p := m0]> (managers w)) (interpreters w) (objects w)
               (last w) (events w)).
  destruct (setup_instances_ok b g sys p (Z.to_nat n_interp) 0 w0 m0
              ltac:(simpl; apply lookup_insert_eq)
              ltac:(intros j Hj; apply Hok; lia))
    as (w' & pool & Hrun & (Hm & Ho & Hl & He & Hnd & Hnone & Hsame) & Hlen & Hset).
  simpl in *. exists w', pool.
  assert (Hm' : managers w' =
            <[p := InterpreterManager.Build 0 pool (LoadBalancer.fresh n_interp)]>
              (managers w)) by (by rewrite Hm, insert_insert_eq).
  split; [|split; [done|split; [|split; [lia|split; [done|split; [|split;
    [|split; [done|split; [done|split; [done|done]]]]]]]]]].
  - unfold InterpreterManager_ctor, bind at 1, store_manager. fold m0 w0.
    unfold on_throw. by rewrite (bind_Returns _ _ _ _ _ Hrun).
  - split; [by rewrite Hm', lookup_insert_eq|].
    split; [by apply LoadBalancerFacts.fresh_wf|]. split; [simpl; lia|].
    intros x Hx. simpl in Hx. apply list_elem_of_lookup_1 in Hx as [idx Hx].
    destruct (Hset idx x Hx) as (st & _ & Hst). by eexists.
  - apply LoadBalancerFacts.fresh_idle.
  - intros idx x Hx. split; [apply Hnone; by apply list_elem_of_lookup_2 in Hx|].
    destruct (Hset idx x Hx) as (st & Hst & Hx'). exists st. split; [|done].
    rewrite Z.add_0_l in Hst. rewrite to_int_small in Hst; [done|].
    apply lookup_lt_Some in Hx. lia.
Qed.

(** X16.  A failure in the loop of the constructor of a manager aborts
    the construction.  When some interpreter of the pool is not built, or is
    built and not set up, the interpreters before it being built and set up,
    the unwinding runs the destructor of every interpreter that is in the
    pool by then.  When these destructors are defined, the constructor
    throws, and no manager and none of the interpreters it has built remain:
    the managers, the interpreters and the objects of the process are as
    they were before the call.  When one of them is not, which is the case
    exactly outside the [FBCODE_CAFFE2] build for a loaded library that has
    no [deploy_flush_python_libs], the constructor neither returns nor
    throws: its behaviour is undefined. *)
Theorem InterpreterManager_ctor_aborts (b : Loader.build) (g : Embedded.globals)
    (sys : Z -> Loader.system) (p : mptr) (n_interp k : Z) (w : World) :
  managers w !! p = None ->
  0 <= k < n_interp ->
  (forall i, 0 <= i < k -> instance_ok b g sys i) ->
  ~ instance_ok b g sys k ->
  ((forall j, 0 <= j < built b g sys k -> is_Some (destroy_instance b sys j)) ->
   exists msg w',
     InterpreterManager_ctor (Obj:=Obj) b g sys p n_interp w = Throws msg w' /\
     managers w' = managers w /\ interpreters w' = interpreters w /\
     objects w' = objects w /\ last w' = last w) /\
  ((exists j, 0 <= j < built b g sys k /\ destroy_instance b sys j = None) ->
   InterpreterManager_ctor (Obj:=Obj) b g sys p n_interp w = Undefined) /\
  (forall j,
     destroy_instance b sys j = None <->
     b = Loader.OSS /\ Loader.dlopen (sys j) <> Embedded.nullptr /\
     Loader.dlsym (sys j) "deploy_flush_python_libs" = Embedded.nullptr).
Proof.
  intros Hp Hk Hok Hbad.
  set (m0 := InterpreterManager.Build 0 [] (LoadBalancer.fresh n_interp)).
  set (w0 := MkWorld (<[p := m0]> (managers w)) (interpreters w) (objects w)
               (last w) (events w)).
  destruct (setup_instances_fails b g sys p (Z.to_nat n_interp) 0 (Z.to_nat k) w0 m0
              ltac:(simpl; apply lookup_insert_eq) ltac:(lia)
              ltac:(intros j Hj; apply Hok; lia)
              ltac:(rewrite Z.add_0_l, Z2Nat.id by lia; exact Hbad))
    as (msg & w1 & news & Hrun & (Hm & Ho & Hl & He & Hnd & Hnone & Hsame) & Hlen).
  rewrite Z.add_0_l, Z2Nat.id, Z.sub_0_r in Hlen by lia.
  simpl in Hm, Ho, Hl, He, Hnone, Hsame. rewrite insert_insert_eq in Hm.
  assert (Hctor : InterpreterManager_ctor (Obj:=Obj) b g sys p n_interp w =
            match mapM (destroy_instance b sys) (seqZ 0 (built b g sys k)) with
            | None => Undefined
            | Some _ =>
                Throws msg
                  (MkWorld (delete p (managers w1))
                     (foldr delete (interpreters w1) news)
                     (objects w1) (last w1) (events w1))
            end).
  { unfold InterpreterManager_ctor, bind at 1, store_manager. fold m0 w0.
    unfold on_throw. rewrite (bind_Throws _ _ _ _ _ Hrun). cbv beta iota.
    unfold destroy_members. rewrite Hm, lookup_insert_eq. cbn [InterpreterManager.instances_ app].
    rewrite Hlen. by destruct (mapM _ _). }
  split; [|split; [|apply destroy_instance_None]].
  - intros Hdef.
    assert (Hall : is_Some (mapM (destroy_instance b sys) (seqZ 0 (built b g sys k)))).
    { apply mapM_is_Some, Forall_forall. intros j Hj.
      apply elem_of_seqZ in Hj. apply Hdef. lia. }
    destruct Hall as [trs Htrs]. rewrite Htrs in Hctor.
    eexists msg, _. split; [exact Hctor|]. simpl.
    split; [|split; [|done]].
    + rewrite Hm. by apply delete_insert_id.
    + apply map_eq. intros j. rewrite lookup_foldr_delete.
      case_decide as Hin; [by rewrite Hnone | by apply Hsame].
  - intros (j & Hj & Hundef).
    assert (Hnone' : mapM (destroy_instance b sys) (seqZ 0 (built b g sys k)) = None).
    { apply mapM_None, Exists_exists. exists j. split; [|done].
      apply elem_of_seqZ. lia. }
    by rewrite Hnone' in Hctor.
Qed.

End ManagerFacts.

Section ManagerExamples.
Local Existing Instance ArenaSetup.setup.

Lemma arena_instance_ok i :
  0 <= i <= INT_MAX ->
  instance_ok Loader.OSS Embedded.initial (fun _ => ArenaSetup.system) i.
Proof.
  intros Hi. split; [by exists 7|].
  rewrite to_int_small by done. simpl.
  destruct (Z.ltb_spec i 0); [lia|]. by eexists.
Qed.

Lemma InterpreterManager_ctor_builds_pool_witness :
  exists w' pool,
    InterpreterManager_ctor (Obj:=Z) Loader.OSS Embedded.initial
      (fun _ => ArenaSetup.system) 1%positive 3 ArenaSetup.empty =
      Returns {[ "GetArgumentNamesModule" := GetArgumentNamesModule ]} w' /\
    pool_ok w' 1%positive
      (InterpreterManager.Build 0 pool (LoadBalancer.fresh 3)) /\
    length pool = 3%nat.
Proof.
  destruct (InterpreterManager_ctor_builds_pool (Obj:=Z) (PickledObject:=Z)
              Loader.OSS Embedded.initial
              (fun _ => ArenaSetup.system) 1%positive 3 ArenaSetup.empty
              eq_refl ltac:(by vm_compute)
              ltac:(intros i Hi; apply arena_instance_ok; unfold INT_MAX; lia))
    as (w' & pool & Hrun & _ & Hpool & Hlen & _).
  exists w', pool. split; [exact Hrun|]. split; [exact Hpool | lia].
Defined.

Lemma InterpreterManager_ctor_aborts_witness :
  let sys := fun i : Z => if i =? 2 then ArenaSetup.broken else ArenaSetup.system in
  let sys' := fun i : Z => if i =? 1 then ArenaSetup.broken else ArenaSetup.unflushed in
  (exists msg w',
     InterpreterManager_ctor (Obj:=Z) (PickledObject:=Z) Loader.OSS Embedded.initial
       sys 1%positive 3 ArenaSetup.empty = Throws msg w' /\
     managers w' = ∅ /\ interpreters w' = ∅) /\
  InterpreterManager_ctor (Obj:=Z) (PickledObject:=Z) Loader.OSS Embedded.initial
    sys' 1%positive 3 ArenaSetup.empty = Undefined.
Proof.
  intros sys sys'. split.
  - destruct (InterpreterManager_ctor_aborts (Obj:=Z) (PickledObject:=Z)
                Loader.OSS Embedded.initial sys 1%positive 3 2 ArenaSetup.empty
                eq_refl ltac:(lia)) as (Hthrows & _).
    + intros i Hi. assert (i = 0 \/ i = 1) as [-> | ->] by lia;
        (split; [by exists 7 | by eexists]).
    + intros [[h Hh] _]. vm_compute in Hh. discriminate.
    + destruct Hthrows as (msg & w' & Hrun & Hm & Hi & _).
      * intros j Hj. change (built Loader.OSS Embedded.initial sys 2) with 2 in Hj.
        assert (j = 0 \/ j = 1) as [-> | ->] by lia; by eexists.
      * exists msg, w'. split; [exact Hrun|]. split; [exact Hm | exact Hi].
  - destruct (InterpreterManager_ctor_aborts (Obj:=Z) (PickledObject:=Z)
                Loader.OSS Embedded.initial sys' 1%positive 3 1 ArenaSetup.empty
                eq_refl ltac:(lia)) as (_ & Hundef & _).
    + intros i Hi. assert (i = 0) as -> by lia.
      split; [by exists 7 | by eexists].
    + intros [[h Hh] _]. vm_compute in Hh. discriminate.
    + apply Hundef. exists 0. split; [by vm_compute | reflexivity].
Defined.

End ManagerExamples.

(** * The conversions to and from MKLDNN tensors *)

Module FrozenOpsToMKLDNNFacts.
Import FrozenOpsToMKLDNN.

Section OperatorFacts.
Context {Tensor : Type} {TO : TensorOps Tensor}.

Lemma pop_push (stack : Stack Tensor) v : pop (push stack v) = Some (v, stack).
Proof.
  unfold pop, push. rewrite reverse_app. simpl. by rewrite reverse_involutive.
Qed.

Lemma snoc2 (stack : Stack Tensor) u v : stack ++ [u; v] = push (push stack u) v.
Proof. unfold push. by rewrite <- app_assoc. Qed.

Lemma ConvertToMKLDNN_spec (stack : Stack Tensor) input :
  ConvertToMKLDNN (push stack (TensorValue input)) =
    Leaves (stack ++ [BoolValue (is_mkldnn input);
                      TensorValue (if is_mkldnn input then input
                                   else to_mkldnn input)]).
Proof.
  unfold ConvertToMKLDNN. rewrite pop_push, snoc2.
  by destruct (is_mkldnn input).
Qed.

Lemma on_top_spec f (stack : Stack Tensor) input :
  on_top f (push stack (TensorValue input)) = Leaves (push stack (TensorValue (f input))).
Proof. unfold on_top. by rewrite pop_push. Qed.

Lemma ConvertFromMKLDNN_spec (stack : Stack Tensor) flag input :
  ConvertFromMKLDNN (push (push stack (BoolValue flag)) (TensorValue input)) =
    Leaves (push stack
              (TensorValue
                 (if flag
                  then if is_mkldnn input then input else to_mkldnn input
                  else if is_mkldnn input then to_dense input else input))).
Proof.
  unfold ConvertFromMKLDNN. rewrite !pop_push.
  by destruct flag, (is_mkldnn input).
Qed.

(** X17.  [ConvertToMKLDNN] followed by [ConvertFromMKLDNN] gives a
    tensor back in the layout it came in.  On a stack with a tensor on top,
    [ConvertToMKLDNN] replaces the tensor by the flag that says whether it
    was an MKLDNN tensor and, above the flag, an MKLDNN tensor, which is the
    input itself when it was one already.  When an operator that maps
    MKLDNN tensors to MKLDNN tensors then runs on the top of the stack and
    [ConvertFromMKLDNN] after it, the stack holds the result of the
    operator in the layout of the input, and the result of the operator on
    the input itself when the input was an MKLDNN tensor; the stack below is
    left as it was. *)
Theorem convert_round_trip (f : Tensor -> Tensor) (stack : Stack Tensor)
    (input : Tensor) :
  (forall t, is_mkldnn (to_mkldnn t) = true) ->
  (forall t, is_mkldnn (to_dense t) = false) ->
  (forall t, is_mkldnn t = true -> is_mkldnn (f t) = true) ->
  (exists t,
     ConvertToMKLDNN (stack ++ [TensorValue input]) =
       Leaves (stack ++ [BoolValue (is_mkldnn input); TensorValue t]) /\
     is_mkldnn t = true /\
     (is_mkldnn input = true -> t = input)) /\
  exists r,
    and_then (and_then (ConvertToMKLDNN (stack ++ [TensorValue input])) (on_top f))
      ConvertFromMKLDNN = Leaves (stack ++ [TensorValue r]) /\
    is_mkldnn r = is_mkldnn input /\
    (is_mkldnn input = true -> r = f input).
Proof.
  intros Hto Hdense Hf.
  change (stack ++ [TensorValue input]) with (push stack (TensorValue input)).
  rewrite ConvertToMKLDNN_spec. split.
  - eexists. split; [reflexivity|].
    destruct (is_mkldnn input) eqn:Hin; [done|]. by rewrite Hto.
  - rewrite snoc2. cbn [and_then]. rewrite on_top_spec. cbn [and_then].
    rewrite ConvertFromMKLDNN_spec. eexists. split; [reflexivity|].
    destruct (is_mkldnn input) eqn:Hin.
    + rewrite (Hf input Hin). split; [by apply Hf | done].
    + rewrite (Hf _ (Hto input)). split; [by apply Hdense | done].
Qed.

End OperatorFacts.

Lemma convert_round_trip_witness :
  exists r,
    and_then (and_then (ConvertToMKLDNN (TO:=flagged)
                          [OtherValue; TensorValue (false, 5)])
                (on_top (fun t => (t.1, t.2 + 1))))
      (ConvertFromMKLDNN (TO:=flagged)) =
    Leaves [OtherValue; TensorValue r] /\
    r.1 = false.
Proof.
  destruct (convert_round_trip (TO:=flagged) (fun t => (t.1, t.2 + 1))
              [OtherValue] (false, 5)
              ltac:(done) ltac:(done) ltac:(by intros [l d]))
    as (_ & r & Hrun & Hlayout & _).
  exists r. split; [exact Hrun | exact Hlayout].
Defined.

(** The loop from index [i] on finds an input that a node other than a
    constant produces exactly when there is one at an index it reaches. *)
Lemma nonConstantParameters_from_spec producers fuel :
  forall i,
    (i + fuel = length producers)%nat ->
    nonConstantParameters_from producers i fuel = true <->
    exists j k, (i <= j)%nat /\ producers !! j = Some k /\ k <> prim_Constant.
Proof.
  induction fuel as [|fuel IH]; intros i Hlen; cbn [nonConstantParameters_from].
  - split; [done|]. intros (j & k & Hj & Hk & _).
    apply lookup_lt_Some in Hk. lia.
  - destruct (producers !! i) as [ki|] eqn:Hi.
    + assert (Hrest : nonConstantParameters_from producers (S i) fuel = true <->
                exists j k, (S i <= j)%nat /\ producers !! j = Some k /\
                            k <> prim_Constant) by (apply IH; lia).
      destruct ki;
        try (split; [intros _; eexists i, _; split; [lia|]; split; [exact Hi | done]
                    | done]).
      rewrite Hrest. split.
      * intros (j & k & Hj & Hk & Hnc). exists j, k. split; [lia | done].
      * intros (j & k & Hj & Hk & Hnc). exists j, k. split; [|done].
        destruct (decide (j = i)) as [->|]; [congruence | lia].
    + apply lookup_ge_None in Hi. lia.
Qed.

(** X18.  [nonConstantParameters] says whether some input of the node
    other than the first is produced by a node that is not a
    [prim::Constant].  The first input is never looked at: the answer is
    the same whatever produces it.  A node with no input or with one input
    has no such parameter. *)
Theorem nonConstantParameters_skips_first (producers : list Symbol) :
  (nonConstantParameters producers = true <->
   exists j k, (1 <= j)%nat /\ producers !! j = Some k /\ k <> prim_Constant) /\
  (forall k0 k0' rest,
     producers = k0 :: rest ->
     nonConstantParameters (k0' :: rest) = nonConstantParameters producers) /\
  ((length producers <= 1)%nat -> nonConstantParameters producers = false).
Proof.
  assert (Hspec : forall l,
            nonConstantParameters l = true <->
            exists j k, (1 <= j)%nat /\ l !! j = Some k /\ k <> prim_Constant).
  { intros l. unfold nonConstantParameters. destruct l as [|k0 rest].
    - simpl. split; [done|]. by intros (j & k & _ & Hk & _).
    - apply nonConstantParameters_from_spec. simpl. lia. }
  split; [apply Hspec|]. split.
  - intros k0 k0' rest ->.
    destruct (nonConstantParameters (k0 :: rest)) eqn:E.
    + apply Hspec in E as (j & k & Hj & Hk & Hnc). apply Hspec.
      exists j, k. split; [done|]. split; [|done].
      destruct j as [|j]; [lia | done].
    + destruct (nonConstantParameters (k0' :: rest)) eqn:E'; [|done].
      apply Hspec in E' as (j & k & Hj & Hk & Hnc).
      assert (nonConstantParameters (k0 :: rest) = true); [|congruence].
      apply Hspec. exists j, k. split; [done|]. split; [|done].
      destruct j as [|j]; [lia | done].
  - intros Hlen. destruct (nonConstantParameters producers) eqn:E; [|done].
    apply Hspec in E as (j & k & Hj & Hk & _).
    apply lookup_lt_Some in Hk. lia.
Qed.

Lemma nonConstantParameters_skips_first_witness :
  nonConstantParameters [other_kind "prim::Param"; prim_Constant; prim_Constant] =
    nonConstantParameters [prim_Constant; prim_Constant; prim_Constant] /\
  nonConstantParameters [prim_Constant] = false.
Proof.
  destruct (nonConstantParameters_skips_first
              [prim_Constant; prim_Constant; prim_Constant]) as (_ & Hfirst & _).
  destruct (nonConstantParameters_skips_first [prim_Constant]) as (_ & _ & Hshort).
  split.
  - exact (Hfirst prim_Constant (other_kind "prim::Param") _ eq_refl).
  - exact (Hshort ltac:(simpl; lia)).
Defined.

End FrozenOpsToMKLDNNFacts.
